(** * TextRank summarizer ([gensim/summarization/summarizer.py])

    A shallow embedding of the summarization pipeline and the properties of
    its selection policies, graph weighting and top-level entry point.

    Conventions of the embedding:
    - Python [int] is [Z]; positions produced by [enumerate]/[range] are [nat];
    - the [float] values the collaborators produce (edge weights, PageRank
      scores) are only compared by the code; they are modelled as rationals
      [Q];
    - the [ratio] is a number the caller chooses: an exact one ([int],
      [fractions.Fraction]) or a [float], an IEEE 754 binary64 value, on
      which [len(corpus) * ratio] rounds and [int] can raise;
    - [str] is [string]; [dict] is [gmap]; [set] is [gset];
    - raised exceptions are explicit results. *)

From Stdlib Require Import ZArith QArith Qround Lia Ascii.
From Stdlib Require Import Floats.SpecFloat.
From stdpp Require Import gmap strings list fin_maps sorting.

Local Open Scope Z_scope.
Set Warnings "-clear-no-such-hyp".

(** ** Python values shared by the whole module *)

Module Py.

(** Exceptions the module can raise. *)
Inductive exn : Type :=
| ValueError (msg : string)
| IndexError
| KeyError
| TypeError
| OverflowError.

(** Outcome of a call: a value or a raised exception. *)
Inductive result (A : Type) : Type :=
| Ok (a : A)
| Raise (e : exn).
Arguments Ok {A} a.
Arguments Raise {A} e.

Definition bind {A B} (r : result A) (k : A → result B) : result B :=
  match r with
  | Ok a => k a
  | Raise e => Raise e
  end.

(** Characters on which [str.split()] (no argument) cuts: the ASCII
    white space of Python, [\t \n \v \f \r], [\x1c]..[\x1f] and space. *)
Definition is_whitespace (c : ascii) : bool :=
  let n := nat_of_ascii c in
  (((9 <=? n) && (n <=? 13)) || ((28 <=? n) && (n <=? 32)))%nat.

Definition flush (cur : string) (acc : list string) : list string :=
  match cur with
  | EmptyString => acc
  | _ => cur :: acc
  end.

(** [split_go cur s]: the words of [s], given that [cur] is the word being
    read so far. *)
Fixpoint split_go (cur : string) (s : string) : list string :=
  match s with
  | EmptyString => flush cur []
  | String c rest =>
      if is_whitespace c
      then flush cur (split_go EmptyString rest)
      else split_go (cur +:+ String c EmptyString) rest
  end.

(** [s.split()] *)
Definition split (s : string) : list string := split_go EmptyString s.

(** Numbers a caller can pass as [ratio]: an exact one (an [int] or a
    [fractions.Fraction], whose arithmetic is exact) or a [float], which is
    an IEEE 754 binary64 value: a signed zero, an infinity, NaN, or
    [(-1)^s * m * 2^e]. *)
Inductive number : Type :=
| Exact (q : Q)
| Float (f : spec_float).

(** [float(n)] for an [int] [n]: the binary64 value nearest to [n]
    (precision 53, exponents below 1024).  Python raises [OverflowError]
    where this gives an infinity, from [2^1024] on; no length gets there. *)
Definition float_of_int (n : Z) : spec_float := binary_normalize 53 1024 n 0 false.

(** [x * y] on floats: the exact product rounded to the nearest binary64
    value, ties to even. *)
Definition float_mul (x y : spec_float) : spec_float := SFmul 53 1024 x y.

(** [x / y] on floats, rounded likewise. *)
Definition float_div (x y : spec_float) : spec_float := SFdiv 53 1024 x y.

(** [n * x] for an [int] [n]: exact on an exact number; on a float, [n] is
    converted to a float first. *)
Definition mul_int (n : Z) (x : number) : number :=
  match x with
  | Exact q => Exact (inject_Z n * q)
  | Float f => Float (float_mul (float_of_int n) f)
  end.

(** The rational [m * 2^e]. *)
Definition scaled (m e : Z) : Q :=
  (m * 2 ^ Z.max 0 e) # Z.to_pos (2 ^ Z.max 0 (- e)).

(** The rational a number stands for; the infinities and NaN stand for
    none. *)
Definition value (x : number) : option Q :=
  match x with
  | Exact q => Some q
  | Float (S754_zero _) => Some 0%Q
  | Float (S754_finite s m e) => Some (scaled (cond_Zopp s (Z.pos m)) e)
  | Float (S754_infinity _) | Float S754_nan => None
  end.

(** Truncation of a rational towards zero. *)
Definition trunc (q : Q) : Z :=
  if Qle_bool 0 q then Qfloor q else Qceiling q.

(** [int(x)]: truncation towards zero; an infinite float raises
    [OverflowError], NaN raises [ValueError]. *)
Definition int (x : number) : result Z :=
  match x with
  | Exact q => Ok (trunc q)
  | Float (S754_zero _) => Ok 0
  | Float (S754_finite s m e) => Ok (cond_Zopp s (Z.shiftl (Z.pos m) e))
  | Float (S754_infinity _) => Raise OverflowError
  | Float S754_nan => Raise (ValueError "cannot convert float NaN to integer")
  end.

(** [l[:k]] for a Python integer [k]; a negative [k] counts from the end. *)
Definition slice_to {A} (l : list A) (k : Z) : list A :=
  if 0 <=? k then take (Z.to_nat k) l
  else take (Z.to_nat (Z.of_nat (length l) + k)) l.

End Py.

Import Py.

Global Instance result_ret : MRet result := @Ok.
Global Instance result_bind : MBind result := λ A B k r, Py.bind r k.
Global Instance result_fmap : FMap result := λ A B f r, Py.bind r (λ a, Ok (f a)).

(** Python's [x < y] on floats. *)
Definition Qlt_bool (x y : Q) : bool := negb (Qle_bool y x).

(** ** Sentences

    Modelled from the spec: the sentence record (class [SyntacticUnit] of
    [gensim.summarization.syntactic_unit], not part of this module): an
    immutable record of the original display text, the normalized token
    string and the original position index. *)
Record SyntacticUnit : Type := mkUnit {
  text : string;
  token : string;
  index : Z
}.

Global Instance SyntacticUnit_eq_dec : EqDecision SyntacticUnit.
Proof. solve_decision. Defined.

Global Instance SyntacticUnit_countable : Countable SyntacticUnit.
Proof.
  refine (inj_countable' (fun s => (text s, token s, index s))
            (fun t => mkUnit t.1.1 t.1.2 t.2) _).
  by intros [].
Defined.

(** ** Word-count selection *)

(** [len(sentence.text.split())] *)
Definition words_in_sentence (sentence : SyntacticUnit) : Z :=
  Z.of_nat (length (Py.split (text sentence))).

(** The [for] loop of [_get_sentences_with_word_count]: [len] is the running
    count [length], [selected_sentences] the list built so far. *)
Fixpoint word_count_loop (word_count : Z) (sentences : list SyntacticUnit)
    (len : Z) (selected_sentences : list SyntacticUnit) : list SyntacticUnit :=
  match sentences with
  | [] => selected_sentences
  | sentence :: rest =>
      let w := words_in_sentence sentence in
      if Z.abs (word_count - len - w) >? Z.abs (word_count - len)
      then selected_sentences
      else word_count_loop word_count rest (len + w) (selected_sentences ++ [sentence])
  end.

Definition _get_sentences_with_word_count
    (sentences : list SyntacticUnit) (word_count : Z) : list SyntacticUnit :=
  word_count_loop word_count sentences 0 [].

(** Total number of words of a list of sentences. *)
Definition total_words (l : list SyntacticUnit) : Z :=
  foldr (fun s acc => words_in_sentence s + acc) 0 l.

(** Distance between the target and the running count. *)
Definition distance (word_count len : Z) : Z := Z.abs (word_count - len).

(** [_get_sentences_with_word_count] read as the rule the loop implements:
    the number of leading sentences whose inclusion does not move the running
    count away from the target. *)
Fixpoint accepted_prefix (word_count len : Z) (sentences : list SyntacticUnit) : nat :=
  match sentences with
  | [] => 0%nat
  | sentence :: rest =>
      let w := words_in_sentence sentence in
      if Z.abs (word_count - len - w) >? Z.abs (word_count - len)
      then 0%nat
      else S (accepted_prefix word_count (len + w) rest)
  end.

(** ** Sentence-count selection *)

(** The [while] loop of [_get_group_of_best_sentences]; [rest] is
    [sentences[i:]], so the guard [i < len(sentences)] is [rest ≠ []]. *)
Fixpoint best_sentences_loop (nb_sentences : Z) (rest : list SyntacticUnit)
    (count : Z) (set_of_selected_sentences : gset SyntacticUnit) : gset SyntacticUnit :=
  match rest with
  | [] => set_of_selected_sentences
  | sentence :: rest' =>
      if count <=? nb_sentences
      then
        if decide (sentence ∈ set_of_selected_sentences)
        then best_sentences_loop nb_sentences rest' count set_of_selected_sentences
        else best_sentences_loop nb_sentences rest' (count + 1)
               ({[ sentence ]} ∪ set_of_selected_sentences)
      else set_of_selected_sentences
  end.

(** The set built by [_get_group_of_best_sentences]; [sentences[0]] raises
    [IndexError] on an empty list. *)
Definition group_of_best_sentences (sentences : list SyntacticUnit) (nb_sentences : Z)
    : result (gset SyntacticUnit) :=
  match sentences with
  | [] => Raise IndexError
  | first :: rest => Ok (best_sentences_loop nb_sentences rest 1 {[ first ]})
  end.

(** [list(set_of_selected_sentences)]: the enumeration order of a Python set
    is unspecified; [elements] fixes one. *)
Definition _get_group_of_best_sentences (sentences : list SyntacticUnit) (nb_sentences : Z)
    : result (list SyntacticUnit) :=
  elements <$> group_of_best_sentences sentences nb_sentences.

(** ** Documents and the similarity graph *)

(** A bag-of-words document: [(term id, term frequency)] pairs.  The list
    form ([list of (int, int)]) and the hashable form ([tuple]) of a document
    have the same content; they differ only as objects (see [Store]). *)
Abbreviation bow := (list (Z * Z)).

(** Graph nodes are documents in hashable form. *)
Abbreviation Node := (list (Z * Z)).

(** [tuple(doc)] and [list(doc)] on contents. *)
Definition py_tuple (doc : bow) : Node := doc.
Definition py_list (doc : Node) : bow := doc.

Definition _build_hasheable_corpus (corpus : list bow) : list Node :=
  map py_tuple corpus.

(** [INPUT_MIN_LENGTH] only decides whether a warning is logged; logging is
    not part of the embedding. *)
Definition INPUT_MIN_LENGTH : nat := 2.

Definition WEIGHT_THRESHOLD : Q := 1 # 1000.

(** Modelled from the spec: the weighted graph (class [Graph] of
    [gensim.summarization.graph], not part of this module): nodes in
    insertion order, and undirected weighted edges, an edge between [u] and
    [v] being recorded under both ordered pairs.  Operations: [has_node],
    [add_node], [nodes], [has_edge], [add_edge(edge, weight)], [del_edge],
    [edge_weight] (default weight 0) and [iter_edges]. *)
Module Graph.

Record t : Type := mk {
  node_list : list Node;
  edge_properties : gmap (Node * Node) Q
}.

Definition empty : t := mk [] ∅.

Definition nodes (g : t) : list Node := node_list g.

Definition has_node (g : t) (n : Node) : bool := bool_decide (n ∈ node_list g).

Definition add_node (g : t) (n : Node) : t :=
  mk (node_list g ++ [n]) (edge_properties g).

Definition has_edge (g : t) (edge : Node * Node) : bool :=
  let '(u, v) := edge in
  bool_decide (is_Some (edge_properties g !! (u, v)))
  && bool_decide (is_Some (edge_properties g !! (v, u))).

Definition add_edge (g : t) (edge : Node * Node) (wt : Q) : t :=
  let '(u, v) := edge in
  mk (node_list g) (<[(v, u) := wt]> (<[(u, v) := wt]> (edge_properties g))).

Definition del_edge (g : t) (edge : Node * Node) : t :=
  let '(u, v) := edge in
  mk (node_list g) (delete (v, u) (delete (u, v) (edge_properties g))).

Definition edge_weight (g : t) (edge : Node * Node) : Q :=
  default 0%Q (edge_properties g !! edge).

Definition iter_edges (g : t) : list (Node * Node) :=
  (map_to_list (edge_properties g)).*1.

End Graph.

(** Modelled from the spec: [build_graph] of [gensim.summarization.commons]
    (not part of this module): one node per distinct hashable document, in
    order of first occurrence; no edge. *)
Definition _build_graph (sequence : list Node) : Graph.t :=
  foldl (fun graph item =>
           if Graph.has_node graph item then graph else Graph.add_node graph item)
        Graph.empty sequence.

(** The table produced by the relevance scoring: one row per query
    document, each row a list of [(candidate index, weight)]. *)
Definition weight_table : Type := list (list (nat * Q)).

(** [documents[i]] *)
Definition item {A} (l : list A) (i : nat) : result A :=
  match l !! i with
  | Some x => Ok x
  | None => Raise IndexError
  end.

(** Body of the inner loop of [_set_graph_edge_weights]. *)
Definition weigh_entry (documents : list Node) (i : nat) (graph : Graph.t)
    (entry : nat * Q) : result Graph.t :=
  let '(j, weight) := entry in
  if (i =? j)%nat || Qlt_bool weight WEIGHT_THRESHOLD then Ok graph
  else
    di ← item documents i;
    dj ← item documents j;
    let edge := (di, dj) in
    if negb (Graph.has_edge graph edge)
    then Ok (Graph.add_edge graph edge weight)
    else Ok graph.

(** [for j, weight in doc_bow: ...] *)
Fixpoint weigh_row (documents : list Node) (i : nat) (doc_bow : list (nat * Q))
    (graph : Graph.t) : result Graph.t :=
  match doc_bow with
  | [] => Ok graph
  | entry :: rest =>
      graph' ← weigh_entry documents i graph entry;
      weigh_row documents i rest graph'
  end.

(** [for i, doc_bow in enumerate(weights): ...], from position [i] on. *)
Fixpoint weigh_rows (documents : list Node) (i : nat) (weights : weight_table)
    (graph : Graph.t) : result Graph.t :=
  match weights with
  | [] => Ok graph
  | doc_bow :: rest =>
      graph' ← weigh_row documents i doc_bow graph;
      weigh_rows documents (S i) rest graph'
  end.

(** Body of the double loop of [_create_valid_graph]. *)
Definition connect (nodes : list Node) (i j : nat) (graph : Graph.t) : Graph.t :=
  if (i =? j)%nat then graph
  else
    match nodes !! i, nodes !! j with
    | Some u, Some v =>
        let edge := (u, v) in
        let graph' := if Graph.has_edge graph edge
                      then Graph.del_edge graph edge else graph in
        Graph.add_edge graph' edge 1%Q
    | _, _ => graph
    end.

Definition _create_valid_graph (graph : Graph.t) : Graph.t :=
  let nodes := Graph.nodes graph in
  let range := seq 0 (length nodes) in
  foldl (fun g i => foldl (fun g' j => connect nodes i j g') g range) graph range.

(** [all(graph.edge_weight(edge) == 0 for edge in graph.iter_edges())] *)
Definition all_weights_zero (graph : Graph.t) : bool :=
  forallb (fun edge => Qeq_bool (Graph.edge_weight graph edge) 0) (Graph.iter_edges graph).

(** ** The deprecated similarity helpers

    [@deprecated] only logs a warning before the call. *)

(** [sum(item[1] for item in doc)] *)
Definition _get_doc_length (doc : bow) : Z :=
  foldl (fun acc item => acc + item.2) 0 doc.

Section Similarity.

(** [math.log10] on an integer: a value, or [ValueError] outside its domain. *)
Variable _log10 : Z → result Q.

(** [numerator] stands for [vec1.dot(vec2.transpose()).toarray()[0][0]],
    computed by the sparse-matrix library before anything else. *)
Definition _get_similarity (doc1 doc2 : bow) (numerator : Q) : result Q :=
  let length_1 := _get_doc_length doc1 in
  let length_2 := _get_doc_length doc2 in
  denominator ←
    (if (0 <? length_1) && (0 <? length_2)
     then a ← _log10 length_1; b ← _log10 length_2; Ok (a + b)%Q
     else Ok 0%Q);
  if negb (Qeq_bool denominator 0) then Ok (numerator / denominator)%Q
  else Ok 0%Q.

End Similarity.

(** ** External collaborators

    Functions the module imports and calls, of which only the contract is
    known here: sentence segmentation ([clean_text_by_sentences]), the
    vocabulary ([Dictionary] and its [doc2bow]), relevance scoring
    ([iter_bm25_bow]), pruning ([remove_unreachable_nodes]) and the ranking
    procedure ([pagerank_weighted]).  Every result below holds for all of
    their implementations. *)
Class Collaborators : Type := {
  _clean_text_by_sentences : string → list SyntacticUnit;
  (** [Dictionary(split_tokens).doc2bow(token)] *)
  Dictionary_doc2bow : list (list string) → list string → bow;
  _bm25_weights : list Node → weight_table;
  _remove_unreachable_nodes : Graph.t → Graph.t;
  _pagerank : Graph.t → gmap Node Q
}.

(** Stable sort by decreasing key: [l.sort(key=key, reverse=True)].
    [insert_desc] puts [x] in front of the first element whose key does not
    exceed the key of [x], so equal keys keep their original order. *)
Fixpoint insert_desc {A} (key : A → Q) (x : A) (l : list A) : list A :=
  match l with
  | [] => [x]
  | y :: rest =>
      if Qlt_bool (key x) (key y) then y :: insert_desc key x rest
      else x :: y :: rest
  end.

Definition sort_desc {A} (key : A → Q) (l : list A) : list A :=
  foldr (insert_desc key) [] l.

(** [pagerank_scores.get(doc, 0)] *)
Definition score_of (pagerank_scores : gmap Node Q) (doc : Node) : Q :=
  default 0%Q (pagerank_scores !! doc).

(** [int(len(corpus) * ratio)] *)
Definition summary_length (n : nat) (ratio : number) : result Z :=
  Py.int (Py.mul_int (Z.of_nat n) ratio).

Section Pipeline.

Context `{Collaborators}.

(** The [for] loops of [_set_graph_edge_weights], before the fallback. *)
Definition weighting_pass (graph : Graph.t) : result Graph.t :=
  let documents := Graph.nodes graph in
  let weights := _bm25_weights documents in
  weigh_rows documents 0 weights graph.

Definition _set_graph_edge_weights (graph : Graph.t) : result Graph.t :=
  graph' ← weighting_pass graph;
  if all_weights_zero graph' then Ok (_create_valid_graph graph')
  else Ok graph'.

Definition _build_corpus (sentences : list SyntacticUnit) : list bow :=
  let split_tokens := map (fun sentence => Py.split (token sentence)) sentences in
  map (Dictionary_doc2bow split_tokens) split_tokens.

Definition summarize_corpus (corpus : list bow) (ratio : number) : result (list bow) :=
  let hashable_corpus := _build_hasheable_corpus corpus in
  if (length corpus =? 0)%nat then Ok []
  else
    let graph := _build_graph hashable_corpus in
    graph ← _set_graph_edge_weights graph;
    let graph := _remove_unreachable_nodes graph in
    if (length (Graph.nodes graph) <? 3)%nat then Ok []
    else
      let pagerank_scores := _pagerank graph in
      let hashable_corpus := sort_desc (score_of pagerank_scores) hashable_corpus in
      k ← summary_length (length corpus) ratio;
      Ok (map py_list (Py.slice_to hashable_corpus k)).

End Pipeline.

(** ** Sentence selection *)

(** [dict(zip(keys, values))]: pairs are inserted from left to right, a later
    pair replacing an earlier one with the same key. *)
Definition dict_of_zip {V} (keys : list Node) (values : list V) : gmap Node V :=
  foldl (fun d kv => <[kv.1 := kv.2]> d) ∅ (zip keys values).

(** [d[k]] *)
Definition getitem {V} (d : gmap Node V) (k : Node) : result V :=
  match d !! k with
  | Some v => Ok v
  | None => Raise KeyError
  end.

Definition _get_important_sentences (sentences : list SyntacticUnit)
    (corpus : list bow) (important_docs : list bow) : result (list SyntacticUnit) :=
  let hashable_corpus := _build_hasheable_corpus corpus in
  let sentences_by_corpus := dict_of_zip hashable_corpus sentences in
  mapM (fun important_doc => getitem sentences_by_corpus (py_tuple important_doc))
       important_docs.

Definition _extract_important_sentences (sentences : list SyntacticUnit)
    (corpus : list bow) (important_docs : list bow)
    (word_count nb_sentences : option Z) : result (list SyntacticUnit) :=
  important_sentences ← _get_important_sentences sentences corpus important_docs;
  match word_count, nb_sentences with
  | Some wc, _ => Ok (_get_sentences_with_word_count important_sentences wc)
  | None, Some nb => _get_group_of_best_sentences important_sentences nb
  | None, None => Ok important_sentences
  end.

(** ** Formatting and the entry point *)

(** What [summarize] can return: a list of sentence objects, a list of
    strings or a single string. *)
Inductive summary : Type :=
| Sentences (l : list SyntacticUnit)
| StrList (l : list string)
| Str (s : string).

Definition newline : string := String (ascii_of_nat 10) EmptyString.

(** [sep.join(parts)] *)
Fixpoint join (sep : string) (parts : list string) : string :=
  match parts with
  | [] => EmptyString
  | [p] => p
  | p :: rest => p +:+ sep +:+ join sep rest
  end.

(** [s.split("\n")], with the field being read in [cur]. *)
Fixpoint split_lines_go (cur : string) (s : string) : list string :=
  match s with
  | EmptyString => [cur]
  | String c rest =>
      if Ascii.eqb c (ascii_of_nat 10) then cur :: split_lines_go EmptyString rest
      else split_lines_go (cur +:+ String c EmptyString) rest
  end.

Definition split_lines (s : string) : list string := split_lines_go EmptyString s.

Definition _format_results (extracted_sentences : list SyntacticUnit) (split : bool)
    : summary :=
  if split then StrList (map text extracted_sentences)
  else Str (join newline (map text extracted_sentences)).

(** [[] if split else u""] *)
Definition empty_summary (split : bool) : summary :=
  if split then StrList [] else Str EmptyString.

Section Summarize.

Context `{Collaborators}.

Definition summarize (text : string) (ratio : number) (word_count nb_sentences : option Z)
    (split : bool) : result summary :=
  let sentences := _clean_text_by_sentences text in
  if (length sentences =? 0)%nat then Ok (empty_summary split)
  else if (length sentences =? 1)%nat
  then Raise (ValueError "input must have more than one sentence")
  else
    let corpus := _build_corpus sentences in
    let ratio_value :=
      if bool_decide (is_Some word_count ∨ is_Some nb_sentences) then Exact 1%Q else ratio in
    most_important_docs ← summarize_corpus corpus ratio_value;
    match most_important_docs with
    | [] => Ok (empty_summary split)
    | _ =>
        extracted_sentences ←
          _extract_important_sentences sentences corpus most_important_docs
            word_count nb_sentences;
        Ok (Sentences extracted_sentences)
    end.

End Summarize.

(** ** The object store

    [summarize_corpus] receives a reference to a mutable list of mutable
    lists and sorts a list in place.  [Store] is the part of Python's heap
    this involves: a list-form document, a list of references to documents,
    and a list of (immutable) tuples. *)
Module Store.

Abbreviation loc := nat.

Inductive obj : Type :=
| DocList (doc : bow)
| RefList (items : list loc)
| TupleList (items : list Node).

Abbreviation heap := (list obj).

(** Computations on the heap; an exception leaves the heap as it was when
    raised. *)
Definition M (A : Type) : Type := heap → result A * heap.

Definition ret {A} (a : A) : M A := λ h, (Ok a, h).

Definition bind {A B} (m : M A) (k : A → M B) : M B :=
  λ h, match m h with
       | (Ok a, h') => k a h'
       | (Raise e, h') => (Raise e, h')
       end.

Definition raise {A} (e : exn) : M A := λ h, (Raise e, h).

Definition lift {A} (r : result A) : M A := λ h, (r, h).

(** A new object, at the first unused location. *)
Definition alloc (o : obj) : M loc := λ h, (Ok (length h), h ++ [o]).

Definition load (l : loc) : M obj :=
  λ h, match h !! l with
       | Some o => (Ok o, h)
       | None => (Raise TypeError, h)
       end.

(** In-place update of the object at [l]. *)
Definition store (l : loc) (o : obj) : M unit := λ h, (Ok tt, <[l := o]> h).

(** [for x in xs: ...] collecting the results. *)
Fixpoint for_each {A B} (f : A → M B) (xs : list A) : M (list B) :=
  match xs with
  | [] => ret []
  | x :: rest => bind (f x) (λ y, bind (for_each f rest) (λ ys, ret (y :: ys)))
  end.

(** The document a location holds, in content. *)
Definition doc_at (h : heap) (l : loc) : option bow :=
  match h !! l with
  | Some (DocList doc) => Some doc
  | _ => None
  end.

(** The corpus a location holds, element for element. *)
Definition corpus_at (h : heap) (corpus : loc) : option (list bow) :=
  match h !! corpus with
  | Some (RefList docs) => mapM (doc_at h) docs
  | Some (TupleList docs) => Some docs
  | _ => None
  end.

End Store.

Notation "x ⇐ m ;; k" := (Store.bind m (λ x, k))
  (at level 100, m at next level, k at level 200, right associativity, only parsing).

Section StatefulCorpus.

Context `{Collaborators}.
Import Store.

(** [tuple(doc)] for a reference [doc] to a list-form document. *)
Definition tuple_of_ref (doc : loc) : M Node :=
  o ⇐ load doc;;
  match o with
  | DocList d => ret (py_tuple d)
  | _ => raise TypeError
  end.

(** [[tuple(doc) for doc in corpus]]: a new list. *)
Definition build_hasheable_corpus_st (corpus : loc) : M loc :=
  o ⇐ load corpus;;
  match o with
  | RefList docs => keys ⇐ for_each tuple_of_ref docs;; alloc (TupleList keys)
  | TupleList docs => alloc (TupleList (map py_tuple docs))
  | DocList _ => raise TypeError
  end.

(** [len(corpus)] *)
Definition len_st (corpus : loc) : M nat :=
  o ⇐ load corpus;;
  match o with
  | RefList docs => ret (length docs)
  | TupleList docs => ret (length docs)
  | DocList d => ret (length d)
  end.

(** The tuples of a list of tuples. *)
Definition tuples_st (l : loc) : M (list Node) :=
  o ⇐ load l;;
  match o with
  | TupleList keys => ret keys
  | _ => raise TypeError
  end.

(** [l.sort(key=key, reverse=True)]: the list object at [l] is updated. *)
Definition sort_st (l : loc) (key : Node → Q) : M unit :=
  keys ⇐ tuples_st l;;
  store l (TupleList (sort_desc key keys)).

(** [list(doc)]: a new list object. *)
Definition list_of_tuple (doc : Node) : M loc := alloc (DocList (py_list doc)).

(** [summarize_corpus] on the store; the graph is created and consumed
    inside the call and is threaded as a value. *)
Definition summarize_corpus_st (corpus : loc) (ratio : number) : M loc :=
  hashable_corpus ⇐ build_hasheable_corpus_st corpus;;
  n ⇐ len_st corpus;;
  if (n =? 0)%nat then alloc (RefList [])
  else
    keys ⇐ tuples_st hashable_corpus;;
    let graph := _build_graph keys in
    graph ⇐ lift (_set_graph_edge_weights graph);;
    let graph := _remove_unreachable_nodes graph in
    if (length (Graph.nodes graph) <? 3)%nat then alloc (RefList [])
    else
      let pagerank_scores := _pagerank graph in
      _ ⇐ sort_st hashable_corpus (score_of pagerank_scores);;
      keys ⇐ tuples_st hashable_corpus;;
      n ⇐ len_st corpus;;
      k ⇐ lift (summary_length n ratio);;
      docs ⇐ for_each list_of_tuple (Py.slice_to keys k);;
      alloc (RefList docs).

End StatefulCorpus.

(** ** A sample set of collaborators

    Small executable stand-ins for the imported functions, used to run the
    pipeline on concrete inputs: one sentence per non-blank line, term ids by
    position in the vocabulary, the number of shared terms as relevance,
    nodes without a weighted edge pruned, and the weighted degree as rank. *)
Module Sample.

Definition clean_text_by_sentences (text : string) : list SyntacticUnit :=
  omap (fun il : nat * string =>
          match Py.split il.2 with
          | [] => None
          | _ => Some (mkUnit il.2 il.2 (Z.of_nat il.1))
          end)
       (imap pair (split_lines text)).

Definition doc2bow (documents : list (list string)) (document : list string) : bow :=
  omap (fun iw : nat * string =>
          let c := length (filter (fun w => w = iw.2) document) in
          if (c =? 0)%nat then None else Some (Z.of_nat iw.1, Z.of_nat c))
       (imap pair (remove_dups (concat documents))).

Definition shared_terms (query candidate : Node) : nat :=
  length (filter (fun p : Z * Z => p.1 ∈ candidate.*1) query).

Definition bm25_weights (documents : list Node) : weight_table :=
  map (fun query =>
         omap (fun jc : nat * Node =>
                 let s := shared_terms query jc.2 in
                 if (s =? 0)%nat then None else Some (jc.1, inject_Z (Z.of_nat s)))
              (imap pair documents))
      documents.

Definition connected (g : Graph.t) (n : Node) : bool :=
  existsb (fun m => negb (Qeq_bool (Graph.edge_weight g (n, m)) 0)) (Graph.nodes g).

Definition remove_unreachable_nodes (g : Graph.t) : Graph.t :=
  Graph.mk (base.filter (fun n => connected g n = true) (Graph.nodes g))
           (Graph.edge_properties g).

Definition degree (g : Graph.t) (n : Node) : Q :=
  foldr Qplus 0%Q (map (fun m => Graph.edge_weight g (n, m)) (Graph.nodes g)).

Definition pagerank (g : Graph.t) : gmap Node Q :=
  list_to_map (map (fun n => (n, Qred (degree g n))) (Graph.nodes g)).

Definition collaborators : Collaborators := {|
  _clean_text_by_sentences := clean_text_by_sentences;
  Dictionary_doc2bow := doc2bow;
  _bm25_weights := bm25_weights;
  _remove_unreachable_nodes := remove_unreachable_nodes;
  _pagerank := pagerank
|}.

(** Three lines sharing words pairwise. *)
Definition text3 : string :=
  "red green" +:+ newline +:+ "green blue" +:+ newline +:+ "blue red".

(** The corpus of [text3] and its weighted graph. *)
Definition corpus3 : list bow :=
  @_build_corpus collaborators (clean_text_by_sentences text3).

Definition graph3 : Graph.t :=
  match @_set_graph_edge_weights collaborators
          (_build_graph (_build_hasheable_corpus corpus3)) with
  | Ok g => g
  | Raise _ => Graph.empty
  end.

(** [graph3] before the fallback is considered. *)
Definition weighted3 : Graph.t :=
  match @weighting_pass collaborators
          (_build_graph (_build_hasheable_corpus corpus3)) with
  | Ok g => g
  | Raise _ => Graph.empty
  end.

(** Three lines without a common word: no pair reaches the threshold. *)
Definition disjoint_text : string :=
  "red" +:+ newline +:+ "green" +:+ newline +:+ "blue".

Definition disjoint_corpus : list bow :=
  @_build_corpus collaborators (clean_text_by_sentences disjoint_text).

Definition disjoint_weighted : Graph.t :=
  match @weighting_pass collaborators
          (_build_graph (_build_hasheable_corpus disjoint_corpus)) with
  | Ok g => g
  | Raise _ => Graph.empty
  end.

(** The graph of [disjoint_corpus] once the fallback has run. *)
Definition disjoint_graph : Graph.t :=
  match @_set_graph_edge_weights collaborators
          (_build_graph (_build_hasheable_corpus disjoint_corpus)) with
  | Ok g => g
  | Raise _ => Graph.empty
  end.

(** A heap holding [corpus3] as a list of three list-form documents. *)
Definition heap3 : list Store.obj :=
  map Store.DocList corpus3 ++ [Store.RefList (seq 0 (length corpus3))].

Definition corpus3_loc : nat := length corpus3.

(** A stand-in logarithm, defined on the positive integers only. *)
Definition log10 (n : Z) : result Q :=
  if 0 <? n then Ok (inject_Z (Z.log2 n / 3)) else Raise (ValueError "math domain error").

(** Two distinct sentences. *)
Definition first_unit : SyntacticUnit := mkUnit "red green" "red green" 0.
Definition second_unit : SyntacticUnit := mkUnit "green blue" "green blue" 1.

(** Four lines, the last one repeating the first. *)
Definition repeated_text : string :=
  text3 +:+ newline +:+ "red green".

(** Two lines. *)
Definition text2 : string := "red green" +:+ newline +:+ "green blue".

(** A corpus of three documents, two of them equal. *)
Definition repeated_corpus : list bow := [[(0, 1)]; [(1, 2)]; [(0, 1)]].

(** A bag of words shared by two sentences. *)
Definition shared_doc : bow := [(0, 1)].

(** The floats written [0.5], [0.2], [0.6], [-0.6] and [0.58]: the binary64
    values nearest to these decimals. *)
Definition half : number := Float (S754_finite false 4503599627370496 (-53)).
Definition fifth : number := Float (S754_finite false 7205759403792794 (-55)).
Definition three_fifths : number := Float (S754_finite false 5404319552844595 (-53)).
Definition minus_three_fifths : number :=
  Float (S754_finite true 5404319552844595 (-53)).
Definition fifty_eight_hundredths : number :=
  Float (S754_finite false 5224175567749775 (-53)).

(** Five lines, each sharing a word with another. *)
Definition text5 : string :=
  text3 +:+ newline +:+ "red white" +:+ newline +:+ "white green".

Definition corpus5 : list bow :=
  @_build_corpus collaborators (clean_text_by_sentences text5).

Definition graph5 : Graph.t :=
  match @_set_graph_edge_weights collaborators
          (_build_graph (_build_hasheable_corpus corpus5)) with
  | Ok g => g
  | Raise _ => Graph.empty
  end.

(** Fifty documents: the three of [corpus3], over and over. *)
Definition corpus50 : list bow := take 50 (concat (replicate 17 corpus3)).

(** A four-word sentence. *)
Definition four_words : SyntacticUnit :=
  mkUnit "one two three four" "one two three four" 0.

(** Sentences of five and seven words. *)
Definition five_words : SyntacticUnit :=
  mkUnit "one two three four five" "one two three four five" 1.

Definition seven_words : SyntacticUnit :=
  mkUnit "one two three four five six seven" "one two three four five six seven" 2.

End Sample.

(** ** Specification-side definitions *)

(** Well-formed similarity graphs: distinct nodes, and an edge relation that
    is symmetric (one weight per unordered pair), irreflexive, between nodes
    of the graph and non-negatively weighted. *)
Record graph_wf (g : Graph.t) : Prop := {
  wf_nodup : NoDup (Graph.nodes g);
  wf_sym : ∀ u v, Graph.edge_properties g !! (u, v) = Graph.edge_properties g !! (v, u);
  wf_irrefl : ∀ u, Graph.edge_properties g !! (u, u) = None;
  wf_closed : ∀ u v, is_Some (Graph.edge_properties g !! (u, v)) →
                     u ∈ Graph.nodes g ∧ v ∈ Graph.nodes g;
  wf_nonneg : ∀ e w, Graph.edge_properties g !! e = Some w → (0 <= w)%Q
}.

(** The entries of row [i] of the weight table that pass the guard of the
    inner loop, as [(documents[i], documents[j], weight)], in loop order. *)
Definition qualifying (documents : list Node) (i : nat) (doc_bow : list (nat * Q))
    : list (Node * Node * Q) :=
  omap (fun entry : nat * Q =>
          if (i =? entry.1)%nat || Qlt_bool entry.2 WEIGHT_THRESHOLD then None
          else
            match documents !! i, documents !! entry.1 with
            | Some u, Some v => Some (u, v, entry.2)
            | _, _ => None
            end)
       doc_bow.

(** All such entries of the table, in the order the loops visit them. *)
Fixpoint candidates (documents : list Node) (i : nat) (weights : weight_table)
    : list (Node * Node * Q) :=
  match weights with
  | [] => []
  | doc_bow :: rest => qualifying documents i doc_bow ++ candidates documents (S i) rest
  end.

(** The weight of the first entry, in either direction, between [u] and [v]. *)
Fixpoint first_weight (cands : list (Node * Node * Q)) (u v : Node) : option Q :=
  match cands with
  | [] => None
  | (a, b, w) :: rest =>
      if decide ((a, b) = (u, v) ∨ (a, b) = (v, u)) then Some w
      else first_weight rest u v
  end.

(** An edge keeps the weight it has; otherwise it takes the new one. *)
Definition keep_or (old fresh : option Q) : option Q :=
  match old with
  | Some w => Some w
  | None => fresh
  end.

(** What a run of the weighting loops over the entries [cands] does to a
    graph: it stays well formed on the same nodes, existing edges keep their
    weight, and a new edge gets the weight of the first entry between its
    end points, which is at least the threshold. *)
Record weighted_from (g g' : Graph.t) (cands : list (Node * Node * Q)) : Prop := {
  wfrom_wf : graph_wf g';
  wfrom_nodes : Graph.nodes g' = Graph.nodes g;
  wfrom_edges : ∀ u v,
    Graph.edge_properties g' !! (u, v)
    = keep_or (Graph.edge_properties g !! (u, v)) (first_weight cands u v);
  wfrom_threshold : ∀ e w,
    Graph.edge_properties g' !! e = Some w →
    Graph.edge_properties g !! e = Some w ∨ (WEIGHT_THRESHOLD <= w)%Q
}.

(** The ordered pair [e] joins, in either direction, the nodes at two
    distinct positions [i], [j] that the double loop of
    [_create_valid_graph] has visited ([visited i j]). *)
Definition joined (nodes : list Node) (visited : nat → nat → Prop) (e : Node * Node)
    : Prop :=
  ∃ i j u v, visited i j ∧ i ≠ j ∧ nodes !! i = Some u ∧ nodes !! j = Some v
             ∧ (e = (u, v) ∨ e = (v, u)).

(** State of the graph while [_create_valid_graph] runs on [g]: the pairs
    visited so far have weight 1, every other edge is as in [g]. *)
Record completing (g : Graph.t) (visited : nat → nat → Prop) (g' : Graph.t) : Prop := {
  cpl_nodes : Graph.nodes g' = Graph.nodes g;
  cpl_one : ∀ e, joined (Graph.nodes g) visited e →
                 Graph.edge_properties g' !! e = Some 1%Q;
  cpl_other : ∀ e w, Graph.edge_properties g' !! e = Some w →
                     Graph.edge_properties g !! e = Some w
                     ∨ (w = 1%Q ∧ joined (Graph.nodes g) visited e)
}.

(** A display text without a line break. *)
Fixpoint newline_free (s : string) : Prop :=
  match s with
  | EmptyString => True
  | String c rest => c ≠ ascii_of_nat 10 ∧ newline_free rest
  end.

(** The value a key has in [dict(zip(keys, values))] when the last pair with
    that key wins. *)
Definition last_writer {V} (keys : list Node) (values : list V) (k : Node) : option V :=
  last (base.filter (fun kv : Node * V => kv.1 = k) (zip keys values)).*2.

(** Descending order of scores. *)
Definition score_ge (scores : gmap Node Q) (a b : Node) : Prop :=
  (score_of scores b <= score_of scores a)%Q.

(** The word-count rule as the specification words it: every accepted
    sentence strictly reduces the distance to the target. *)
Definition strictly_improving (sentences : list SyntacticUnit) (word_count : Z) : Prop :=
  ∀ i sentence,
    (i < length (_get_sentences_with_word_count sentences word_count))%nat →
    sentences !! i = Some sentence →
    distance word_count (total_words (take i sentences) + words_in_sentence sentence)
    < distance word_count (total_words (take i sentences)).

(** The selector map as the specification words it: the first sentence with
    a key is the one the key resolves to. *)
Definition first_writer_wins (keys : list Node) (sentences : list SyntacticUnit) : Prop :=
  ∀ i k s,
    keys !! i = Some k → sentences !! i = Some s →
    (∀ j, (j < i)%nat → keys !! j ≠ Some k) →
    dict_of_zip keys sentences !! k = Some s.

(** ** Binary64 rounding

    What the slice bound [int(len(corpus) * ratio)] needs of a float
    product. *)

(** State of a mantissa [M] after [k] right shifts: what is left is
    [M / 2^k], and a dropped bit was set only if [2^k] does not divide
    [M]. *)
Definition shifted (M k : Z) (R : shr_record) : Prop :=
  shr_m R = M / 2 ^ k
  ∧ (shr_r R || shr_s R = true → M mod 2 ^ k ≠ 0).

(** [N <= m * 2^e], without fractions. *)
Definition at_least (N m e : Z) : Prop :=
  N * 2 ^ Z.max 0 (- e) ≤ m * 2 ^ Z.max 0 e.

(** [len(corpus)] is converted to the type of the ratio without loss: always
    for an exact ratio; for a float one, when it is below [2^53]. *)
Definition length_fits (n : nat) (ratio : number) : Prop :=
  match ratio with
  | Exact _ => True
  | Float _ => Z.of_nat n < 2 ^ 53
  end.

(** * Properties *)

(** ** Word-count selection *)

Lemma word_count_loop_prefix word_count sentences len selected :
  word_count_loop word_count sentences len selected
  = selected ++ take (accepted_prefix word_count len sentences) sentences.
Proof.
  revert len selected.
  induction sentences as [|s rest IH]; intros len selected; simpl.
  - by rewrite app_nil_r.
  - destruct (Z.abs (word_count - len - words_in_sentence s) >? Z.abs (word_count - len)).
    + by rewrite app_nil_r.
    + rewrite IH, <- app_assoc. done.
Qed.

Lemma total_words_cons s l :
  total_words (s :: l) = words_in_sentence s + total_words l.
Proof. done. Qed.

Local Arguments total_words : simpl never.

Lemma accepted_prefix_rule word_count len sentences :
  let k := accepted_prefix word_count len sentences in
  (k ≤ length sentences)%nat
  ∧ (∀ i s, (i < k)%nat → sentences !! i = Some s →
       distance word_count (len + total_words (take i sentences) + words_in_sentence s)
       ≤ distance word_count (len + total_words (take i sentences)))
  ∧ (∀ s, sentences !! k = Some s →
       distance word_count (len + total_words (take k sentences) + words_in_sentence s)
       > distance word_count (len + total_words (take k sentences))).
Proof.
  revert len. unfold distance.
  induction sentences as [|s0 rest IH]; intros len; simpl.
  - split; [lia|]. split; [intros; lia | intros s Hs; discriminate].
  - destruct (Z.abs (word_count - len - words_in_sentence s0)
              >? Z.abs (word_count - len)) eqn:Hcmp; simpl.
    + split; [lia|]. split; [intros; lia|].
      intros s [= <-]. change (total_words []) with 0. lia.
    + destruct (IH (len + words_in_sentence s0)) as (Hle & Hacc & Hstop).
      split; [lia|]. split.
      * intros [|i] s Hi Hs; simpl in *.
        -- injection Hs as <-. change (total_words []) with 0. lia.
        -- specialize (Hacc i s ltac:(lia) Hs).
           rewrite total_words_cons. lia.
      * intros s Hs. specialize (Hstop s Hs).
        rewrite total_words_cons. lia.
Qed.

(** C3 (as the code has it): the selection is the longest prefix of the
    importance-ordered list in which no sentence moves the running word count
    away from the target; a sentence that leaves the distance unchanged is
    accepted, and the walk stops at the first sentence that increases it. *)
Theorem word_count_selection_is_non_worsening_prefix
    (sentences : list SyntacticUnit) (word_count : Z) :
  ∃ k : nat,
    (k ≤ length sentences)%nat
    ∧ _get_sentences_with_word_count sentences word_count = take k sentences
    ∧ (∀ i s, (i < k)%nat → sentences !! i = Some s →
         distance word_count (total_words (take i sentences) + words_in_sentence s)
         ≤ distance word_count (total_words (take i sentences)))
    ∧ (∀ s, sentences !! k = Some s →
         distance word_count (total_words (take k sentences) + words_in_sentence s)
         > distance word_count (total_words (take k sentences))).
Proof.
  exists (accepted_prefix word_count 0 sentences).
  destruct (accepted_prefix_rule word_count 0 sentences) as (Hle & Hacc & Hstop).
  split; [done|]. split.
  - unfold _get_sentences_with_word_count. by rewrite word_count_loop_prefix.
  - split.
    + intros i s Hi Hs. apply (Hacc i s Hi Hs).
    + intros s Hs. apply (Hstop s Hs).
Qed.

(** Target 10 and sentences of 4, 5 and 7 words: the first two are accepted
    (distances 10, 6, 1), the third would bring the distance back to 6. *)
Example word_count_selection_4_5_7 :
  _get_sentences_with_word_count
    [Sample.four_words; Sample.five_words; Sample.seven_words] 10
  = [Sample.four_words; Sample.five_words].
Proof. reflexivity. Qed.

(** C3 (as stated) fails: with target 2, a four-word sentence is accepted
    although the distance stays 2 instead of decreasing. *)
Lemma word_count_selection_accepts_ties :
  _get_sentences_with_word_count [Sample.four_words] 2 = [Sample.four_words]
  ∧ ¬ strictly_improving [Sample.four_words] 2.
Proof.
  split; [reflexivity|].
  intros Hspec. specialize (Hspec 0%nat Sample.four_words).
  vm_compute in Hspec.
  specialize (Hspec (le_n 1) eq_refl). discriminate.
Qed.

(** ** Sentence-count selection *)

Lemma best_sentences_loop_size nb_sentences rest count (S : gset SyntacticUnit) :
  count = Z.of_nat (size S) → count ≤ nb_sentences + 1 →
  let R := best_sentences_loop nb_sentences rest count S in
  S ⊆ R ∧ R ⊆ S ∪ list_to_set rest
  ∧ Z.of_nat (size R)
    = Z.min (nb_sentences + 1) (Z.of_nat (size (S ∪ list_to_set rest))).
Proof.
  revert count S.
  induction rest as [|s rest IH]; intros count S Hcount Hbound; simpl.
  - assert (S ∪ ∅ = S) as -> by apply (right_id_L ∅ (∪)).
    split; [done|]. split; [done|]. lia.
  - destruct (count <=? nb_sentences) eqn:Hguard.
    + apply Z.leb_le in Hguard.
      destruct (decide (s ∈ S)) as [Hin|Hnotin].
      * destruct (IH count S Hcount Hbound) as (Hsub & Hsup & Hsize).
        assert (S ∪ ({[s]} ∪ list_to_set rest) = S ∪ list_to_set rest) as ->
          by (apply leibniz_equiv; set_solver).
        done.
      * assert (Hsize' : size ({[s]} ∪ S) = Datatypes.S (size S)).
        { assert ({[s]} ## S) as Hdisj by (apply disjoint_singleton_l; done).
          by rewrite (size_union _ _ Hdisj), size_singleton. }
        destruct (IH (count + 1) ({[s]} ∪ S)) as (Hsub & Hsup & Hsize); [lia..|].
        assert (S ∪ ({[s]} ∪ list_to_set rest) = {[s]} ∪ S ∪ list_to_set rest) as ->
          by (apply leibniz_equiv; set_solver).
        split; [|done]. etrans; [|exact Hsub]. apply union_subseteq_r.
    + apply Z.leb_gt in Hguard.
      split; [done|]. split; [set_solver|].
      assert (size S ≤ size (S ∪ ({[s]} ∪ list_to_set rest)))%nat
        by (apply subseteq_size; set_solver).
      lia.
Qed.

(** What the loop of [_get_group_of_best_sentences] computes: the top-ranked
    sentence is selected, and the selection holds [nb_sentences + 1] distinct
    sentences when the list has that many. *)
Lemma group_of_best_sentences_size first rest nb_sentences :
  0 ≤ nb_sentences →
  ∃ S : gset SyntacticUnit,
    group_of_best_sentences (first :: rest) nb_sentences = Ok S
    ∧ first ∈ S
    ∧ S ⊆ list_to_set (first :: rest)
    ∧ Z.of_nat (size S)
      = Z.min (nb_sentences + 1) (Z.of_nat (size (list_to_set (first :: rest) : gset _))).
Proof.
  intros Hnb. eexists. split; [reflexivity|].
  destruct (best_sentences_loop_size nb_sentences rest 1 {[first]})
    as (Hsub & Hsup & Hsize).
  - by rewrite size_singleton.
  - lia.
  - split; [set_solver|]. split; [done|]. done.
Qed.

(** C2 fails on the code: asked for one sentence out of two distinct ones,
    the loop guard [count <= nb_sentences] lets a second sentence in, and the
    selection has two sentences instead of [min 1 2 = 1]. *)
Theorem group_of_best_sentences_one_too_many :
  ∃ S : gset SyntacticUnit,
    group_of_best_sentences [Sample.first_unit; Sample.second_unit] 1 = Ok S
    ∧ size S = 2%nat
    ∧ size (list_to_set [Sample.first_unit; Sample.second_unit] : gset SyntacticUnit) = 2%nat
    ∧ length <$> _get_group_of_best_sentences [Sample.first_unit; Sample.second_unit] 1
      = Ok 2%nat.
Proof.
  eexists. split; [reflexivity|]. by vm_compute.
Qed.

(** ** The selector map *)

Lemma foldl_insert_absent {V} (pairs : list (Node * V)) (m : gmap Node V) k :
  (∀ j v, pairs !! j ≠ Some (k, v)) →
  foldl (fun d kv => <[kv.1 := kv.2]> d) m pairs !! k = m !! k.
Proof.
  revert m. induction pairs as [|[k' v'] rest IH]; intros m Habsent; simpl; [done|].
  rewrite IH.
  - apply lookup_insert_ne. intros ->. by apply (Habsent 0%nat v').
  - intros j v. apply (Habsent (S j) v).
Qed.

Lemma foldl_insert_last {V} (pairs : list (Node * V)) (m : gmap Node V) i k v :
  pairs !! i = Some (k, v) →
  (∀ j v', (i < j)%nat → pairs !! j ≠ Some (k, v')) →
  foldl (fun d kv => <[kv.1 := kv.2]> d) m pairs !! k = Some v.
Proof.
  revert m i. induction pairs as [|p rest IH]; intros m i Hi Hlast; [done|].
  destruct i as [|i]; simpl in *.
  - injection Hi as ->. rewrite foldl_insert_absent.
    + apply lookup_insert_eq.
    + intros j v'. apply (Hlast (S j) v'). lia.
  - apply (IH _ i Hi). intros j v' Hj. apply (Hlast (S j) v'). lia.
Qed.

Lemma dict_of_zip_last {V} (keys : list Node) (values : list V) i k v :
  keys !! i = Some k → values !! i = Some v →
  (∀ j, (i < j)%nat → (j < length values)%nat → keys !! j ≠ Some k) →
  dict_of_zip keys values !! k = Some v.
Proof.
  intros Hk Hv Hlast. unfold dict_of_zip.
  apply (foldl_insert_last _ _ i).
  - by rewrite lookup_zip_with, Hk, Hv.
  - intros j v' Hj Hzip. rewrite lookup_zip_with in Hzip.
    destruct (keys !! j) as [k'|] eqn:Hkj; [|done].
    destruct (values !! j) as [v''|] eqn:Hvj; [|done].
    simpl in Hzip. injection Hzip as -> ->.
    apply (Hlast j Hj); [|done]. by eapply lookup_lt_Some.
Qed.

(** The selector map in closed form: each key holds the value of the last
    pair with that key. *)
Lemma foldl_insert_lookup {V} (pairs : list (Node * V)) (m : gmap Node V) k :
  foldl (fun d kv => <[kv.1 := kv.2]> d) m pairs !! k
  = from_option Some (m !! k)
      (last (base.filter (fun kv : Node * V => kv.1 = k) pairs).*2).
Proof.
  revert m. induction pairs as [|[k' v] rest IH]; intros m; simpl; [done|].
  rewrite IH, filter_cons. simpl.
  destruct (decide (k' = k)) as [->|Hne].
  - rewrite lookup_insert_eq, fmap_cons, last_cons. simpl.
    by destruct (last _).
  - by rewrite lookup_insert_ne.
Qed.

Lemma dict_of_zip_lookup {V} (keys : list Node) (values : list V) k :
  dict_of_zip keys values !! k = last_writer keys values k.
Proof.
  unfold dict_of_zip, last_writer. rewrite foldl_insert_lookup, lookup_empty.
  by destruct (last _).
Qed.

Lemma mapM_result_lookup {A B} (f : A → result B) (l : list A) (r : list B) p x :
  mapM f l = Ok r → l !! p = Some x → ∃ y, f x = Ok y ∧ r !! p = Some y.
Proof.
  revert r p. induction l as [|a l IH]; intros r p Hmap Hp; [done|].
  simpl in Hmap. unfold mbind, result_bind, Py.bind in Hmap.
  destruct (f a) as [b|e] eqn:Hfa; [|done].
  destruct (mapM f l) as [bs|e] eqn:Hrest; [|done].
  injection Hmap as <-.
  destruct p as [|p]; simpl in *.
  - injection Hp as <-. eauto.
  - eapply IH; eauto.
Qed.

(** C4 (as the code has it): when several sentences share a hashable key,
    [dict(zip(...))] keeps the LAST of them in sentence order, and every
    ranked document with that key resolves to that last sentence. *)
Theorem important_sentences_last_writer_wins
    (sentences : list SyntacticUnit) (corpus : list bow) (i : nat) (d : bow)
    (s : SyntacticUnit) :
  corpus !! i = Some d →
  sentences !! i = Some s →
  (∀ j, (i < j)%nat → (j < length sentences)%nat → corpus !! j ≠ Some d) →
  dict_of_zip (_build_hasheable_corpus corpus) sentences !! py_tuple d = Some s
  ∧ ∀ important_docs resolved p,
      _get_important_sentences sentences corpus important_docs = Ok resolved →
      important_docs !! p = Some d →
      resolved !! p = Some s.
Proof.
  intros Hd Hs Hlast.
  assert (Hdict : dict_of_zip (_build_hasheable_corpus corpus) sentences !! py_tuple d
                  = Some s).
  { apply (dict_of_zip_last _ _ i); [| done |].
    - unfold _build_hasheable_corpus, py_tuple. by rewrite list_lookup_fmap, Hd.
    - intros j Hj Hlen. unfold _build_hasheable_corpus, py_tuple.
      rewrite list_lookup_fmap. intros Heq. apply (Hlast j Hj Hlen).
      destruct (corpus !! j); simpl in *; congruence. }
  split; [done|].
  intros important_docs resolved p Hres Hp.
  unfold _get_important_sentences in Hres.
  destruct (mapM_result_lookup _ _ _ _ _ Hres Hp) as (y & Hy & Hry).
  unfold getitem in Hy. rewrite Hdict in Hy. by injection Hy as <-.
Qed.

(** Two sentences with the same bag of words: the key resolves to the
    second one. *)
Lemma important_sentences_last_writer_wins_witness :
  dict_of_zip (_build_hasheable_corpus [Sample.shared_doc; Sample.shared_doc])
    [Sample.first_unit; Sample.second_unit] !! py_tuple Sample.shared_doc
  = Some Sample.second_unit
  ∧ ∀ important_docs resolved p,
      _get_important_sentences [Sample.first_unit; Sample.second_unit]
        [Sample.shared_doc; Sample.shared_doc] important_docs = Ok resolved →
      important_docs !! p = Some Sample.shared_doc →
      resolved !! p = Some Sample.second_unit.
Proof.
  apply (important_sentences_last_writer_wins
           [Sample.first_unit; Sample.second_unit]
           [Sample.shared_doc; Sample.shared_doc] 1 Sample.shared_doc Sample.second_unit).
  - reflexivity.
  - reflexivity.
  - simpl. intros j Hlo Hhi. lia.
Defined.

(** C4 (as stated) fails: with two sentences under one key, the key does not
    resolve to the first sentence but to the second. *)
Lemma first_writer_does_not_win :
  ¬ first_writer_wins [Sample.shared_doc; Sample.shared_doc]
      [Sample.first_unit; Sample.second_unit]
  ∧ _get_important_sentences [Sample.first_unit; Sample.second_unit]
      [Sample.shared_doc; Sample.shared_doc] [Sample.shared_doc]
    = Ok [Sample.second_unit].
Proof.
  split; [|by vm_compute].
  intros Hspec.
  specialize (Hspec 0%nat Sample.shared_doc Sample.first_unit eq_refl eq_refl).
  assert (Hfirst : ∀ j, (j < 0)%nat →
            [Sample.shared_doc; Sample.shared_doc] !! j ≠ Some Sample.shared_doc)
    by (intros j Hj; lia).
  specialize (Hspec Hfirst). vm_compute in Hspec. discriminate.
Qed.

(** ** Input validity at the entry point *)

(** C8: when no sentence is detected, [summarize] returns (it does not
    raise) the empty result in the requested format: the empty list for
    [split=True], the empty string otherwise. *)
Theorem summarize_no_sentence `{Collaborators}
    (text : string) (ratio : number) (word_count nb_sentences : option Z) (split : bool) :
  length (_clean_text_by_sentences text) = 0%nat →
  summarize text ratio word_count nb_sentences split
  = Ok (if split then StrList [] else Str EmptyString).
Proof.
  intros Hlen. unfold summarize. rewrite Hlen. reflexivity.
Qed.

Lemma summarize_no_sentence_witness :
  length (Sample.clean_text_by_sentences EmptyString) = 0%nat
  ∧ @summarize Sample.collaborators EmptyString Sample.fifth None None true = Ok (StrList [])
  ∧ @summarize Sample.collaborators EmptyString Sample.fifth None None false
    = Ok (Str EmptyString).
Proof.
  split; [reflexivity|]. split.
  - apply (@summarize_no_sentence Sample.collaborators EmptyString Sample.fifth None None true).
    reflexivity.
  - apply (@summarize_no_sentence Sample.collaborators EmptyString Sample.fifth None None false).
    reflexivity.
Defined.

(** C7: when exactly one sentence is detected, [summarize] raises
    [ValueError], whatever the ratio, the word count, the sentence count and
    the format flag; no value is returned. *)
Theorem summarize_one_sentence `{Collaborators}
    (text : string) (ratio : number) (word_count nb_sentences : option Z) (split : bool) :
  length (_clean_text_by_sentences text) = 1%nat →
  summarize text ratio word_count nb_sentences split
  = Raise (ValueError "input must have more than one sentence").
Proof.
  intros Hlen. unfold summarize. rewrite Hlen. reflexivity.
Qed.

Lemma summarize_one_sentence_witness :
  length (Sample.clean_text_by_sentences "red green") = 1%nat
  ∧ @summarize Sample.collaborators "red green" Sample.fifth (Some 3) None false
    = Raise (ValueError "input must have more than one sentence").
Proof.
  split; [reflexivity|].
  apply (@summarize_one_sentence Sample.collaborators "red green" Sample.fifth (Some 3) None false).
  reflexivity.
Defined.

(** ** The slice bound: binary64 rounding *)

(** One right shift halves the mantissa and remembers what it dropped. *)
Lemma shr_1_m (R : shr_record) :
  0 ≤ shr_m R → shr_m (shr_1 R) = shr_m R / 2.
Proof.
  destruct R as [m r s]. simpl. intros Hm.
  destruct m as [|[p|p|]|p]; simpl; [done| | |done|lia].
  - apply (Z.div_unique _ 2 _ 1); lia.
  - apply (Z.div_unique _ 2 _ 0); lia.
Qed.

Lemma shr_1_r (R : shr_record) :
  0 ≤ shr_m R → shr_r (shr_1 R) = Z.odd (shr_m R).
Proof.
  destruct R as [m r s]. simpl. intros Hm.
  destruct m as [|[p|p|]|p]; simpl; try lia; done.
Qed.

Lemma shr_1_s (R : shr_record) :
  shr_s (shr_1 R) = shr_r R || shr_s R.
Proof.
  destruct R as [m r s]. simpl.
  destruct m as [|[p|p|]|[p|p|]]; done.
Qed.

Lemma shifted_step (M k : Z) (R : shr_record) :
  0 ≤ M → 0 ≤ k → shifted M k R → shifted M (k + 1) (shr_1 R).
Proof.
  intros HM Hk [Hm Hrs].
  assert (Hpow : 0 < 2 ^ k) by (apply Z.pow_pos_nonneg; lia).
  assert (Hnonneg : 0 ≤ shr_m R) by (rewrite Hm; apply Z.div_pos; lia).
  assert (Hsucc : 2 ^ (k + 1) = 2 ^ k * 2) by (rewrite Z.pow_add_r; lia).
  split.
  - rewrite shr_1_m by done. rewrite Hm, Hsucc, Z.div_div by lia. done.
  - rewrite shr_1_r, shr_1_s by done. intros Hdropped Hzero.
    apply Z.mod_divide in Hzero; [|lia]. destruct Hzero as [q Hq].
    rewrite Hsucc in Hq.
    apply orb_true_iff in Hdropped as [Hodd|Hold].
    + rewrite Hm in Hodd.
      assert (M / 2 ^ k = 2 * q) as Heven.
      { symmetry. apply (Z.div_unique _ _ _ 0); lia. }
      rewrite Heven, Z.odd_mul in Hodd. done.
    + apply Hrs; [done|]. apply Z.mod_divide; [lia|]. exists (q * 2). lia.
Qed.

Lemma shifted_iter (p : positive) (M k : Z) (R : shr_record) :
  0 ≤ M → 0 ≤ k → shifted M k R → shifted M (k + Z.pos p) (SpecFloat.iter_pos shr_1 p R).
Proof.
  intros HM. revert k R.
  induction p as [p IH|p IH|]; intros k R Hk HR; simpl.
  - replace (k + Z.pos p~1) with (k + 1 + Z.pos p + Z.pos p) by lia.
    apply IH; [lia|]. apply IH; [lia|]. by apply shifted_step.
  - replace (k + Z.pos p~0) with (k + Z.pos p + Z.pos p) by lia.
    apply IH; [lia|]. by apply IH.
  - by apply shifted_step.
Qed.

(** [shr] on an exact mantissa: floor division, the exponent moved along. *)
Lemma shr_exact (M e s : Z) :
  0 ≤ M →
  ∃ R, shr (shr_record_of_loc M loc_Exact) e s = (R, e + Z.max 0 s)
       ∧ shifted M (Z.max 0 s) R.
Proof.
  intros HM.
  assert (H0 : shifted M 0 (shr_record_of_loc M loc_Exact)).
  { split; simpl; [by rewrite Z.div_1_r | done]. }
  destruct s as [|p|p]; simpl.
  - eexists. split; [f_equal; lia | done].
  - eexists. split; [done|]. by apply (shifted_iter p M 0).
  - eexists. split; [f_equal; lia | done].
Qed.

Lemma round_nearest_even_bounds (R : shr_record) :
  shr_m R ≤ round_nearest_even (shr_m R) (loc_of_shr_record R)
  ∧ (round_nearest_even (shr_m R) (loc_of_shr_record R) ≤ shr_m R + 1)
  ∧ (shr_r R || shr_s R = false →
     round_nearest_even (shr_m R) (loc_of_shr_record R) = shr_m R).
Proof.
  destruct R as [m [] []]; simpl; repeat split; try lia; try done;
    destruct (Z.even m); lia.
Qed.

Lemma digits2_pos_bounds (p : positive) :
  2 ^ (Z.pos (digits2_pos p) - 1) ≤ Z.pos p < 2 ^ Z.pos (digits2_pos p).
Proof.
  induction p as [p IH|p IH|]; cbn [digits2_pos]; [| |done].
  - rewrite Pos2Z.inj_succ.
    replace (Z.succ (Z.pos (digits2_pos p)) - 1) with (Z.pos (digits2_pos p) - 1 + 1) by lia.
    rewrite Z.pow_succ_r, Z.pow_add_r by lia. lia.
  - rewrite Pos2Z.inj_succ.
    replace (Z.succ (Z.pos (digits2_pos p)) - 1) with (Z.pos (digits2_pos p) - 1 + 1) by lia.
    rewrite Z.pow_succ_r, Z.pow_add_r by lia. lia.
Qed.

Lemma Zdigits2_bounds (M : Z) :
  0 < M → 2 ^ (Zdigits2 M - 1) ≤ M < 2 ^ Zdigits2 M.
Proof. destruct M as [|p|p]; [lia| |lia]. intros _. apply digits2_pos_bounds. Qed.

Lemma fexp_binary64 (x : Z) : fexp 53 1024 x = Z.max (x - 53) (-1074).
Proof. reflexivity. Qed.

(** Rounding a mantissa [m] at exponent [e] that represents at most the
    integer [N] to the binary64 grid: the shifted mantissa, also after
    rounding to nearest, still represents at most [N]. *)
Lemma shr_fexp_upper (m e N : Z) :
  0 ≤ m → e ≤ 0 → 0 ≤ N < 2 ^ 53 → m ≤ N * 2 ^ (- e) →
  ∃ R e', shr_fexp 53 1024 m e loc_Exact = (R, e')
    ∧ e' ≤ 0
    ∧ 0 ≤ shr_m R ≤ N * 2 ^ (- e')
    ∧ 0 ≤ round_nearest_even (shr_m R) (loc_of_shr_record R) ≤ N * 2 ^ (- e').
Proof.
  intros Hm He HN Hle. unfold shr_fexp. rewrite fexp_binary64.
  set (s := Z.max (Zdigits2 m + e - 53) (-1074) - e).
  destruct (shr_exact m e s Hm) as (R & Hshr & Hm' & Hdropped).
  exists R, (e + Z.max 0 s). split; [done|].
  assert (Hdigits : Zdigits2 m + e ≤ 53).
  { destruct (decide (m = 0)) as [->|Hne]; [simpl; lia|].
    destruct (Zdigits2_bounds m) as [Hlow _]; [lia|].
    assert (Hpow : 2 ^ (Zdigits2 m - 1) < 2 ^ (53 - e)).
    { eapply Z.le_lt_trans; [exact Hlow|]. eapply Z.le_lt_trans; [exact Hle|].
      replace (53 - e) with (53 + - e) by lia. rewrite Z.pow_add_r by lia.
      apply Z.mul_lt_mono_pos_r; [apply Z.pow_pos_nonneg; lia | lia]. }
    apply Z.pow_lt_mono_r_iff in Hpow; lia. }
  assert (He' : e + Z.max 0 s ≤ 0) by lia.
  split; [done|].
  set (e' := e + Z.max 0 s) in *.
  set (k := Z.max 0 s) in *.
  assert (Hk : 0 ≤ k) by lia.
  assert (Hpow : 0 < 2 ^ k) by (apply Z.pow_pos_nonneg; lia).
  assert (Hscale : N * 2 ^ (- e) = 2 ^ k * (N * 2 ^ (- e'))).
  { replace (- e) with (k + - e') by lia. rewrite Z.pow_add_r by lia. lia. }
  assert (Hfloor : 0 ≤ shr_m R ≤ N * 2 ^ (- e')).
  { rewrite Hm'. split; [apply Z.div_pos; lia|].
    apply Z.div_le_upper_bound; [done|]. by rewrite <- Hscale. }
  split; [done|].
  destruct (round_nearest_even_bounds R) as (Hlow & Hup & Hsame).
  split; [lia|].
  destruct (shr_r R || shr_s R) eqn:Hrs; [|rewrite Hsame by done; lia].
  assert (Hlt : shr_m R < N * 2 ^ (- e')); [|lia].
  rewrite Hm'. apply Z.div_lt_upper_bound; [done|]. rewrite <- Hscale.
  destruct (decide (m = N * 2 ^ (- e))) as [Heq|]; [|lia].
  exfalso. apply Hdropped; [done|].
  apply Z.mod_divide; [lia|]. exists (N * 2 ^ (- e')). lia.
Qed.

(** The binary64 rounding of a positive number that is at most the integer
    [N < 2^53] is a binary64 number that is at most [N]. *)
Lemma binary_round_aux_upper (sx : bool) (M E N : Z) :
  0 < M → E ≤ 0 → 0 ≤ N < 2 ^ 53 → M ≤ N * 2 ^ (- E) →
  binary_round_aux 53 1024 sx M E loc_Exact = S754_zero sx
  ∨ ∃ m e, binary_round_aux 53 1024 sx M E loc_Exact = S754_finite sx m e
           ∧ e ≤ 0 ∧ Z.pos m ≤ N * 2 ^ (- e).
Proof.
  intros HM HE HN Hle. unfold binary_round_aux.
  destruct (shr_fexp_upper M E N) as (R' & e' & -> & He' & _ & Hround); [lia|done..|].
  destruct (shr_fexp_upper
              (round_nearest_even (shr_m R') (loc_of_shr_record R')) e' N)
    as (R'' & e'' & -> & He'' & Hm'' & _); [lia..|].
  cbv beta iota zeta.
  destruct (shr_m R'') as [|m|m]; [by left| |lia].
  right. exists m, e''.
  destruct (e'' <=? 1024 - 53) eqn:Hrange; [split; [done|lia]|].
  apply Z.leb_gt in Hrange. lia.
Qed.

Lemma at_least_pos (N m e : Z) : 1 ≤ N → at_least N m e → 0 < m.
Proof.
  unfold at_least. intros HN Hle.
  assert (0 < 2 ^ Z.max 0 (- e)) by (apply Z.pow_pos_nonneg; lia).
  assert (0 < 2 ^ Z.max 0 e) by (apply Z.pow_pos_nonneg; lia).
  nia.
Qed.

Lemma at_least_mono (N m m' e : Z) : m ≤ m' → at_least N m e → at_least N m' e.
Proof.
  unfold at_least. intros Hm Hle.
  assert (0 < 2 ^ Z.max 0 e) by (apply Z.pow_pos_nonneg; lia).
  nia.
Qed.

Lemma shr_fexp_lower (m e N : Z) :
  0 ≤ m → 1 ≤ N < 2 ^ 53 → at_least N m e →
  ∃ R e', shr_fexp 53 1024 m e loc_Exact = (R, e')
    ∧ at_least N (shr_m R) e'
    ∧ at_least N (round_nearest_even (shr_m R) (loc_of_shr_record R)) e'.
Proof.
  intros Hm HN Hle. unfold shr_fexp. rewrite fexp_binary64.
  assert (Hpos := at_least_pos N m e (proj1 HN) Hle).
  set (s := Z.max (Zdigits2 m + e - 53) (-1074) - e).
  destruct (shr_exact m e s Hm) as (R & Hshr & Hm' & _).
  exists R, (e + Z.max 0 s). split; [done|].
  assert (Hfloor : at_least N (shr_m R) (e + Z.max 0 s)).
  { destruct (decide (s ≤ 0)) as [Hs|Hs].
    { rewrite Hm'. rewrite Z.max_l by lia. rewrite Z.pow_0_r, Z.div_1_r.
      by replace (e + 0) with e by lia. }
    rewrite Z.max_r in * by lia.
    assert (Hpow : 0 < 2 ^ s) by (apply Z.pow_pos_nonneg; lia).
    destruct (decide (e + s ≤ 0)) as [He'|He'].
    - unfold at_least in *.
      rewrite (Z.max_r 0 (- (e + s))), (Z.max_l 0 (e + s)) by lia.
      rewrite (Z.max_r 0 (- e)), (Z.max_l 0 e) in Hle by lia.
      rewrite Z.pow_0_r, Z.mul_1_r in *. rewrite Hm'.
      apply Z.div_le_lower_bound; [done|].
      replace (- e) with (s + - (e + s)) in Hle by lia.
      rewrite Z.pow_add_r in Hle by lia. lia.
    - assert (Hs' : s = Zdigits2 m - 53) by lia.
      destruct (Zdigits2_bounds m Hpos) as [Hlow _].
      assert (Hbig : 2 ^ 52 ≤ shr_m R).
      { rewrite Hm'. apply Z.div_le_lower_bound; [done|].
        rewrite <- Z.pow_add_r by lia.
        by replace (s + 52) with (Zdigits2 m - 1) by lia. }
      unfold at_least.
      rewrite (Z.max_l 0 (- (e + s))), (Z.max_r 0 (e + s)) by lia.
      assert (Htwo : 2 ^ 1 ≤ 2 ^ (e + s)) by (apply Z.pow_le_mono_r; lia).
      change (2 ^ 53) with (2 ^ 52 * 2 ^ 1) in HN.
      rewrite Z.pow_0_r. nia. }
  split; [done|].
  eapply at_least_mono; [|exact Hfloor].
  apply round_nearest_even_bounds.
Qed.

(** The binary64 rounding of a number that is at least the integer
    [N], [1 <= N < 2^53], is at least [N], unless it overflows. *)
Lemma binary_round_aux_lower (sx : bool) (M E N : Z) :
  0 < M → 1 ≤ N < 2 ^ 53 → at_least N M E →
  binary_round_aux 53 1024 sx M E loc_Exact = S754_infinity sx
  ∨ ∃ m e, binary_round_aux 53 1024 sx M E loc_Exact = S754_finite sx m e
           ∧ at_least N (Z.pos m) e.
Proof.
  intros HM HN Hle. unfold binary_round_aux.
  destruct (shr_fexp_lower M E N) as (R' & e' & -> & _ & Hround); [lia|done..|].
  assert (Hpos := at_least_pos N _ _ (proj1 HN) Hround).
  destruct (shr_fexp_lower
              (round_nearest_even (shr_m R') (loc_of_shr_record R')) e' N)
    as (R'' & e'' & -> & Hm'' & _); [lia|done..|].
  cbv beta iota zeta.
  assert (Hpos'' := at_least_pos N _ _ (proj1 HN) Hm'').
  destruct (shr_m R'') as [|m|m]; [lia| |lia].
  destruct (e'' <=? 1024 - 53); [|by left].
  right. by exists m, e''.
Qed.

Lemma iter_xO_value (p d : positive) :
  Z.pos (Pos.iter xO p d) = Z.pos p * 2 ^ Z.pos d.
Proof.
  induction d as [|d IH] using Pos.peano_ind; [simpl; lia|].
  rewrite Pos.iter_succ, Pos2Z.inj_succ, Z.pow_succ_r by lia.
  rewrite Pos2Z.inj_xO, IH. lia.
Qed.

Lemma at_least_nonpos (N m e : Z) : e ≤ 0 → at_least N m e ↔ N * 2 ^ (- e) ≤ m.
Proof.
  intros He. unfold at_least.
  rewrite (Z.max_r 0 (- e)), (Z.max_l 0 e) by lia.
  by rewrite Z.pow_0_r, Z.mul_1_r.
Qed.

(** Below [2^53] the conversion of an [int] to a float is exact. *)
Lemma float_of_int_exact (n : Z) :
  0 < n < 2 ^ 53 →
  ∃ m e, Py.float_of_int n = S754_finite false m e
         ∧ e ≤ 0 ∧ Z.pos m = n * 2 ^ (- e).
Proof.
  intros Hn. destruct n as [|p|p]; [lia| |lia].
  unfold Py.float_of_int, binary_normalize, binary_round.
  destruct (shl_align p 0 (fexp 53 1024 (Z.pos (digits2_pos p) + 0)))
    as [mz ez] eqn:Halign.
  assert (Hz : ez ≤ 0 ∧ Z.pos mz = Z.pos p * 2 ^ (- ez)).
  { unfold shl_align in Halign.
    destruct (fexp 53 1024 (Z.pos (digits2_pos p) + 0) - 0) as [|d|d] eqn:Hd;
      inversion Halign; subst; [split; [lia | simpl; lia]..|].
    split; [lia|]. rewrite iter_xO_value. f_equal. f_equal. lia. }
  destruct Hz as [Hez Hmz].
  destruct (binary_round_aux_upper false (Z.pos mz) ez (Z.pos p))
    as [Hzero|(m & e & Heq & He & Hup)]; [lia..| |];
    destruct (binary_round_aux_lower false (Z.pos mz) ez (Z.pos p))
      as [Hinf|(m' & e' & Heq' & Hlow)]; try lia;
    try (apply at_least_nonpos; lia); try congruence.
  exists m, e. split; [done|]. split; [done|].
  assert (m' = m ∧ e' = e) as [-> ->] by (split; congruence).
  apply at_least_nonpos in Hlow; lia.
Qed.

(** [n * f] for a float [f] with [0 < f <= 1]: zero or a positive float of
    value at most [n]. *)
Lemma float_mul_int_upper (n : Z) (m : positive) (e : Z) :
  0 < n < 2 ^ 53 → e ≤ 0 → Z.pos m ≤ 2 ^ (- e) →
  Py.float_mul (Py.float_of_int n) (S754_finite false m e) = S754_zero false
  ∨ ∃ m' e', Py.float_mul (Py.float_of_int n) (S754_finite false m e)
             = S754_finite false m' e'
             ∧ e' ≤ 0 ∧ Z.pos m' ≤ n * 2 ^ (- e').
Proof.
  intros Hn He Hm.
  destruct (float_of_int_exact n Hn) as (mn & en & -> & Hen & Hmn).
  unfold Py.float_mul, SFmul. cbn [xorb].
  apply binary_round_aux_upper; [lia|lia|lia|].
  rewrite Pos2Z.inj_mul, Z.opp_add_distr, Z.pow_add_r, Hmn by lia.
  assert (0 < 2 ^ (- en)) by (apply Z.pow_pos_nonneg; lia).
  nia.
Qed.

(** [n * f] for a float [f >= 1]: an infinity, or a float of value at least
    [n]. *)
Lemma float_mul_int_lower (n : Z) (m : positive) (e : Z) :
  0 < n < 2 ^ 53 → at_least 1 (Z.pos m) e →
  Py.float_mul (Py.float_of_int n) (S754_finite false m e) = S754_infinity false
  ∨ ∃ m' e', Py.float_mul (Py.float_of_int n) (S754_finite false m e)
             = S754_finite false m' e'
             ∧ at_least n (Z.pos m') e'.
Proof.
  intros Hn Hm.
  destruct (float_of_int_exact n Hn) as (mn & en & -> & Hen & Hmn).
  unfold Py.float_mul, SFmul. cbn [xorb].
  apply binary_round_aux_lower; [lia|lia|].
  unfold at_least in *. rewrite Pos2Z.inj_mul, Hmn.
  assert (Ha : 0 < 2 ^ (- en)) by (apply Z.pow_pos_nonneg; lia).
  destruct (decide (e ≤ 0)) as [He|He].
  - rewrite (Z.max_r 0 (- e)), (Z.max_l 0 e) in Hm by lia.
    rewrite (Z.max_r 0 (- (en + e))), (Z.max_l 0 (en + e)) by lia.
    rewrite Z.opp_add_distr, Z.pow_add_r by lia.
    rewrite Z.pow_0_r in *. nia.
  - destruct (decide (0 ≤ en + e)) as [Hsum|Hsum].
    + rewrite (Z.max_l 0 (- (en + e))), (Z.max_r 0 (en + e)) by lia.
      assert (Hc : 0 < 2 ^ (en + e)) by (apply Z.pow_pos_nonneg; lia).
      rewrite Z.pow_0_r.
      assert (Hone : 1 ≤ 2 ^ (- en) * (Z.pos m * 2 ^ (en + e))) by nia.
      rewrite <- !Z.mul_assoc. apply Z.mul_le_mono_nonneg_l; lia.
    + rewrite (Z.max_r 0 (- (en + e))), (Z.max_l 0 (en + e)) by lia.
      rewrite Z.pow_0_r.
      assert (2 ^ (- (en + e)) ≤ 2 ^ (- en)) by (apply Z.pow_le_mono_r; lia).
      nia.
Qed.

Lemma scaled_den (e : Z) :
  Z.pos (Z.to_pos (2 ^ Z.max 0 (- e))) = 2 ^ Z.max 0 (- e).
Proof. apply Z2Pos.id, Z.pow_pos_nonneg; lia. Qed.

Lemma shiftl_scaled (m e : Z) :
  Z.shiftl m e = (m * 2 ^ Z.max 0 e) / 2 ^ Z.max 0 (- e).
Proof.
  destruct (decide (0 ≤ e)) as [He|He].
  - rewrite Z.shiftl_mul_pow2, (Z.max_r 0 e), (Z.max_l 0 (- e)) by lia.
    by rewrite Z.pow_0_r, Z.div_1_r.
  - rewrite Z.shiftl_div_pow2, (Z.max_l 0 e), (Z.max_r 0 (- e)) by lia.
    by rewrite Z.pow_0_r, Z.mul_1_r.
Qed.

Lemma scaled_sign (m e : Z) : (0 <= Py.scaled m e)%Q ↔ 0 ≤ m.
Proof.
  unfold Py.scaled, Qle. cbn [Qnum Qden].
  assert (0 < 2 ^ Z.max 0 e) by (apply Z.pow_pos_nonneg; lia).
  split; nia.
Qed.

Lemma scaled_ge (N m e : Z) : (inject_Z N <= Py.scaled m e)%Q ↔ at_least N m e.
Proof.
  unfold Py.scaled, Qle, at_least. cbn [Qnum Qden inject_Z].
  rewrite scaled_den. lia.
Qed.

Lemma scaled_le (N m e : Z) :
  (Py.scaled m e <= inject_Z N)%Q ↔ m * 2 ^ Z.max 0 e ≤ N * 2 ^ Z.max 0 (- e).
Proof.
  unfold Py.scaled, Qle. cbn [Qnum Qden inject_Z].
  rewrite scaled_den. lia.
Qed.

Lemma trunc_nonneg (q : Q) : (0 <= q)%Q → Py.trunc q = Qfloor q.
Proof. intros Hq. unfold Py.trunc. apply Qle_bool_iff in Hq. by rewrite Hq. Qed.

(** On a finite number, [int] never raises: it truncates the value. *)
Lemma int_trunc (x : number) (q : Q) :
  Py.value x = Some q → Py.int x = Ok (Py.trunc q).
Proof.
  destruct x as [q'|[s|s| |s m e]]; cbn [Py.value Py.int]; intros [= <-]; try done.
  f_equal. rewrite shiftl_scaled.
  assert (Hfloor : ∀ k, Qfloor (Py.scaled k e) = (k * 2 ^ Z.max 0 e) / 2 ^ Z.max 0 (- e)).
  { intros k. unfold Py.scaled, Qfloor. by rewrite scaled_den. }
  destruct s; unfold cond_Zopp.
  - change (- Z.pos m) with (Z.neg m). unfold Py.trunc.
    destruct (Qle_bool 0 (Py.scaled (Z.neg m) e)) eqn:Hsign.
    { apply Qle_bool_iff, scaled_sign in Hsign. lia. }
    unfold Qceiling.
    assert (- Py.scaled (Z.neg m) e = Py.scaled (Z.pos m) e)%Q as ->.
    { unfold Py.scaled, Qopp. cbn [Qnum Qden]. f_equal. lia. }
    by rewrite Hfloor.
  - rewrite trunc_nonneg by (apply scaled_sign; lia). by rewrite Hfloor.
Qed.

Lemma float_unit (f : spec_float) (q : Q) :
  Py.value (Float f) = Some q → (0 < q)%Q → (q <= 1)%Q →
  ∃ m e, f = S754_finite false m e ∧ e ≤ 0 ∧ Z.pos m ≤ 2 ^ (- e).
Proof.
  destruct f as [s|s| |s m e]; simpl; intros [= <-] Hpos Hle; try done.
  destruct s; simpl in *.
  { apply Qlt_le_weak, scaled_sign in Hpos. lia. }
  exists m, e. split; [done|].
  change 1%Q with (inject_Z 1) in Hle. apply scaled_le in Hle.
  destruct (decide (e ≤ 0)) as [He|He].
  - rewrite (Z.max_r 0 (- e)), (Z.max_l 0 e) in Hle by lia.
    rewrite Z.pow_0_r in Hle. lia.
  - rewrite (Z.max_l 0 (- e)), (Z.max_r 0 e) in Hle by lia.
    assert (2 ^ 1 ≤ 2 ^ e) by (apply Z.pow_le_mono_r; lia).
    rewrite Z.pow_0_r in Hle. nia.
Qed.

Lemma float_at_least_one (f : spec_float) (q : Q) :
  Py.value (Float f) = Some q → (1 <= q)%Q →
  ∃ m e, f = S754_finite false m e ∧ at_least 1 (Z.pos m) e.
Proof.
  destruct f as [s|s| |s m e]; simpl; intros [= <-] Hle; try done.
  assert (Hpos : (0 <= Py.scaled (cond_Zopp s (Z.pos m)) e)%Q).
  { eapply Qle_trans; [|exact Hle]. done. }
  apply scaled_sign in Hpos.
  destruct s; simpl in *; [lia|].
  exists m, e. split; [done|]. by apply scaled_ge.
Qed.

(** ** The corpus ranker: sorting and truncation *)

Lemma Qlt_bool_true x y : Qlt_bool x y = true → (x < y)%Q.
Proof.
  unfold Qlt_bool. intros Hlt. apply Qnot_le_lt. intros Hle.
  apply Qle_bool_iff in Hle. rewrite Hle in Hlt. discriminate.
Qed.

Lemma Qlt_bool_false x y : Qlt_bool x y = false → (y <= x)%Q.
Proof.
  unfold Qlt_bool. intros Hlt. apply Qle_bool_iff.
  destruct (Qle_bool y x); [done | discriminate].
Qed.

Section SortDesc.

Context {A : Type} (key : A → Q).

(** [a] comes before [b] in descending key order. *)
Let before (a b : A) : Prop := (key b <= key a)%Q.

Lemma insert_desc_Permutation x l : insert_desc key x l ≡ₚ x :: l.
Proof.
  induction l as [|y rest IH]; simpl; [done|].
  destruct (Qlt_bool (key x) (key y)); [|done].
  rewrite IH. apply perm_swap.
Qed.

Lemma sort_desc_Permutation l : sort_desc key l ≡ₚ l.
Proof.
  induction l as [|x rest IH]; simpl; [done|].
  rewrite insert_desc_Permutation. by rewrite IH.
Qed.

Lemma sort_desc_length l : length (sort_desc key l) = length l.
Proof. by rewrite sort_desc_Permutation. Qed.

Lemma insert_desc_sorted x l :
  StronglySorted before l → StronglySorted before (insert_desc key x l).
Proof.
  induction l as [|y rest IH]; intros Hsorted; simpl.
  - repeat constructor.
  - apply StronglySorted_inv in Hsorted as [Hrest Hall].
    destruct (Qlt_bool (key x) (key y)) eqn:Hcmp.
    + constructor; [by apply IH|].
      rewrite insert_desc_Permutation. constructor; [|done].
      apply Qlt_le_weak. by apply Qlt_bool_true.
    + apply Qlt_bool_false in Hcmp.
      constructor; [by constructor|].
      constructor; [done|].
      eapply Forall_impl; [exact Hall|].
      intros z Hz. unfold before in *. by eapply Qle_trans.
Qed.

Lemma sort_desc_sorted l : StronglySorted before (sort_desc key l).
Proof.
  induction l as [|x rest IH]; simpl; [constructor|].
  by apply insert_desc_sorted.
Qed.

(** The sort is stable: elements whose keys are equal keep their order. *)
Lemma insert_desc_filter (P : A → Prop) `{∀ a, Decision (P a)} x l :
  (∀ a b, P a → P b → (key a == key b)%Q) →
  base.filter P (insert_desc key x l) = base.filter P (x :: l).
Proof.
  intros Hsame. induction l as [|y rest IH]; simpl; [done|].
  destruct (Qlt_bool (key x) (key y)) eqn:Hcmp; [|done].
  rewrite !filter_cons, IH, filter_cons.
  destruct (decide (P y)) as [Hy|Hy]; [|done].
  destruct (decide (P x)) as [Hx|Hx]; [|done].
  apply Qlt_bool_true in Hcmp. rewrite (Hsame x y Hx Hy) in Hcmp.
  by apply Qlt_irrefl in Hcmp.
Qed.

Lemma sort_desc_stable (P : A → Prop) `{∀ a, Decision (P a)} l :
  (∀ a b, P a → P b → (key a == key b)%Q) →
  base.filter P (sort_desc key l) = base.filter P l.
Proof.
  intros Hsame. induction l as [|x rest IH]; simpl; [done|].
  rewrite insert_desc_filter by done. by rewrite !filter_cons, IH.
Qed.

End SortDesc.

Lemma StronglySorted_take {A} (R : relation A) (k : nat) (l : list A) :
  StronglySorted R l → StronglySorted R (take k l).
Proof.
  intros Hsorted. rewrite <- (take_drop k l) in Hsorted.
  by apply StronglySorted_app_1_l in Hsorted.
Qed.

Lemma slice_to_length {A} (l : list A) (k : Z) :
  0 ≤ k ≤ Z.of_nat (length l) → Z.of_nat (length (Py.slice_to l k)) = k.
Proof.
  intros [Hlo Hhi]. unfold Py.slice_to.
  destruct (0 <=? k) eqn:Hk; [|apply Z.leb_gt in Hk; lia].
  rewrite length_take. lia.
Qed.

(** For a ratio in (0, 1], [len(corpus) * ratio] is a finite number between
    [0] and [len(corpus)], and [int] of it is its floor. *)
Lemma summary_length_unit (n : nat) (ratio : number) (q : Q) :
  Py.value ratio = Some q → (0 < q)%Q → (q <= 1)%Q → length_fits n ratio →
  ∃ p, Py.value (Py.mul_int (Z.of_nat n) ratio) = Some p
       ∧ (0 <= p)%Q ∧ (p <= inject_Z (Z.of_nat n))%Q
       ∧ summary_length n ratio = Ok (Qfloor p).
Proof.
  intros Hvalue Hpos Hle Hfits.
  assert (Hn : (0 <= inject_Z (Z.of_nat n))%Q).
  { change 0%Q with (inject_Z 0). rewrite <- Zle_Qle. lia. }
  assert (Hfinite : ∀ p, Py.value (Py.mul_int (Z.of_nat n) ratio) = Some p →
            (0 <= p)%Q → (p <= inject_Z (Z.of_nat n))%Q →
            ∃ p, Py.value (Py.mul_int (Z.of_nat n) ratio) = Some p
                 ∧ (0 <= p)%Q ∧ (p <= inject_Z (Z.of_nat n))%Q
                 ∧ summary_length n ratio = Ok (Qfloor p)).
  { intros p Hp Hlow Hup. exists p. repeat split; try done.
    unfold summary_length. rewrite (int_trunc _ p Hp). by rewrite trunc_nonneg. }
  destruct ratio as [r|f].
  - injection Hvalue as ->. apply (Hfinite (inject_Z (Z.of_nat n) * q)%Q); [done| |].
    + apply Qmult_le_0_compat; [done|]. by apply Qlt_le_weak.
    + rewrite <- (Qmult_1_r (inject_Z (Z.of_nat n))) at 2.
      rewrite (Qmult_comm _ q), (Qmult_comm _ 1).
      by apply Qmult_le_compat_r.
  - destruct (float_unit f q Hvalue Hpos Hle) as (m & e & -> & He & Hm).
    simpl in Hfits. cbn [Py.mul_int] in *.
    destruct (decide (n = 0%nat)) as [->|Hne].
    { apply (Hfinite 0%Q); done. }
    destruct (float_mul_int_upper (Z.of_nat n) m e) as [Hzero|(m' & e' & Heq & He' & Hm')];
      [lia|done..| |].
    + rewrite Hzero in *. apply (Hfinite 0%Q); done.
    + rewrite Heq in *. apply (Hfinite (Py.scaled (Z.pos m') e')); [done| |].
      * apply scaled_sign. lia.
      * apply scaled_le. rewrite (Z.max_r 0 (- e')), (Z.max_l 0 e') by lia.
        rewrite Z.pow_0_r. lia.
Qed.

(** Ten documents and the float 0.2: two documents. *)
Example summary_length_ten_fifth : summary_length 10 Sample.fifth = Ok 2.
Proof. reflexivity. Qed.

(** The sample floats are the values Python reads from the decimals. *)
Example sample_floats :
  Float (Py.float_div (Py.float_of_int 1) (Py.float_of_int 2)) = Sample.half
  ∧ Float (Py.float_div (Py.float_of_int 1) (Py.float_of_int 5)) = Sample.fifth
  ∧ Float (Py.float_div (Py.float_of_int 6) (Py.float_of_int 10)) = Sample.three_fifths
  ∧ Float (Py.float_div (Py.float_of_int (-6)) (Py.float_of_int 10))
    = Sample.minus_three_fifths
  ∧ Float (Py.float_div (Py.float_of_int 58) (Py.float_of_int 100))
    = Sample.fifty_eight_hundredths.
Proof. repeat split; vm_compute; reflexivity. Qed.

(** C5 as stated fails for float ratios: the number of documents is not the
    floor of [n * ratio].  Five documents and the float 0.6, whose value is
    just below 3/5: the binary64 product rounds up to 3.0 and three
    documents are returned, while the floor of 5 times the value of the
    ratio is 2.  Fifty documents and the float 0.58: the binary64 product is
    just below 29 and 28 documents are returned, while the floor of
    50 * 58/100 is 29.  In both cases all nodes survive pruning. *)
Lemma summarize_corpus_length_not_exact_floor :
  let q := (5404319552844595 # 9007199254740992)%Q in
  (length Sample.corpus5 = 5%nat
   ∧ length (Graph.nodes (Sample.remove_unreachable_nodes Sample.graph5)) = 5%nat
   ∧ Py.value Sample.three_fifths = Some q
   ∧ (0 < q)%Q ∧ (q <= 1)%Q
   ∧ length <$> @summarize_corpus Sample.collaborators Sample.corpus5 Sample.three_fifths
     = Ok 3%nat
   ∧ Qfloor (inject_Z 5 * q) = 2)
  ∧ (length Sample.corpus50 = 50%nat
     ∧ Sample.fifty_eight_hundredths
       = Float (Py.float_div (Py.float_of_int 58) (Py.float_of_int 100))
     ∧ length <$> @summarize_corpus Sample.collaborators Sample.corpus50
                    Sample.fifty_eight_hundredths
       = Ok 28%nat
     ∧ Qfloor (inject_Z 50 * (58 # 100)) = 29).
Proof.
  intros q. split.
  - repeat split; try (vm_compute; reflexivity). vm_compute. discriminate.
  - repeat split; vm_compute; reflexivity.
Qed.

(** C5, amended: for a corpus of [n] documents whose pruned graph keeps at
    least 3 nodes and a finite ratio in (0, 1], [summarize_corpus] returns
    exactly [int(len(corpus) * ratio)] documents, in descending order of
    importance score: they are the leading part of the whole corpus ranked
    by score, highest first.  The product [p] is taken in the arithmetic of
    the ratio: exactly for an exact ratio, where the count is the floor of
    [n * ratio]; in binary64 for a float ratio (and [n < 2^53]), where the
    count is the floor of the rounded product.  In both cases [p] lies
    between [0] and [n]. *)
Theorem summarize_corpus_length_and_order `{Collaborators}
    (corpus : list bow) (ratio : number) (q : Q) (graph : Graph.t) :
  Py.value ratio = Some q → (0 < q)%Q → (q <= 1)%Q →
  length_fits (length corpus) ratio →
  _set_graph_edge_weights (_build_graph (_build_hasheable_corpus corpus)) = Ok graph →
  (3 ≤ length (Graph.nodes (_remove_unreachable_nodes graph)))%nat →
  let scores := _pagerank (_remove_unreachable_nodes graph) in
  ∃ (docs ranked : list bow) (p : Q),
    summarize_corpus corpus ratio = Ok docs
    ∧ Py.value (Py.mul_int (Z.of_nat (length corpus)) ratio) = Some p
    ∧ (∀ r, ratio = Exact r → p = (inject_Z (Z.of_nat (length corpus)) * r)%Q)
    ∧ (0 <= p)%Q ∧ (p <= inject_Z (Z.of_nat (length corpus)))%Q
    ∧ Z.of_nat (length docs) = Qfloor p
    ∧ StronglySorted (score_ge scores) docs
    ∧ ranked ≡ₚ corpus
    ∧ StronglySorted (score_ge scores) ranked
    ∧ docs = take (length docs) ranked.
Proof.
  intros Hvalue Hpos Hle Hfits Hgraph Hnodes scores.
  destruct (summary_length_unit (length corpus) ratio q Hvalue Hpos Hle Hfits)
    as (p & Hp & Hlow & Hup & Hint).
  assert (Hrange : 0 ≤ Qfloor p ≤ Z.of_nat (length corpus)).
  { split.
    - apply Qfloor_resp_le in Hlow. exact Hlow.
    - apply Qfloor_resp_le in Hup. by rewrite Qfloor_Z in Hup. }
  set (ranked := sort_desc (score_of scores) (_build_hasheable_corpus corpus)).
  assert (Hlen : length ranked = length corpus).
  { unfold ranked. rewrite sort_desc_length.
    unfold _build_hasheable_corpus. by rewrite length_map. }
  assert (Hsorted : StronglySorted (score_ge scores) ranked)
    by apply sort_desc_sorted.
  exists (Py.slice_to ranked (Qfloor p)), ranked, p.
  assert (Hsize : Z.of_nat (length (Py.slice_to ranked (Qfloor p))) = Qfloor p).
  { apply slice_to_length. rewrite Hlen. done. }
  split.
  - unfold summarize_corpus.
    destruct (length corpus =? 0)%nat eqn:Hempty.
    + apply Nat.eqb_eq in Hempty.
      assert (Qfloor p = 0) as -> by lia.
      destruct ranked; reflexivity.
    + rewrite Hgraph. simpl.
      destruct (length (Graph.nodes (_remove_unreachable_nodes graph)) <? 3)%nat eqn:Hfew.
      * apply Nat.ltb_lt in Hfew. lia.
      * rewrite Hint. simpl. unfold py_list. by rewrite map_id.
  - split; [done|]. split.
    { intros r ->. by injection Hp as <-. }
    split; [done|]. split; [done|]. split; [done|].
    assert (Hslice : Py.slice_to ranked (Qfloor p) = take (Z.to_nat (Qfloor p)) ranked).
    { unfold Py.slice_to.
      destruct (0 <=? Qfloor p) eqn:Hk; [done|].
      apply Z.leb_gt in Hk. lia. }
    split; [rewrite Hslice; by apply StronglySorted_take|].
    split.
    { unfold ranked. rewrite sort_desc_Permutation.
      unfold _build_hasheable_corpus, py_tuple. by rewrite map_id. }
    split; [done|].
    rewrite Hslice at 1. f_equal.
    apply Nat2Z.inj. rewrite Z2Nat.id by lia. symmetry. exact Hsize.
Qed.

(** Three documents and the float 0.5: one document is returned. *)
Lemma summarize_corpus_length_and_order_witness :
  ∃ docs : list bow,
    @summarize_corpus Sample.collaborators Sample.corpus3 Sample.half = Ok docs
    ∧ length docs = 1%nat.
Proof.
  destruct (@summarize_corpus_length_and_order Sample.collaborators
              Sample.corpus3 Sample.half (4503599627370496 # 9007199254740992)
              Sample.graph3)
    as (docs & ranked & p & Hrun & Hp & _ & _ & _ & Hlen & _).
  - vm_compute. reflexivity.
  - reflexivity.
  - discriminate.
  - vm_compute. reflexivity.
  - vm_compute. reflexivity.
  - vm_compute. lia.
  - exists docs. split; [exact Hrun|].
    injection Hp as <-.
    apply Nat2Z.inj. etrans; [exact Hlen | reflexivity].
Defined.

(** ** The graph weighter *)

Local Arguments Graph.has_edge : simpl never.
Local Arguments Graph.add_edge : simpl never.
Local Arguments Graph.del_edge : simpl never.

Lemma has_edge_false g u v :
  graph_wf g → Graph.has_edge g (u, v) = false →
  Graph.edge_properties g !! (u, v) = None ∧ Graph.edge_properties g !! (v, u) = None.
Proof.
  intros Hwf Hedge. unfold Graph.has_edge in Hedge.
  rewrite <- (wf_sym g Hwf u v) in *.
  rewrite andb_diag in Hedge. apply bool_decide_eq_false in Hedge.
  split; by apply eq_None_not_Some.
Qed.

Lemma has_edge_true g u v :
  Graph.has_edge g (u, v) = true → is_Some (Graph.edge_properties g !! (u, v)).
Proof.
  unfold Graph.has_edge. intros Hedge.
  apply andb_prop in Hedge as [Hedge _]. by apply bool_decide_eq_true in Hedge.
Qed.

Lemma add_edge_lookup g u v wt e :
  Graph.edge_properties (Graph.add_edge g (u, v) wt) !! e
  = if decide (e = (u, v) ∨ e = (v, u)) then Some wt
    else Graph.edge_properties g !! e.
Proof.
  unfold Graph.add_edge. simpl.
  destruct (decide (e = (u, v) ∨ e = (v, u))) as [[-> | ->] | Hne].
  - destruct (decide ((v, u) = (u, v))) as [Heq|Hneq].
    + rewrite Heq. by rewrite lookup_insert_eq.
    + rewrite lookup_insert_ne by done. by rewrite lookup_insert_eq.
  - by rewrite lookup_insert_eq.
  - rewrite !lookup_insert_ne; [done | naive_solver..].
Qed.

Lemma threshold_nonneg w : (WEIGHT_THRESHOLD <= w)%Q → (0 <= w)%Q.
Proof. intros Hw. eapply Qle_trans; [|exact Hw]. discriminate. Qed.

Lemma first_weight_app cands1 cands2 u v :
  first_weight (cands1 ++ cands2) u v
  = keep_or (first_weight cands1 u v) (first_weight cands2 u v).
Proof.
  induction cands1 as [|[[a b] w] rest IH]; simpl; [done|].
  by destruct (decide ((a, b) = (u, v) ∨ (a, b) = (v, u))).
Qed.

Lemma qualifying_cons documents i entry doc_bow :
  qualifying documents i (entry :: doc_bow)
  = qualifying documents i [entry] ++ qualifying documents i doc_bow.
Proof.
  unfold qualifying. simpl.
  destruct ((i =? entry.1)%nat || Qlt_bool entry.2 WEIGHT_THRESHOLD); [done|].
  destruct (documents !! i); [|done].
  by destruct (documents !! entry.1).
Qed.

Lemma weighted_from_refl g : graph_wf g → weighted_from g g [].
Proof.
  intros Hwf. split; [done | done | | by left].
  intros u v. simpl. by destruct (Graph.edge_properties g !! (u, v)).
Qed.

Lemma weighted_from_trans g g1 g2 cands1 cands2 :
  weighted_from g g1 cands1 → weighted_from g1 g2 cands2 →
  weighted_from g g2 (cands1 ++ cands2).
Proof.
  intros [Hwf1 Hn1 He1 Ht1] [Hwf2 Hn2 He2 Ht2]. split.
  - done.
  - by rewrite Hn2.
  - intros u v. rewrite He2, He1, first_weight_app.
    by destruct (Graph.edge_properties g !! (u, v)).
  - intros e w Hew. destruct (Ht2 e w Hew) as [Hold|Hnew]; [|by right].
    by apply Ht1.
Qed.

Lemma weigh_entry_weighted documents i g entry g' :
  graph_wf g → documents = Graph.nodes g →
  weigh_entry documents i g entry = Ok g' →
  weighted_from g g' (qualifying documents i [entry]).
Proof.
  intros Hwf Hdocs Hrun. destruct entry as [j weight].
  unfold weigh_entry in Hrun. unfold qualifying. simpl in *.
  destruct ((i =? j)%nat || Qlt_bool weight WEIGHT_THRESHOLD) eqn:Hguard.
  { injection Hrun as <-. by apply weighted_from_refl. }
  apply orb_false_elim in Hguard as [Hij Hweight].
  apply Nat.eqb_neq in Hij. apply Qlt_bool_false in Hweight.
  unfold item in Hrun.
  destruct (documents !! i) as [di|] eqn:Hdi; [|done].
  destruct (documents !! j) as [dj|] eqn:Hdj; [|done].
  simpl in Hrun.
  assert (Hne : di ≠ dj).
  { intros ->. apply Hij. eapply NoDup_lookup; [|exact Hdi|exact Hdj].
    rewrite Hdocs. by apply wf_nodup. }
  destruct (Graph.has_edge g (di, dj)) eqn:Hedge; simpl in Hrun;
    injection Hrun as <-.
  - (* the edge exists: the entry is discarded *)
    apply has_edge_true in Hedge as [w0 Hw0].
    split; [done | done | | by left].
    intros u v. simpl.
    destruct (Graph.edge_properties g !! (u, v)) as [w|] eqn:Huv; [done|].
    simpl. destruct (decide ((di, dj) = (u, v) ∨ (di, dj) = (v, u)))
      as [[Heq|Heq]|_]; [| |done]; injection Heq as <- <-.
    + congruence.
    + rewrite (wf_sym g Hwf) in Huv. congruence.
  - (* a new edge *)
    destruct (has_edge_false g di dj Hwf Hedge) as [Hnone1 Hnone2].
    assert (Hin : di ∈ Graph.nodes g ∧ dj ∈ Graph.nodes g).
    { rewrite <- Hdocs. split; eapply list_elem_of_lookup_2; eauto. }
    split.
    + split.
      * apply (wf_nodup g Hwf).
      * intros u v. rewrite !add_edge_lookup.
        destruct (decide ((u, v) = (di, dj) ∨ (u, v) = (dj, di))) as [Huv|Huv];
          destruct (decide ((v, u) = (di, dj) ∨ (v, u) = (dj, di))) as [Hvu|Hvu];
          [done | exfalso; apply Hvu; naive_solver
          | exfalso; apply Huv; naive_solver | apply (wf_sym g Hwf)].
      * intros u. rewrite add_edge_lookup.
        destruct (decide ((u, u) = (di, dj) ∨ (u, u) = (dj, di))) as [Huu|_].
        -- exfalso. apply Hne. naive_solver.
        -- apply (wf_irrefl g Hwf).
      * intros u v. rewrite add_edge_lookup.
        destruct (decide ((u, v) = (di, dj) ∨ (u, v) = (dj, di)))
          as [[Heq|Heq]|_].
        -- injection Heq as -> ->. naive_solver.
        -- injection Heq as -> ->. naive_solver.
        -- apply (wf_closed g Hwf).
      * intros e w. rewrite add_edge_lookup.
        destruct (decide (e = (di, dj) ∨ e = (dj, di))) as [_|_].
        -- intros [= <-]. by apply threshold_nonneg.
        -- apply (wf_nonneg g Hwf).
    + done.
    + intros u v. rewrite add_edge_lookup. simpl.
      destruct (decide ((u, v) = (di, dj) ∨ (u, v) = (dj, di))) as [Huv|Huv].
      * assert (Graph.edge_properties g !! (u, v) = None) as ->
          by (destruct Huv as [-> | ->]; done).
        simpl. destruct (decide ((di, dj) = (u, v) ∨ (di, dj) = (v, u))) as [_|Hno];
          [done|]. exfalso. apply Hno. naive_solver.
      * destruct (Graph.edge_properties g !! (u, v)); [done|]. simpl.
        destruct (decide ((di, dj) = (u, v) ∨ (di, dj) = (v, u))) as [Hyes|_];
          [|done]. exfalso. apply Huv. naive_solver.
    + intros e w. rewrite add_edge_lookup.
      destruct (decide (e = (di, dj) ∨ e = (dj, di))) as [_|_].
      * intros [= <-]. by right.
      * by left.
Qed.

Lemma weigh_row_weighted documents i doc_bow g g' :
  graph_wf g → documents = Graph.nodes g →
  weigh_row documents i doc_bow g = Ok g' →
  weighted_from g g' (qualifying documents i doc_bow).
Proof.
  revert g. induction doc_bow as [|entry rest IH]; intros g Hwf Hdocs Hrun.
  - injection Hrun as <-. by apply weighted_from_refl.
  - simpl in Hrun. unfold mbind, result_bind, Py.bind in Hrun.
    destruct (weigh_entry documents i g entry) as [g1|] eqn:Hentry; [|done].
    pose proof (weigh_entry_weighted _ _ _ _ _ Hwf Hdocs Hentry) as Hstep.
    rewrite qualifying_cons.
    eapply weighted_from_trans; [exact Hstep|].
    apply IH; [apply Hstep | by rewrite (wfrom_nodes _ _ _ Hstep) | done].
Qed.

Lemma weigh_rows_weighted documents i weights g g' :
  graph_wf g → documents = Graph.nodes g →
  weigh_rows documents i weights g = Ok g' →
  weighted_from g g' (candidates documents i weights).
Proof.
  revert i g. induction weights as [|doc_bow rest IH]; intros i g Hwf Hdocs Hrun.
  - injection Hrun as <-. by apply weighted_from_refl.
  - simpl in Hrun. unfold mbind, result_bind, Py.bind in Hrun.
    destruct (weigh_row documents i doc_bow g) as [g1|] eqn:Hrow; [|done].
    pose proof (weigh_row_weighted _ _ _ _ _ Hwf Hdocs Hrow) as Hstep.
    simpl. eapply weighted_from_trans; [exact Hstep|].
    apply IH; [apply Hstep | by rewrite (wfrom_nodes _ _ _ Hstep) | done].
Qed.

(** The loops raise nothing when the table has at most one row per document
    and every candidate index is a position of the document list. *)
Lemma weigh_entry_total documents i g (entry : nat * Q) :
  (i < length documents)%nat → (entry.1 < length documents)%nat →
  ∃ g', weigh_entry documents i g entry = Ok g'.
Proof.
  intros Hi Hj. destruct entry as [j weight]. simpl in Hj.
  unfold weigh_entry, item.
  destruct ((i =? j)%nat || Qlt_bool weight WEIGHT_THRESHOLD); [by eexists|].
  destruct (lookup_lt_is_Some_2 _ _ Hi) as [di ->].
  destruct (lookup_lt_is_Some_2 _ _ Hj) as [dj ->]. simpl.
  destruct (negb (Graph.has_edge g (di, dj))); by eexists.
Qed.

Lemma weigh_row_total documents i (doc_bow : list (nat * Q)) g :
  (i < length documents)%nat →
  Forall (λ entry : nat * Q, (entry.1 < length documents)%nat) doc_bow →
  ∃ g', weigh_row documents i doc_bow g = Ok g'.
Proof.
  intros Hi Hrow. revert g.
  induction Hrow as [|entry rest Hentry _ IH]; intros g; simpl; [by eexists|].
  destruct (weigh_entry_total documents i g entry Hi Hentry) as [g1 ->].
  apply IH.
Qed.

Lemma weigh_rows_total documents i (weights : weight_table) g :
  (i + length weights ≤ length documents)%nat →
  Forall (Forall (λ entry : nat * Q, (entry.1 < length documents)%nat)) weights →
  ∃ g', weigh_rows documents i weights g = Ok g'.
Proof.
  intros Hlen Hrows. revert i g Hlen.
  induction Hrows as [|doc_bow rest Hrow _ IH]; intros i g Hlen; simpl in *;
    [by eexists|].
  destruct (weigh_row_total documents i doc_bow g) as [g1 ->]; [lia | done |].
  apply IH. lia.
Qed.

Lemma weighting_pass_weighted `{Collaborators} g g' :
  graph_wf g → weighting_pass g = Ok g' →
  weighted_from g g'
    (candidates (Graph.nodes g) 0 (_bm25_weights (Graph.nodes g))).
Proof.
  intros Hwf Hrun. by apply weigh_rows_weighted.
Qed.

(** A freshly built graph is well formed and has no edge. *)
Lemma build_graph_wf sequence :
  graph_wf (_build_graph sequence)
  ∧ Graph.edge_properties (_build_graph sequence) = ∅.
Proof.
  unfold _build_graph.
  assert (Hgen : ∀ g, NoDup (Graph.nodes g) → Graph.edge_properties g = ∅ →
    let g' := foldl (fun graph item =>
                if Graph.has_node graph item then graph else Graph.add_node graph item)
                g sequence in
    NoDup (Graph.nodes g') ∧ Graph.edge_properties g' = ∅).
  { induction sequence as [|item rest IH]; intros g Hnodup Hempty; simpl; [done|].
    apply IH.
    - unfold Graph.has_node. case_bool_decide as Hin; [done|].
      simpl. apply NoDup_app. split; [done|]. split.
      + intros x Hx ->%list_elem_of_singleton. by apply Hin.
      + apply NoDup_singleton.
    - by destruct (Graph.has_node g item). }
  destruct (Hgen Graph.empty) as [Hnodup Hempty]; [constructor | done |].
  split; [|done]. split.
  - done.
  - intros u v. by rewrite Hempty, !lookup_empty.
  - intros u. by rewrite Hempty, lookup_empty.
  - intros u v. rewrite Hempty, lookup_empty. by intros [? ?].
  - intros e w. by rewrite Hempty, lookup_empty.
Qed.

(** C9: after the pairwise weighting pass on a well-formed graph, the graph
    has no self-edge, every weight is non-negative and every weight the pass
    added is at least the threshold, both directions of a pair carry the same
    single weight, and an edge the pass creates carries the weight of the
    first entry, in loop order and in either direction, between its end
    points: a later entry for the same pair is discarded. *)
Theorem weighting_pass_invariant `{Collaborators} (graph graph' : Graph.t) :
  graph_wf graph →
  weighting_pass graph = Ok graph' →
  let cands := candidates (Graph.nodes graph) 0 (_bm25_weights (Graph.nodes graph)) in
  (∀ u, Graph.has_edge graph' (u, u) = false)
  ∧ (∀ e w, Graph.edge_properties graph' !! e = Some w →
       (0 <= w)%Q
       ∧ (Graph.edge_properties graph !! e = Some w ∨ (WEIGHT_THRESHOLD <= w)%Q))
  ∧ (∀ u v, Graph.edge_properties graph' !! (u, v)
            = Graph.edge_properties graph' !! (v, u))
  ∧ (∀ u v, Graph.edge_properties graph' !! (u, v)
            = keep_or (Graph.edge_properties graph !! (u, v)) (first_weight cands u v)).
Proof.
  intros Hwf Hrun cands.
  destruct (weighting_pass_weighted graph graph' Hwf Hrun) as [Hwf' Hnodes Hedges Hthr].
  split; [|split; [|split]].
  - intros u. unfold Graph.has_edge.
    rewrite (wf_irrefl graph' Hwf' u). reflexivity.
  - intros e w Hew. split; [by apply (wf_nonneg graph' Hwf' e)|by apply Hthr].
  - apply (wf_sym graph' Hwf').
  - exact Hedges.
Qed.

(** On the three sample lines the pass creates the three edges. *)
Lemma weighting_pass_invariant_witness :
  (∀ u, Graph.has_edge Sample.weighted3 (u, u) = false)
  ∧ (∀ u v, Graph.edge_properties Sample.weighted3 !! (u, v)
            = Graph.edge_properties Sample.weighted3 !! (v, u)).
Proof.
  destruct (@weighting_pass_invariant Sample.collaborators
              (_build_graph (_build_hasheable_corpus Sample.corpus3)) Sample.weighted3)
    as (Hself & _ & Hsym & _).
  - apply build_graph_wf.
  - vm_compute. reflexivity.
  - split; [exact Hself | exact Hsym].
Defined.

(** *** The degeneracy fallback *)

Lemma foldl_seq_invariant {A} (P : nat → A → Prop) (f : A → nat → A) (n : nat) (a : A) :
  P 0%nat a →
  (∀ k b, (k < n)%nat → P k b → P (S k) (f b k)) →
  P n (foldl f a (seq 0 n)).
Proof.
  intros Hstart Hstep.
  assert (Hgen : ∀ len s b, (s + len = n)%nat → P s b →
                            P n (foldl f b (seq s len))).
  { induction len as [|len IH]; intros s b Hlen Hb; simpl.
    - by replace n with s by lia.
    - apply IH; [lia|]. apply Hstep; [lia | done]. }
  by apply (Hgen n 0%nat a).
Qed.

Lemma del_edge_lookup g u v e :
  Graph.edge_properties (Graph.del_edge g (u, v)) !! e
  = if decide (e = (u, v) ∨ e = (v, u)) then None
    else Graph.edge_properties g !! e.
Proof.
  unfold Graph.del_edge. simpl.
  destruct (decide (e = (u, v) ∨ e = (v, u))) as [[-> | ->] | Hne].
  - destruct (decide ((v, u) = (u, v))) as [Heq|Hneq].
    + rewrite Heq. by rewrite lookup_delete_eq.
    + rewrite lookup_delete_ne by done. by rewrite lookup_delete_eq.
  - by rewrite lookup_delete_eq.
  - rewrite !lookup_delete_ne; [done | naive_solver..].
Qed.

Lemma connect_lookup nodes i j g u v e :
  i ≠ j → nodes !! i = Some u → nodes !! j = Some v →
  Graph.nodes (connect nodes i j g) = Graph.nodes g
  ∧ Graph.edge_properties (connect nodes i j g) !! e
    = if decide (e = (u, v) ∨ e = (v, u)) then Some 1%Q
      else Graph.edge_properties g !! e.
Proof.
  intros Hij Hu Hv. unfold connect.
  apply Nat.eqb_neq in Hij. rewrite Hij, Hu, Hv.
  split; [by destruct (Graph.has_edge g (u, v))|].
  rewrite add_edge_lookup.
  destruct (decide (e = (u, v) ∨ e = (v, u))) as [Heq|Hne]; [done|].
  destruct (Graph.has_edge g (u, v)); [|done].
  rewrite del_edge_lookup. by destruct (decide (e = (u, v) ∨ e = (v, u))).
Qed.

Lemma joined_ext nodes (visited visited' : nat → nat → Prop) e :
  (∀ i j, visited i j → visited' i j) →
  joined nodes visited e → joined nodes visited' e.
Proof.
  intros Himpl (i & j & u & v & Hvis & Hrest).
  exists i, j, u, v. split; [by apply Himpl | done].
Qed.

Lemma completing_ext g (visited visited' : nat → nat → Prop) g' :
  (∀ i j, visited i j ↔ visited' i j) →
  completing g visited g' → completing g visited' g'.
Proof.
  intros Hiff [Hn Hone Hother]. split; [done | |].
  - intros e He. apply Hone. eapply joined_ext; [|exact He].
    intros i j. apply Hiff.
  - intros e w Hew. destruct (Hother e w Hew) as [Hold|[-> Hj]]; [by left|].
    right. split; [done|]. eapply joined_ext; [|exact Hj].
    intros i j. apply Hiff.
Qed.

Lemma completing_start g : completing g (λ _ _, False) g.
Proof.
  split; [done | | by left].
  intros e (i & j & u & v & [] & _).
Qed.

(** One iteration of the inner loop. *)
Lemma completing_connect g (visited : nat → nat → Prop) g' i j :
  (i < length (Graph.nodes g))%nat → (j < length (Graph.nodes g))%nat →
  completing g visited g' →
  completing g (λ a b, visited a b ∨ (a = i ∧ b = j))
    (connect (Graph.nodes g) i j g').
Proof.
  intros Hi Hj [Hn Hone Hother].
  destruct (decide (i = j)) as [->|Hij].
  { unfold connect. rewrite Nat.eqb_refl. split; [done | |].
    - intros e (a & b & u & v & [Hvis|[-> ->]] & Hab & Hrest); [|done].
      apply Hone. by exists a, b, u, v.
    - intros e w Hew. destruct (Hother e w Hew) as [Hold|[-> Hjoin]]; [by left|].
      right. split; [done|]. eapply joined_ext; [|exact Hjoin]. naive_solver. }
  destruct (lookup_lt_is_Some_2 _ _ Hi) as [u Hu].
  destruct (lookup_lt_is_Some_2 _ _ Hj) as [v Hv].
  assert (Hnew : joined (Graph.nodes g) (λ a b, visited a b ∨ (a = i ∧ b = j)) (u, v)
                 ∧ joined (Graph.nodes g) (λ a b, visited a b ∨ (a = i ∧ b = j)) (v, u)).
  { split; exists i, j, u, v; naive_solver. }
  split.
  - etrans; [|exact Hn]. apply (connect_lookup _ i j g' u v (u, v) Hij Hu Hv).
  - intros e He.
    destruct (connect_lookup _ i j g' u v e Hij Hu Hv) as [_ ->].
    destruct (decide (e = (u, v) ∨ e = (v, u))) as [_|Hne]; [done|].
    apply Hone. destruct He as (a & b & u' & v' & [Hvis|[-> ->]] & Hab & Hu' & Hv' & He).
    + by exists a, b, u', v'.
    + exfalso. apply Hne. rewrite Hu in Hu'. rewrite Hv in Hv'.
      injection Hu' as <-. injection Hv' as <-. done.
  - intros e w.
    destruct (connect_lookup _ i j g' u v e Hij Hu Hv) as [_ ->].
    destruct (decide (e = (u, v) ∨ e = (v, u))) as [Heq|Hne].
    + intros [= <-]. right. split; [done|].
      destruct Hnew as [Huv Hvu]. by destruct Heq as [-> | ->].
    + intros Hew. destruct (Hother e w Hew) as [Hold|[-> Hjoin]]; [by left|].
      right. split; [done|]. eapply joined_ext; [|exact Hjoin]. naive_solver.
Qed.

(** The whole double loop: every pair of positions has been visited. *)
Lemma create_valid_graph_completing g :
  completing g (λ a b, (a < length (Graph.nodes g))%nat ∧ (b < length (Graph.nodes g))%nat)
    (_create_valid_graph g).
Proof.
  unfold _create_valid_graph.
  set (n := length (Graph.nodes g)).
  apply (foldl_seq_invariant
           (λ k g', completing g (λ a b, (a < k)%nat ∧ (b < n)%nat) g')).
  - eapply completing_ext; [|apply completing_start]. intros a b. simpl. lia.
  - intros i g1 Hi Hrows.
    eapply completing_ext;
      [|apply (foldl_seq_invariant
                 (λ m g', completing g
                            (λ a b, ((a < i)%nat ∧ (b < n)%nat) ∨ (a = i ∧ (b < m)%nat)) g'))].
    + intros a b. simpl. lia.
    + eapply completing_ext; [|exact Hrows]. intros a b. simpl. lia.
    + intros j g2 Hj Hcols.
      eapply completing_ext; [|apply (completing_connect _ _ _ i j Hi Hj Hcols)].
      intros a b. simpl. lia.
Qed.

(** C6: when every edge has weight zero after the weighting pass (in
    particular when there is no edge), [_set_graph_edge_weights] returns the
    graph rebuilt by [_create_valid_graph]: same nodes, every two distinct
    nodes joined with weight exactly 1, and no edge of any other weight, no
    self-edge and no edge leaving the node set. *)
Theorem degenerate_graph_becomes_complete `{Collaborators} (graph graph' : Graph.t) :
  graph_wf graph →
  weighting_pass graph = Ok graph' →
  all_weights_zero graph' = true →
  let rebuilt := _create_valid_graph graph' in
  _set_graph_edge_weights graph = Ok rebuilt
  ∧ Graph.nodes rebuilt = Graph.nodes graph
  ∧ (∀ u v, u ∈ Graph.nodes graph → v ∈ Graph.nodes graph → u ≠ v →
       Graph.has_edge rebuilt (u, v) = true
       ∧ Graph.edge_properties rebuilt !! (u, v) = Some 1%Q)
  ∧ (∀ e w, Graph.edge_properties rebuilt !! e = Some w →
       w = 1%Q ∧ e.1 ≠ e.2
       ∧ e.1 ∈ Graph.nodes graph ∧ e.2 ∈ Graph.nodes graph).
Proof.
  intros Hwf Hrun Hzero rebuilt.
  destruct (weighting_pass_weighted graph graph' Hwf Hrun) as [Hwf' Hnodes _ _].
  destruct (create_valid_graph_completing graph') as [Hn Hone Hother].
  fold rebuilt in Hn, Hone, Hother.
  assert (Hpair : ∀ u v, u ∈ Graph.nodes graph' → v ∈ Graph.nodes graph' → u ≠ v →
            joined (Graph.nodes graph')
              (λ a b, (a < length (Graph.nodes graph'))%nat
                      ∧ (b < length (Graph.nodes graph'))%nat) (u, v)).
  { intros u v Hu Hv Huv.
    apply list_elem_of_lookup_1 in Hu as [i Hi].
    apply list_elem_of_lookup_1 in Hv as [j Hj].
    exists i, j, u, v. split.
    - split; by eapply lookup_lt_Some.
    - split; [congruence|]. split; [done|]. split; [done|]. by left. }
  assert (Hjoined : ∀ e,
            joined (Graph.nodes graph')
              (λ a b, (a < length (Graph.nodes graph'))%nat
                      ∧ (b < length (Graph.nodes graph'))%nat) e →
            e.1 ≠ e.2 ∧ e.1 ∈ Graph.nodes graph' ∧ e.2 ∈ Graph.nodes graph').
  { intros e (i & j & u & v & _ & Hij & Hu & Hv & He).
    assert (u ≠ v).
    { intros ->. apply Hij. eapply NoDup_lookup; [|exact Hu|exact Hv].
      apply (wf_nodup graph' Hwf'). }
    apply list_elem_of_lookup_2 in Hu, Hv.
    destruct He as [-> | ->]; simpl; by repeat split. }
  split; [|split; [|split]].
  - unfold _set_graph_edge_weights. rewrite Hrun. simpl. by rewrite Hzero.
  - by rewrite Hn.
  - intros u v Hu Hv Huv. rewrite <- Hnodes in Hu, Hv.
    assert (H1 : Graph.edge_properties rebuilt !! (u, v) = Some 1%Q)
      by (apply Hone; by apply Hpair).
    assert (H2 : Graph.edge_properties rebuilt !! (v, u) = Some 1%Q)
      by (apply Hone; by apply Hpair).
    split; [|done]. unfold Graph.has_edge. rewrite H1, H2. reflexivity.
  - intros e w Hew. rewrite <- Hnodes.
    destruct (Hother e w Hew) as [Hold|[-> Hj]].
    + (* an edge of the weighted graph has been overwritten with 1 *)
      destruct e as [u v].
      destruct (wf_closed graph' Hwf' u v) as [Hu Hv]; [by rewrite Hold|].
      assert (Huv : u ≠ v).
      { intros ->. by rewrite (wf_irrefl graph' Hwf') in Hold. }
      pose proof (Hpair u v Hu Hv Huv) as Hj.
      rewrite (Hone _ Hj) in Hew. injection Hew as <-.
      split; [done|]. by apply Hjoined.
    + split; [done|]. by apply Hjoined.
Qed.

(** Three lines without a common word: the graph is rebuilt complete. *)
Lemma degenerate_graph_becomes_complete_witness :
  @_set_graph_edge_weights Sample.collaborators
    (_build_graph (_build_hasheable_corpus Sample.disjoint_corpus))
  = Ok (_create_valid_graph Sample.disjoint_weighted)
  ∧ length (Graph.iter_edges (_create_valid_graph Sample.disjoint_weighted)) = 6%nat.
Proof.
  destruct (@degenerate_graph_becomes_complete Sample.collaborators
              (_build_graph (_build_hasheable_corpus Sample.disjoint_corpus))
              Sample.disjoint_weighted)
    as (Hrun & _).
  - apply build_graph_wf.
  - vm_compute. reflexivity.
  - vm_compute. reflexivity.
  - split; [exact Hrun|]. vm_compute. reflexivity.
Defined.

(** ** The corpus ranker on the store *)

Section StoreFacts.

Import Store.

Lemma bind_ok {A B} (m : M A) (k : A → M B) h a h1 :
  m h = (Ok a, h1) → Store.bind m k h = k a h1.
Proof. unfold Store.bind. by intros ->. Qed.

Lemma doc_at_app h k l d : doc_at h l = Some d → doc_at (h ++ k) l = Some d.
Proof.
  unfold doc_at. destruct (h !! l) as [o|] eqn:Hl; [|done].
  by rewrite (lookup_app_l_Some _ _ _ _ Hl).
Qed.

Lemma corpus_at_app h k corpus ds :
  corpus_at h corpus = Some ds → corpus_at (h ++ k) corpus = Some ds.
Proof.
  unfold corpus_at. destruct (h !! corpus) as [o|] eqn:Hc; [|done].
  rewrite (lookup_app_l_Some _ _ _ _ Hc).
  destruct o as [d|docs|docs]; [done| |done].
  rewrite !mapM_Some. intros Hdocs. eapply Forall2_impl; [exact Hdocs|].
  intros l d. apply doc_at_app.
Qed.

Lemma load_run h l o : h !! l = Some o → load l h = (Ok o, h).
Proof. unfold load. by intros ->. Qed.

Lemma tuple_of_ref_run h l d :
  h !! l = Some (DocList d) → tuple_of_ref l h = (Ok (py_tuple d), h).
Proof.
  intros Hl. unfold tuple_of_ref.
  by rewrite (bind_ok _ _ _ _ _ (load_run _ _ _ Hl)).
Qed.

Lemma for_each_tuple_of_ref h docs ds :
  mapM (doc_at h) docs = Some ds →
  for_each tuple_of_ref docs h = (Ok (map py_tuple ds), h).
Proof.
  rewrite mapM_Some. induction 1 as [|l d docs ds Hd _ IH]; [done|].
  simpl. unfold doc_at in Hd.
  destruct (h !! l) as [[d'| |]|] eqn:Hl; try done. injection Hd as ->.
  rewrite (bind_ok _ _ _ _ _ (tuple_of_ref_run _ _ _ Hl)).
  by rewrite (bind_ok _ _ _ _ _ IH).
Qed.

Lemma build_hasheable_corpus_st_run h corpus ds :
  corpus_at h corpus = Some ds →
  build_hasheable_corpus_st corpus h
  = (Ok (length h), h ++ [TupleList (_build_hasheable_corpus ds)]).
Proof.
  unfold corpus_at, build_hasheable_corpus_st. intros Hc.
  destruct (h !! corpus) as [[d|docs|docs]|] eqn:Hl; try done.
  - rewrite (bind_ok _ _ _ _ _ (load_run _ _ _ Hl)).
    by rewrite (bind_ok _ _ _ _ _ (for_each_tuple_of_ref _ _ _ Hc)).
  - injection Hc as ->.
    by rewrite (bind_ok _ _ _ _ _ (load_run _ _ _ Hl)).
Qed.

Lemma len_st_run h corpus ds :
  corpus_at h corpus = Some ds → len_st corpus h = (Ok (length ds), h).
Proof.
  unfold corpus_at, len_st. intros Hc.
  destruct (h !! corpus) as [[d|docs|docs]|] eqn:Hl; try done.
  - rewrite (bind_ok _ _ _ _ _ (load_run _ _ _ Hl)).
    apply mapM_Some, Forall2_length in Hc. by rewrite Hc.
  - injection Hc as ->.
    by rewrite (bind_ok _ _ _ _ _ (load_run _ _ _ Hl)).
Qed.

Lemma tuples_st_run h l keys :
  h !! l = Some (TupleList keys) → tuples_st l h = (Ok keys, h).
Proof.
  intros Hl. unfold tuples_st.
  by rewrite (bind_ok _ _ _ _ _ (load_run _ _ _ Hl)).
Qed.

Lemma for_each_list_of_tuple h keys :
  for_each list_of_tuple keys h
  = (Ok (seq (length h) (length keys)), h ++ map DocList (map py_list keys)).
Proof.
  revert h. induction keys as [|k rest IH]; intros h; simpl.
  - by rewrite app_nil_r.
  - unfold list_of_tuple at 1, alloc, Store.bind at 1.
    rewrite (bind_ok _ _ _ _ _ (IH _)).
    rewrite length_app, <- app_assoc. simpl.
    by rewrite Nat.add_1_r.
Qed.

(** The documents allocated by [for_each list_of_tuple] are read back. *)
Lemma fresh_docs_at (pre : heap) (keys : list Node) (post : heap) (n : nat) :
  length pre = n →
  mapM (doc_at (pre ++ map DocList (map py_list keys) ++ post))
       (seq n (length keys))
  = Some (map py_list keys).
Proof.
  intros Hlen. apply mapM_Some, Forall2_same_length_lookup. split.
  - by rewrite length_seq, !length_map.
  - intros i l d Hl Hd.
    apply lookup_seq in Hl as [-> Hi].
    cbv beta. unfold doc_at.
    rewrite lookup_app_r by lia.
    rewrite lookup_app_l by (rewrite !length_map; lia).
    replace (n + i - length pre)%nat with i by lia.
    rewrite list_lookup_fmap, Hd. done.
Qed.

End StoreFacts.

Section StatefulRun.

Context `{Collaborators}.
Import Store.

(** The run of [summarize_corpus_st] in closed form: the heap it leaves and
    the reference it returns. *)
Lemma summarize_corpus_st_run (h : heap) (corpus : loc) (ds : list bow) (ratio : number) :
  corpus_at h corpus = Some ds →
  summarize_corpus_st corpus ratio h =
  let hc := _build_hasheable_corpus ds in
  if (length ds =? 0)%nat
  then (Ok (S (length h)), h ++ [TupleList hc] ++ [RefList []])
  else
    match _set_graph_edge_weights (_build_graph hc) with
    | Raise e => (Raise e, h ++ [TupleList hc])
    | Ok graph =>
        let graph := _remove_unreachable_nodes graph in
        if (length (Graph.nodes graph) <? 3)%nat
        then (Ok (S (length h)), h ++ [TupleList hc] ++ [RefList []])
        else
          let sorted := sort_desc (score_of (_pagerank graph)) hc in
          match summary_length (length ds) ratio with
          | Raise e => (Raise e, h ++ [TupleList sorted])
          | Ok k =>
              let out := Py.slice_to sorted k in
              (Ok (S (length h) + length out)%nat,
               h ++ [TupleList sorted] ++ map DocList (map py_list out)
                 ++ [RefList (seq (S (length h)) (length out))])
          end
    end.
Proof.
  intros Hc. cbv zeta. unfold summarize_corpus_st.
  set (hc := _build_hasheable_corpus ds).
  rewrite (bind_ok _ _ _ _ _ (build_hasheable_corpus_st_run h corpus ds Hc)).
  fold hc.
  rewrite (bind_ok _ _ _ _ _ (len_st_run _ _ _ (corpus_at_app _ [TupleList hc] _ _ Hc))).
  assert (Hlen1 : length (h ++ [TupleList hc]) = S (length h))
    by (rewrite length_app; simpl; lia).
  destruct (length ds =? 0)%nat.
  { unfold alloc. by rewrite Hlen1, <- app_assoc. }
  rewrite (bind_ok _ _ _ _ _
             (tuples_st_run _ _ _ (list_lookup_middle h [] (TupleList hc) _ eq_refl))).
  unfold Store.bind at 1, lift.
  destruct (_set_graph_edge_weights (_build_graph hc)) as [graph|e]; [|done].
  destruct (length (Graph.nodes (_remove_unreachable_nodes graph)) <? 3)%nat.
  { unfold alloc. by rewrite Hlen1, <- app_assoc. }
  set (scores := _pagerank (_remove_unreachable_nodes graph)).
  set (sorted := sort_desc (score_of scores) hc).
  assert (Hsort : sort_st (length h) (score_of scores) (h ++ [TupleList hc])
                  = (Ok tt, h ++ [TupleList sorted])).
  { unfold sort_st.
    rewrite (bind_ok _ _ _ _ _
               (tuples_st_run _ _ _ (list_lookup_middle h [] (TupleList hc) _ eq_refl))).
    unfold store. f_equal.
    rewrite insert_app_r_alt by lia. by rewrite Nat.sub_diag. }
  rewrite (bind_ok _ _ _ _ _ Hsort).
  rewrite (bind_ok _ _ _ _ _
             (tuples_st_run _ _ _ (list_lookup_middle h [] (TupleList sorted) _ eq_refl))).
  rewrite (bind_ok _ _ _ _ _ (len_st_run _ _ _ (corpus_at_app _ [TupleList sorted] _ _ Hc))).
  unfold Store.bind at 1, lift.
  destruct (summary_length (length ds) ratio) as [k|e]; [|done].
  rewrite (bind_ok _ _ _ _ _ (for_each_list_of_tuple _ _)).
  unfold alloc.
  rewrite !length_app, !length_map. simpl.
  rewrite <- !app_assoc. simpl.
  by rewrite Nat.add_1_r.
Qed.

End StatefulRun.

(** C10: [summarize_corpus] leaves its argument unchanged.  Run on a heap
    where [corpus] refers to a list of documents [ds], it changes no object
    that existed before the call, so [corpus] still holds [ds] element for
    element; the list it returns and the documents in it are new objects,
    and their content is the result of the pure reading [summarize_corpus]
    of the function. *)
Theorem summarize_corpus_leaves_corpus_unchanged `{Collaborators}
    (h : list Store.obj) (corpus : nat) (ds : list bow) (ratio : number) :
  Store.corpus_at h corpus = Some ds →
  let run := summarize_corpus_st corpus ratio h in
  (∀ l o, h !! l = Some o → run.2 !! l = Some o)
  ∧ Store.corpus_at run.2 corpus = Some ds
  ∧ match summarize_corpus ds ratio with
    | Ok out =>
        ∃ l docs,
          run.1 = Ok l
          ∧ (length h ≤ l)%nat
          ∧ run.2 !! l = Some (Store.RefList docs)
          ∧ Forall (λ d, (length h ≤ d)%nat) docs
          ∧ Store.corpus_at run.2 l = Some out
    | Raise e => run.1 = Raise e
    end.
Proof.
  intros Hc run. unfold run.
  rewrite (summarize_corpus_st_run h corpus ds ratio Hc). cbv zeta.
  unfold summarize_corpus.
  set (hc := _build_hasheable_corpus ds).
  assert (Hempty : ∀ sorted,
    (∀ l o, h !! l = Some o →
        (h ++ [Store.TupleList sorted] ++ [Store.RefList []]) !! l = Some o)
    ∧ Store.corpus_at (h ++ [Store.TupleList sorted] ++ [Store.RefList []]) corpus
      = Some ds
    ∧ ∃ l docs,
        @Ok nat (S (length h)) = Ok l
        ∧ (length h ≤ l)%nat
        ∧ (h ++ [Store.TupleList sorted] ++ [Store.RefList []]) !! l
          = Some (Store.RefList docs)
        ∧ Forall (λ d, (length h ≤ d)%nat) docs
        ∧ Store.corpus_at (h ++ [Store.TupleList sorted] ++ [Store.RefList []]) l
          = Some []).
  { intros sorted.
    assert (Hl : (h ++ [Store.TupleList sorted] ++ [Store.RefList []]) !! S (length h)
                 = Some (Store.RefList [])).
    { rewrite app_assoc. apply list_lookup_middle.
      rewrite length_app. simpl. lia. }
    split; [intros l o; apply lookup_app_l_Some|].
    split; [by apply corpus_at_app|].
    exists (S (length h)), []. split; [done|]. split; [lia|]. split; [done|].
    split; [constructor|]. unfold Store.corpus_at. by rewrite Hl. }
  destruct (length ds =? 0)%nat; [apply Hempty|].
  destruct (_set_graph_edge_weights (_build_graph hc)) as [graph|e]; simpl.
  2: { split; [intros l o; apply lookup_app_l_Some|].
       split; [by apply corpus_at_app | done]. }
  destruct (length (Graph.nodes (_remove_unreachable_nodes graph)) <? 3)%nat;
    [apply Hempty|].
  set (sorted := sort_desc (score_of (_pagerank (_remove_unreachable_nodes graph))) hc).
  destruct (summary_length (length ds) ratio) as [k|e]; simpl.
  2: { split; [intros l o; apply lookup_app_l_Some|].
       split; [by apply corpus_at_app | done]. }
  set (out := Py.slice_to sorted k).
  cbn [fst snd].
  split; [intros l o; apply lookup_app_l_Some|].
  split; [by apply corpus_at_app|].
  exists (S (length h + length out))%nat, (seq (S (length h)) (length out)).
  assert (Hl : (h ++ Store.TupleList sorted
                  :: map Store.DocList (map py_list out)
                     ++ [Store.RefList (seq (S (length h)) (length out))])
               !! (S (length h + length out))%nat
               = Some (Store.RefList (seq (S (length h)) (length out)))).
  { change (h ++ Store.TupleList sorted :: ?k) with (h ++ [Store.TupleList sorted] ++ k).
    rewrite !app_assoc. apply list_lookup_middle.
    rewrite !length_app, !length_map. simpl. lia. }
  split; [done|]. split; [lia|]. split; [exact Hl|]. split.
  - apply Forall_forall. intros d Hd%elem_of_seq. lia.
  - unfold Store.corpus_at. rewrite Hl.
    change (h ++ Store.TupleList sorted :: ?k) with (h ++ [Store.TupleList sorted] ++ k).
    rewrite app_assoc. apply fresh_docs_at.
    rewrite length_app. simpl. lia.
Qed.

(** The three sample documents on a heap: the call returns a new list and
    the heap still holds the corpus. *)
Lemma summarize_corpus_leaves_corpus_unchanged_witness :
  Store.corpus_at Sample.heap3 Sample.corpus3_loc = Some Sample.corpus3
  ∧ Store.corpus_at
      (@summarize_corpus_st Sample.collaborators Sample.corpus3_loc (Exact 1) Sample.heap3).2
      Sample.corpus3_loc
    = Some Sample.corpus3.
Proof.
  assert (Hcorpus : Store.corpus_at Sample.heap3 Sample.corpus3_loc
                    = Some Sample.corpus3) by (vm_compute; reflexivity).
  split; [exact Hcorpus|].
  destruct (@summarize_corpus_leaves_corpus_unchanged Sample.collaborators
              Sample.heap3 Sample.corpus3_loc Sample.corpus3 (Exact 1) Hcorpus)
    as (_ & Hkept & _).
  exact Hkept.
Defined.

(** ** Formatting *)

Lemma append_cons (c : ascii) (s t : string) :
  String c s +:+ t = String c (s +:+ t).
Proof. reflexivity. Qed.

Lemma append_nil_r (s : string) : s +:+ EmptyString = s.
Proof.
  induction s as [|c s IH]; [done|]. by rewrite append_cons, IH.
Qed.

Lemma append_snoc (cur : string) (c : ascii) (s : string) :
  (cur +:+ String c EmptyString) +:+ s = cur +:+ String c s.
Proof.
  induction cur as [|c' cur IH]; [done|]. by rewrite !append_cons, IH.
Qed.

Lemma split_lines_go_field cur p rest :
  newline_free p →
  split_lines_go cur (p +:+ rest) = split_lines_go (cur +:+ p) rest.
Proof.
  revert cur. induction p as [|c p IH]; intros cur Hfree.
  - by rewrite append_nil_r.
  - rewrite append_cons. cbn [split_lines_go]. destruct Hfree as [Hc Hp].
    destruct (Ascii.eqb c (ascii_of_nat 10)) eqn:Heq.
    + by apply Ascii.eqb_eq in Heq.
    + rewrite IH by done. by rewrite append_snoc.
Qed.

Lemma split_lines_go_join cur p rest :
  newline_free p → Forall newline_free rest →
  split_lines_go cur (join newline (p :: rest)) = (cur +:+ p) :: rest.
Proof.
  revert cur p. induction rest as [|q rest IH]; intros cur p Hp Hrest.
  - simpl. rewrite <- (append_nil_r p) at 1.
    by rewrite split_lines_go_field.
  - apply Forall_cons in Hrest as [Hq Hrest].
    change (join newline (p :: q :: rest))
      with (p +:+ newline +:+ join newline (q :: rest)).
    rewrite split_lines_go_field by done.
    change (newline +:+ ?s) with (String (ascii_of_nat 10) s).
    cbn [split_lines_go]. rewrite Ascii.eqb_refl.
    by rewrite (IH EmptyString q).
Qed.

(** [_format_results] does what C1 describes: the list form is the list of
    display texts, the string form joins them with line breaks, and cutting
    the string at line breaks gives the list back. *)
Lemma format_results_roundtrip (extracted : list SyntacticUnit) :
  extracted ≠ [] →
  Forall (λ s, newline_free (text s)) extracted →
  _format_results extracted true = StrList (map text extracted)
  ∧ ∃ joined, _format_results extracted false = Str joined
              ∧ split_lines joined = map text extracted.
Proof.
  intros Hne Hfree. split; [done|].
  eexists. split; [reflexivity|].
  destruct extracted as [|s rest]; [done|].
  apply Forall_cons in Hfree as [Hs Hrest].
  unfold split_lines. simpl map.
  rewrite split_lines_go_join; [done | done |].
  by apply Forall_fmap.
Qed.

(** Whatever the collaborators, a value returned by [summarize] is the empty
    result or a list of sentence objects: [split] is not consulted once
    sentences have been extracted. *)
Lemma summarize_unformatted `{Collaborators}
    (text : string) (ratio : number) (word_count nb_sentences : option Z) (split : bool)
    (v : summary) :
  summarize text ratio word_count nb_sentences split = Ok v →
  v = empty_summary split ∨ ∃ extracted, v = Sentences extracted.
Proof.
  unfold summarize. intros Hrun.
  destruct (length (_clean_text_by_sentences text) =? 0)%nat;
    [left; congruence|].
  destruct (length (_clean_text_by_sentences text) =? 1)%nat; [done|].
  unfold mbind, result_bind, Py.bind in Hrun.
  destruct (summarize_corpus _ _) as [[|doc docs]|]; [left; congruence| |done].
  destruct (_extract_important_sentences _ _ _ _ _) as [extracted|]; [|done].
  right. exists extracted. congruence.
Qed.

(** C1 fails on the code: on the three sample lines, [summarize] returns the
    extracted sentence objects themselves, the same for [split=False] and
    [split=True]; it returns neither the list of their display texts nor the
    string joining them, which [_format_results] would give. *)
Theorem summarize_returns_sentence_objects :
  ∃ extracted : list SyntacticUnit,
    extracted ≠ []
    ∧ @summarize Sample.collaborators Sample.text3 Sample.half None None false
      = Ok (Sentences extracted)
    ∧ @summarize Sample.collaborators Sample.text3 Sample.half None None true
      = Ok (Sentences extracted)
    ∧ Sentences extracted ≠ _format_results extracted false
    ∧ Sentences extracted ≠ _format_results extracted true.
Proof.
  eexists. split; [|split; [vm_compute; reflexivity|]].
  - discriminate.
  - split; [vm_compute; reflexivity|]. split; discriminate.
Qed.

(** * Further properties of the module *)

(** ** Word-count selection: how close the selection gets *)

Lemma words_in_sentence_nonneg s : 0 ≤ words_in_sentence s.
Proof. unfold words_in_sentence. lia. Qed.

Lemma total_words_nonneg l : 0 ≤ total_words l.
Proof.
  induction l as [|s l IH]; [done|].
  rewrite total_words_cons. pose proof (words_in_sentence_nonneg s). lia.
Qed.

Lemma accepted_prefix_closest word_count len sentences j :
  distance word_count
    (len + total_words (take (accepted_prefix word_count len sentences) sentences))
  ≤ distance word_count (len + total_words (take j sentences)).
Proof.
  revert len j. unfold distance.
  induction sentences as [|s0 rest IH]; intros len j.
  - by rewrite !take_nil.
  - pose proof (words_in_sentence_nonneg s0) as Hw. cbn [accepted_prefix].
    destruct (Z.abs (word_count - len - words_in_sentence s0)
              >? Z.abs (word_count - len)) eqn:Hcmp.
    + destruct j as [|j]; cbn [take]; [lia|].
      rewrite total_words_cons.
      pose proof (total_words_nonneg (take j rest)).
      change (total_words []) with 0. lia.
    + cbn [take]. rewrite total_words_cons.
      destruct j as [|j]; cbn [take].
      * pose proof (IH (len + words_in_sentence s0) 0%nat) as Hbest.
        rewrite take_0 in Hbest. change (total_words []) with 0 in *. lia.
      * pose proof (IH (len + words_in_sentence s0) j) as Hbest.
        rewrite total_words_cons. lia.
Qed.

(** The selection is the prefix of the list whose word total is closest to
    the target: no prefix, shorter or longer, is strictly closer. *)
Theorem word_count_selection_closest_prefix
    (sentences : list SyntacticUnit) (word_count : Z) (j : nat) :
  distance word_count
    (total_words (_get_sentences_with_word_count sentences word_count))
  ≤ distance word_count (total_words (take j sentences)).
Proof.
  unfold _get_sentences_with_word_count. rewrite word_count_loop_prefix.
  apply (accepted_prefix_closest word_count 0 sentences j).
Qed.

(** For a non-negative target, the selection never holds more than twice the
    target number of words. *)
Theorem word_count_selection_at_most_twice
    (sentences : list SyntacticUnit) (word_count : Z) :
  0 ≤ word_count →
  0 ≤ total_words (_get_sentences_with_word_count sentences word_count)
    ≤ 2 * word_count.
Proof.
  intros Hwc.
  pose proof (total_words_nonneg
                (_get_sentences_with_word_count sentences word_count)) as Hpos.
  unfold _get_sentences_with_word_count in *.
  rewrite word_count_loop_prefix in *.
  pose proof (accepted_prefix_closest word_count 0 sentences 0) as Hbest.
  rewrite take_0 in Hbest. change (total_words []) with 0 in Hbest.
  unfold distance in Hbest. simpl in *. lia.
Qed.

Lemma word_count_selection_at_most_twice_witness :
  0 ≤ total_words (_get_sentences_with_word_count
                     [Sample.four_words; Sample.five_words; Sample.seven_words] 10)
    ≤ 2 * 10.
Proof.
  apply (word_count_selection_at_most_twice
           [Sample.four_words; Sample.five_words; Sample.seven_words] 10).
  lia.
Defined.

Lemma accepted_prefix_all word_count len sentences :
  len + total_words sentences ≤ word_count →
  accepted_prefix word_count len sentences = length sentences.
Proof.
  revert len. induction sentences as [|s0 rest IH]; intros len Hfit; [done|].
  rewrite total_words_cons in Hfit.
  pose proof (words_in_sentence_nonneg s0). pose proof (total_words_nonneg rest).
  cbn [accepted_prefix length].
  destruct (Z.abs (word_count - len - words_in_sentence s0)
            >? Z.abs (word_count - len)) eqn:Hcmp; [lia|].
  f_equal. apply IH. lia.
Qed.

(** When the whole list has no more words than the target, every sentence is
    selected. *)
Theorem word_count_selection_takes_all
    (sentences : list SyntacticUnit) (word_count : Z) :
  total_words sentences ≤ word_count →
  _get_sentences_with_word_count sentences word_count = sentences.
Proof.
  intros Hfit. unfold _get_sentences_with_word_count.
  rewrite word_count_loop_prefix, accepted_prefix_all by lia.
  by rewrite firstn_all.
Qed.

Lemma word_count_selection_takes_all_witness :
  _get_sentences_with_word_count
    [Sample.four_words; Sample.five_words; Sample.seven_words] 16
  = [Sample.four_words; Sample.five_words; Sample.seven_words].
Proof.
  apply (word_count_selection_takes_all
           [Sample.four_words; Sample.five_words; Sample.seven_words] 16).
  vm_compute. discriminate.
Defined.

(** ** Sentence-count selection: what is returned *)

(** For a non-negative count, the returned list has no repetition, holds the
    top-ranked sentence and only sentences of the input, and its length is
    [nb_sentences + 1], or the number of distinct sentences when there are
    fewer. *)
Theorem get_group_of_best_sentences_result
    (first : SyntacticUnit) (rest : list SyntacticUnit) (nb_sentences : Z) :
  0 ≤ nb_sentences →
  ∃ selected : list SyntacticUnit,
    _get_group_of_best_sentences (first :: rest) nb_sentences = Ok selected
    ∧ NoDup selected
    ∧ first ∈ selected
    ∧ (∀ s, s ∈ selected → s ∈ first :: rest)
    ∧ Z.of_nat (length selected)
      = Z.min (nb_sentences + 1)
          (Z.of_nat (size (list_to_set (first :: rest) : gset SyntacticUnit))).
Proof.
  intros Hnb.
  destruct (group_of_best_sentences_size first rest nb_sentences Hnb)
    as (S & Hrun & Hfirst & Hsub & Hsize).
  exists (elements S). split.
  - unfold _get_group_of_best_sentences. by rewrite Hrun.
  - split; [apply NoDup_elements|].
    split; [by apply elem_of_elements|].
    split; [|exact Hsize].
    intros s Hs%elem_of_elements.
    apply Hsub in Hs. by apply elem_of_list_to_set in Hs.
Qed.

Lemma get_group_of_best_sentences_result_witness :
  ∃ selected : list SyntacticUnit,
    _get_group_of_best_sentences
      [Sample.first_unit; Sample.second_unit; Sample.first_unit] 5 = Ok selected
    ∧ length selected = 2%nat.
Proof.
  destruct (get_group_of_best_sentences_result
              Sample.first_unit [Sample.second_unit; Sample.first_unit] 5)
    as (selected & Hrun & _ & _ & _ & Hlen); [lia|].
  exists selected. split; [exact Hrun|].
  apply Nat2Z.inj. etrans; [exact Hlen | reflexivity].
Defined.

(** A count of zero or less selects the top-ranked sentence alone. *)
Theorem get_group_of_best_sentences_nonpositive
    (first : SyntacticUnit) (rest : list SyntacticUnit) (nb_sentences : Z) :
  nb_sentences ≤ 0 →
  _get_group_of_best_sentences (first :: rest) nb_sentences = Ok [first].
Proof.
  intros Hnb. unfold _get_group_of_best_sentences, group_of_best_sentences.
  assert (Hloop : best_sentences_loop nb_sentences rest 1 {[first]} = {[first]}).
  { destruct rest as [|s rest]; [done|]. simpl.
    destruct (1 <=? nb_sentences) eqn:Hguard; [|done].
    apply Z.leb_le in Hguard. lia. }
  rewrite Hloop. cbn. by rewrite elements_singleton.
Qed.

Lemma get_group_of_best_sentences_nonpositive_witness :
  _get_group_of_best_sentences [Sample.first_unit; Sample.second_unit] 0
  = Ok [Sample.first_unit].
Proof.
  apply (get_group_of_best_sentences_nonpositive
           Sample.first_unit [Sample.second_unit] 0).
  lia.
Defined.

(** ** The selector map: which documents resolve *)

Lemma build_hasheable_corpus_id (corpus : list bow) :
  _build_hasheable_corpus corpus = corpus.
Proof. unfold _build_hasheable_corpus, py_tuple. apply map_id. Qed.

Lemma zip_keys_take {V} (keys : list Node) (values : list V) :
  (zip keys values).*1 = take (length values) keys.
Proof.
  revert values. induction keys as [|k keys IH]; intros [|v values]; simpl;
    [done | done | done |]. by rewrite IH.
Qed.

Lemma dict_of_zip_Some {V} (keys : list Node) (values : list V) k v :
  dict_of_zip keys values !! k = Some v → (k, v) ∈ zip keys values.
Proof.
  rewrite dict_of_zip_lookup. unfold last_writer. intros Hlast.
  apply last_Some_elem_of, list_elem_of_fmap in Hlast as ([k' v'] & -> & Hin).
  apply list_elem_of_filter in Hin as [Hk Hin]. simpl in *. by subst k'.
Qed.

Lemma dict_of_zip_None {V} (keys : list Node) (values : list V) k :
  dict_of_zip keys values !! k = None ↔ k ∉ take (length values) keys.
Proof.
  rewrite dict_of_zip_lookup, <- zip_keys_take. unfold last_writer.
  rewrite last_None. split.
  - intros Hnil%fmap_nil_inv ([k' v] & Heq & Hin)%list_elem_of_fmap.
    simpl in Heq. subst k.
    by apply (filter_nil_not_elem_of _ _ (k', v) Hnil).
  - intros Hnot.
    destruct (base.filter (λ kv : Node * V, kv.1 = k) (zip keys values))
      as [|[k' v] rest] eqn:Hfilter; [done|]. exfalso.
    assert (Hin : (k', v) ∈ base.filter (λ kv : Node * V, kv.1 = k) (zip keys values))
      by (rewrite Hfilter; left).
    apply list_elem_of_filter in Hin as [Hk Hin]. simpl in Hk. subst k'.
    apply Hnot. by apply (list_elem_of_fmap_2 fst) in Hin.
Qed.

Lemma mapM_getitem {V} (d : gmap Node V) (docs : list Node) :
  match mapM (getitem d) docs with
  | Ok resolved =>
      Forall2 (λ doc v, d !! doc = Some v) docs resolved
  | Raise e => e = KeyError ∧ Exists (λ doc, d !! doc = None) docs
  end.
Proof.
  induction docs as [|doc docs IH]; simpl; [constructor|].
  unfold mbind, result_bind, Py.bind, getitem at 1.
  destruct (d !! doc) as [v|] eqn:Hdoc.
  - destruct (mapM (getitem d) docs) as [resolved|e]; simpl.
    + by constructor.
    + destruct IH as [-> Hex]. split; [done|]. by apply Exists_cons_tl.
  - split; [done|]. by apply Exists_cons_hd.
Qed.

(** When every ranked document is the document of one of the sentences,
    [_get_important_sentences] returns one sentence per ranked document, in
    the same order, each of them paired with that document in
    [zip(hashable_corpus, sentences)]. *)
Theorem get_important_sentences_resolves
    (sentences : list SyntacticUnit) (corpus important_docs : list bow) :
  Forall (λ doc, doc ∈ take (length sentences) corpus) important_docs →
  ∃ resolved : list SyntacticUnit,
    _get_important_sentences sentences corpus important_docs = Ok resolved
    ∧ Forall2 (λ doc s, (doc, s) ∈ zip corpus sentences) important_docs resolved.
Proof.
  intros Hdocs. unfold _get_important_sentences.
  rewrite build_hasheable_corpus_id.
  pose proof (mapM_getitem (dict_of_zip corpus sentences) important_docs) as Hmap.
  unfold py_tuple.
  destruct (mapM (getitem (dict_of_zip corpus sentences)) important_docs)
    as [resolved|e].
  - exists resolved. split; [done|].
    eapply Forall2_impl; [exact Hmap|].
    intros doc s. apply dict_of_zip_Some.
  - destruct Hmap as [_ Hmissing]. exfalso.
    apply Exists_exists in Hmissing as (doc & Hin & Hnone).
    apply dict_of_zip_None in Hnone. apply Hnone.
    rewrite Forall_forall in Hdocs. by apply Hdocs.
Qed.

Lemma get_important_sentences_resolves_witness :
  ∃ resolved : list SyntacticUnit,
    _get_important_sentences [Sample.first_unit; Sample.second_unit]
      [Sample.shared_doc; [(1, 2)]] [[(1, 2)]; Sample.shared_doc] = Ok resolved
    ∧ length resolved = 2%nat.
Proof.
  destruct (get_important_sentences_resolves
              [Sample.first_unit; Sample.second_unit]
              [Sample.shared_doc; [(1, 2)]] [[(1, 2)]; Sample.shared_doc])
    as (resolved & Hrun & Hpairs).
  - repeat constructor.
  - exists resolved. split; [exact Hrun|].
    apply Forall2_length in Hpairs. by rewrite <- Hpairs.
Defined.

(** [_get_important_sentences] raises exactly when some ranked document is
    not the document of any sentence, and what it raises is [KeyError]. *)
Theorem get_important_sentences_key_error
    (sentences : list SyntacticUnit) (corpus important_docs : list bow) :
  (∀ e, _get_important_sentences sentences corpus important_docs = Raise e →
        e = KeyError)
  ∧ (_get_important_sentences sentences corpus important_docs = Raise KeyError
     ↔ Exists (λ doc, doc ∉ take (length sentences) corpus) important_docs).
Proof.
  unfold _get_important_sentences. rewrite build_hasheable_corpus_id.
  pose proof (mapM_getitem (dict_of_zip corpus sentences) important_docs) as Hmap.
  unfold py_tuple.
  destruct (mapM (getitem (dict_of_zip corpus sentences)) important_docs)
    as [resolved|e].
  - split; [done|]. split; [done|].
    intros Hmissing. exfalso.
    apply Exists_exists in Hmissing as (doc & Hin & Hnot).
    apply dict_of_zip_None in Hnot.
    apply list_elem_of_lookup_1 in Hin as [i Hi].
    destruct (Forall2_lookup_l _ _ _ _ _ Hmap Hi) as (v & _ & Hv).
    congruence.
  - destruct Hmap as [-> Hmissing]. split; [by intros e [= <-]|].
    split; [|done]. intros _.
    eapply Exists_impl; [exact Hmissing|].
    intros doc. apply dict_of_zip_None.
Qed.

(** ** The corpus ranker: what comes back for any ratio *)

Section RankerFacts.

Context `{Collaborators}.

(** The two ways [summarize_corpus] returns: the empty list, or a leading
    part of the corpus sorted by score, cut at [int(len(corpus) * ratio)]. *)
Lemma summarize_corpus_inv (corpus : list bow) (ratio : number) (docs : list bow) :
  summarize_corpus corpus ratio = Ok docs →
  docs = []
  ∨ ∃ graph k,
      _set_graph_edge_weights (_build_graph (_build_hasheable_corpus corpus)) = Ok graph
      ∧ (3 ≤ length (Graph.nodes (_remove_unreachable_nodes graph)))%nat
      ∧ summary_length (length corpus) ratio = Ok k
      ∧ docs = Py.slice_to
                 (sort_desc (score_of (_pagerank (_remove_unreachable_nodes graph))) corpus)
                 k.
Proof.
  unfold summarize_corpus. rewrite build_hasheable_corpus_id.
  destruct (length corpus =? 0)%nat; [intros [= <-]; by left|].
  destruct (_set_graph_edge_weights (_build_graph corpus)) as [graph|e]; [|done].
  simpl.
  destruct (length (Graph.nodes (_remove_unreachable_nodes graph)) <? 3)%nat eqn:Hfew;
    [intros [= <-]; by left|].
  destruct (summary_length (length corpus) ratio) as [k|e]; [|done]. simpl.
  apply Nat.ltb_ge in Hfew. intros [= <-]. right. exists graph, k.
  split; [done|]. split; [done|]. split; [done|]. unfold py_list. by rewrite map_id.
Qed.

(** With at least 3 nodes left, the result is decided by the slice bound:
    the ranked corpus cut at it, or the exception [int] raises. *)
Lemma summarize_corpus_ranked (corpus : list bow) (ratio : number) (graph : Graph.t) :
  corpus ≠ [] →
  _set_graph_edge_weights (_build_graph (_build_hasheable_corpus corpus)) = Ok graph →
  (3 ≤ length (Graph.nodes (_remove_unreachable_nodes graph)))%nat →
  summarize_corpus corpus ratio
  = (k ← summary_length (length corpus) ratio;
     Ok (Py.slice_to
           (sort_desc (score_of (_pagerank (_remove_unreachable_nodes graph))) corpus)
           k)).
Proof.
  intros Hne Hgraph Hnodes. unfold summarize_corpus.
  rewrite build_hasheable_corpus_id in *.
  destruct (length corpus =? 0)%nat eqn:Hempty.
  { apply Nat.eqb_eq in Hempty. by destruct corpus. }
  rewrite Hgraph. simpl.
  destruct (length (Graph.nodes (_remove_unreachable_nodes graph)) <? 3)%nat eqn:Hfew.
  { apply Nat.ltb_lt in Hfew. lia. }
  destruct (summary_length (length corpus) ratio) as [k|e]; [|done]. simpl.
  unfold py_list. by rewrite map_id.
Qed.

End RankerFacts.

Lemma slice_to_sublist {A} (l : list A) (k : Z) : Py.slice_to l k `sublist_of` l.
Proof. unfold Py.slice_to. destruct (0 <=? k); apply sublist_take. Qed.

(** Whatever the ratio (also negative or above 1), the documents returned
    are documents of the corpus, none of them more often than it occurs in
    the corpus; in particular there are never more than [len(corpus)]. *)
Theorem summarize_corpus_within_corpus `{Collaborators}
    (corpus : list bow) (ratio : number) (docs : list bow) :
  summarize_corpus corpus ratio = Ok docs →
  docs ⊆+ corpus ∧ (length docs ≤ length corpus)%nat.
Proof.
  intros Hrun.
  assert (Hsub : docs ⊆+ corpus).
  { destruct (summarize_corpus_inv corpus ratio docs Hrun)
      as [-> | (graph & k & _ & _ & _ & ->)].
    - apply submseteq_nil_l.
    - etrans; [apply sublist_submseteq, slice_to_sublist|].
      apply Permutation_submseteq, sort_desc_Permutation. }
  split; [done|]. by apply submseteq_length.
Qed.

Lemma summarize_corpus_within_corpus_witness :
  ∃ docs : list bow,
    @summarize_corpus Sample.collaborators Sample.corpus3 (Exact 7) = Ok docs
    ∧ docs ⊆+ Sample.corpus3.
Proof.
  eexists. split; [vm_compute; reflexivity|].
  apply (@summarize_corpus_within_corpus Sample.collaborators Sample.corpus3 (Exact 7)).
  vm_compute. reflexivity.
Defined.

Lemma binary_round_aux_sign (sx : bool) (M E : Z) (l : location) :
  match binary_round_aux 53 1024 sx M E l with
  | S754_zero s | S754_infinity s | S754_finite s _ _ => s = sx
  | S754_nan => True
  end.
Proof.
  unfold binary_round_aux.
  destruct (shr_fexp 53 1024 M E l) as [R' e'].
  destruct (shr_fexp 53 1024 _ e' loc_Exact) as [R'' e''].
  destruct (shr_m R''); [done| |done].
  by destruct (e'' <=? 1024 - 53).
Qed.

(** The conversion of a natural number gives no negative float. *)
Lemma float_of_int_sign (n : nat) :
  match Py.float_of_int (Z.of_nat n) with
  | S754_zero s | S754_infinity s | S754_finite s _ _ => s = false
  | S754_nan => True
  end.
Proof.
  destruct (Z.of_nat n) as [|p|p] eqn:Hn; [done| |lia].
  unfold Py.float_of_int, binary_normalize, binary_round.
  destruct (shl_align p 0 _) as [mz ez]. apply binary_round_aux_sign.
Qed.

(** Truncation keeps the sign. *)
Lemma trunc_nonpos (q : Q) : (q <= 0)%Q → Py.trunc q ≤ 0.
Proof.
  intros Hq. unfold Py.trunc. destruct (Qle_bool 0 q).
  - apply Qfloor_resp_le in Hq. exact Hq.
  - apply Qceiling_resp_le in Hq. exact Hq.
Qed.

(** For a negative ratio, [int(len(corpus) * ratio)], when it is defined, is
    not positive. *)
Lemma summary_length_nonpos (n : nat) (ratio : number) (q : Q) (k : Z) :
  Py.value ratio = Some q → (q < 0)%Q → summary_length n ratio = Ok k → k ≤ 0.
Proof.
  intros Hvalue Hneg. unfold summary_length. destruct ratio as [r|f].
  - injection Hvalue as ->. cbn [Py.mul_int Py.int]. intros [= <-].
    apply trunc_nonpos.
    rewrite <- (Qmult_0_r (inject_Z (Z.of_nat n))).
    rewrite (Qmult_comm _ q), (Qmult_comm _ 0).
    apply Qmult_le_compat_r; [by apply Qlt_le_weak|].
    change 0%Q with (inject_Z 0). rewrite <- Zle_Qle. lia.
  - destruct f as [s|s| |s m e]; cbn [Py.value] in Hvalue; try done.
    { injection Hvalue as <-. by apply Qlt_irrefl in Hneg. }
    injection Hvalue as <-.
    destruct s; cbn [cond_Zopp] in Hneg.
    2: { apply Qlt_not_le in Hneg. destruct Hneg. apply scaled_sign. lia. }
    cbn [Py.mul_int]. unfold Py.float_mul, SFmul.
    pose proof (float_of_int_sign n) as Hsign.
    destruct (Py.float_of_int (Z.of_nat n)) as [s|s| |s mn en]; try done.
    + subst s. cbn [xorb Py.int]. intros [= <-]. done.
    + subst s. cbn [xorb].
      pose proof (binary_round_aux_sign true (Z.pos (mn * m)) (en + e) loc_Exact)
        as Hprod.
      destruct (binary_round_aux 53 1024 true (Z.pos (mn * m)) (en + e) loc_Exact)
        as [s|s| |s m' e']; cbn [Py.int]; try done.
      * intros [= <-]. done.
      * subst s. intros [= <-]. cbn [cond_Zopp].
        pose proof (Z.shiftl_nonneg (Z.pos m') e'). lia.
Qed.

(** For a ratio of at least 1 whose product with [len(corpus)] is finite,
    [int(len(corpus) * ratio)] is at least [len(corpus)]. *)
Lemma summary_length_whole (n : nat) (ratio : number) (q : Q) :
  Py.value ratio = Some q → (1 <= q)%Q → length_fits n ratio →
  is_Some (Py.value (Py.mul_int (Z.of_nat n) ratio)) →
  ∃ k, summary_length n ratio = Ok k ∧ Z.of_nat n ≤ k.
Proof.
  intros Hvalue Hle Hfits [p Hp].
  assert (Hn : (0 <= inject_Z (Z.of_nat n))%Q).
  { change 0%Q with (inject_Z 0). rewrite <- Zle_Qle. lia. }
  assert (Hlower : (inject_Z (Z.of_nat n) <= p)%Q).
  { destruct ratio as [r|f].
    - injection Hvalue as ->. injection Hp as <-.
      rewrite <- (Qmult_1_r (inject_Z (Z.of_nat n))) at 1.
      rewrite (Qmult_comm _ 1), (Qmult_comm _ q).
      by apply Qmult_le_compat_r.
    - destruct (float_at_least_one f q Hvalue Hle) as (m & e & -> & Hm).
      simpl in Hfits. cbn [Py.mul_int] in Hp.
      destruct (decide (n = 0%nat)) as [->|Hne].
      { injection Hp as <-. done. }
      destruct (float_mul_int_lower (Z.of_nat n) m e)
        as [Hinf|(m' & e' & Heq & Hm')]; [lia|done| |].
      + rewrite Hinf in Hp. done.
      + rewrite Heq in Hp. injection Hp as <-. by apply scaled_ge. }
  exists (Qfloor p). split.
  - unfold summary_length. rewrite (int_trunc _ p Hp).
    rewrite trunc_nonneg; [done|]. by eapply Qle_trans.
  - apply Qfloor_resp_le in Hlower. by rewrite Qfloor_Z in Hlower.
Qed.

(** With a ratio of 1 or more (the value [summarize] passes when a word or
    sentence target is given) and at least 3 nodes left after pruning, the
    whole corpus comes back, reordered by descending score.  For a float
    ratio this needs [len(corpus)] below [2^53] and a product that does not
    overflow; for an exact ratio it needs nothing more. *)
Theorem summarize_corpus_whole_corpus `{Collaborators}
    (corpus : list bow) (ratio : number) (q : Q) (graph : Graph.t) :
  Py.value ratio = Some q → (1 <= q)%Q →
  length_fits (length corpus) ratio →
  is_Some (Py.value (Py.mul_int (Z.of_nat (length corpus)) ratio)) →
  _set_graph_edge_weights (_build_graph (_build_hasheable_corpus corpus)) = Ok graph →
  (3 ≤ length (Graph.nodes (_remove_unreachable_nodes graph)))%nat →
  ∃ docs : list bow,
    summarize_corpus corpus ratio = Ok docs
    ∧ docs ≡ₚ corpus
    ∧ StronglySorted (score_ge (_pagerank (_remove_unreachable_nodes graph))) docs.
Proof.
  intros Hvalue Hratio Hfits Hfinite Hgraph Hnodes.
  destruct corpus as [|doc corpus]; [exists []; by repeat split; constructor|].
  destruct (summary_length_whole (length (doc :: corpus)) ratio q
              Hvalue Hratio Hfits Hfinite) as (k & Hk & Hlen).
  eexists. split.
  { rewrite (summarize_corpus_ranked _ ratio graph) by done. rewrite Hk. reflexivity. }
  unfold Py.slice_to.
  destruct (0 <=? k) eqn:Hsign; [|apply Z.leb_gt in Hsign; lia].
  rewrite take_ge by (rewrite sort_desc_length; lia).
  split; [apply sort_desc_Permutation | apply sort_desc_sorted].
Qed.

Lemma summarize_corpus_whole_corpus_witness :
  ∃ docs : list bow,
    @summarize_corpus Sample.collaborators Sample.corpus3 (Exact 1) = Ok docs
    ∧ docs ≡ₚ Sample.corpus3.
Proof.
  destruct (@summarize_corpus_whole_corpus Sample.collaborators
              Sample.corpus3 (Exact 1) 1 Sample.graph3)
    as (docs & Hrun & Hperm & _).
  - reflexivity.
  - discriminate.
  - exact I.
  - by eexists.
  - vm_compute. reflexivity.
  - vm_compute. lia.
  - exists docs. split; [exact Hrun | exact Hperm].
Defined.

(** A negative ratio is not refused.  When [int(len(corpus) * ratio)] is
    defined, it is a slice bound [k <= 0] (for an exact ratio, the ceiling
    of the product); a negative [k] keeps all of the ranked corpus but its
    last [-k] documents, the lowest-ranked ones, instead of keeping none;
    only a bound that truncates to 0 gives the empty list. *)
Theorem summarize_corpus_negative_ratio `{Collaborators}
    (corpus : list bow) (ratio : number) (q : Q) (k : Z) (graph : Graph.t) :
  Py.value ratio = Some q → (q < 0)%Q →
  summary_length (length corpus) ratio = Ok k →
  _set_graph_edge_weights (_build_graph (_build_hasheable_corpus corpus)) = Ok graph →
  (3 ≤ length (Graph.nodes (_remove_unreachable_nodes graph)))%nat →
  let scores := _pagerank (_remove_unreachable_nodes graph) in
  k ≤ 0
  ∧ (∀ r, ratio = Exact r →
       k = Qceiling (inject_Z (Z.of_nat (length corpus)) * r))
  ∧ ∃ docs ranked : list bow,
      summarize_corpus corpus ratio = Ok docs
      ∧ ranked ≡ₚ corpus
      ∧ StronglySorted (score_ge scores) ranked
      ∧ docs = (if k <? 0 then take (length corpus - Z.to_nat (- k))%nat ranked else [])
      ∧ length docs = if k <? 0 then (length corpus - Z.to_nat (- k))%nat else 0%nat.
Proof.
  intros Hvalue Hneg Hint Hgraph Hnodes scores.
  pose proof (summary_length_nonpos _ _ _ _ Hvalue Hneg Hint) as Hk.
  split; [done|]. split.
  { intros r ->. injection Hvalue as ->.
    unfold summary_length in Hint. cbn [Py.mul_int Py.int] in Hint.
    injection Hint as <-. unfold Py.trunc.
    destruct (Qle_bool 0 (inject_Z (Z.of_nat (length corpus)) * q)) eqn:Hguard; [|done].
    apply Qle_bool_iff in Hguard.
    assert (Hzero : (inject_Z (Z.of_nat (length corpus)) * q <= 0)%Q).
    { rewrite <- (Qmult_0_r (inject_Z (Z.of_nat (length corpus)))).
      rewrite (Qmult_comm _ q), (Qmult_comm _ 0).
      apply Qmult_le_compat_r; [by apply Qlt_le_weak|].
      change 0%Q with (inject_Z 0). rewrite <- Zle_Qle. lia. }
    pose proof (Qfloor_resp_le _ _ Hguard) as Hlow.
    pose proof (Qceiling_resp_le _ _ Hzero) as Hup.
    pose proof (Qle_floor_ceiling (inject_Z (Z.of_nat (length corpus)) * q)) as Hfc.
    rewrite <- Zle_Qle in Hfc.
    change (Qfloor 0) with 0 in Hlow. change (Qceiling 0) with 0 in Hup.
    lia. }
  set (ranked := sort_desc (score_of scores) corpus).
  exists (if k <? 0 then take (length corpus - Z.to_nat (- k))%nat ranked else []), ranked.
  assert (Hlen : length ranked = length corpus) by apply sort_desc_length.
  split.
  { destruct corpus as [|doc corpus].
    - unfold summarize_corpus. simpl. by destruct (k <? 0).
    - rewrite (summarize_corpus_ranked _ ratio graph) by done.
      rewrite Hint. unfold mbind, result_bind, Py.bind.
      f_equal. fold scores. fold ranked. unfold Py.slice_to.
      destruct (k <? 0) eqn:Hsign.
      + apply Z.ltb_lt in Hsign.
        destruct (0 <=? k) eqn:Hpos; [apply Z.leb_le in Hpos; lia|].
        f_equal. rewrite Hlen. lia.
      + apply Z.ltb_ge in Hsign. assert (k = 0) as -> by lia. done. }
  split; [apply sort_desc_Permutation|].
  split; [apply sort_desc_sorted|].
  split; [done|].
  destruct (k <? 0); [|done]. rewrite length_take, Hlen. lia.
Qed.

(** Five documents and the float -0.6: the bound is -3, and the two
    highest-ranked documents are returned. *)
Lemma summarize_corpus_negative_ratio_witness :
  ∃ docs : list bow,
    @summarize_corpus Sample.collaborators Sample.corpus5 Sample.minus_three_fifths
    = Ok docs
    ∧ length docs = 2%nat.
Proof.
  destruct (@summarize_corpus_negative_ratio Sample.collaborators
              Sample.corpus5 Sample.minus_three_fifths
              (- 5404319552844595 # 9007199254740992) (-3) Sample.graph5)
    as (_ & _ & docs & ranked & Hrun & _ & _ & _ & Hlen).
  - vm_compute. reflexivity.
  - reflexivity.
  - vm_compute. reflexivity.
  - vm_compute. reflexivity.
  - vm_compute. lia.
  - exists docs. split; [exact Hrun|]. etrans; [exact Hlen | reflexivity].
Defined.

Lemma sort_desc_tied {A} (key : A → Q) (l : list A) :
  (∀ a b, a ∈ l → b ∈ l → (key a == key b)%Q) → sort_desc key l = l.
Proof.
  induction l as [|x l IH]; intros Htied; [done|].
  simpl. rewrite IH by (intros a b Ha Hb; apply Htied; by right).
  destruct l as [|y l]; [done|]. simpl.
  destruct (Qlt_bool (key x) (key y)) eqn:Hcmp; [|done].
  apply Qlt_bool_true in Hcmp.
  rewrite (Htied x y) in Hcmp by (repeat constructor).
  by apply Qlt_irrefl in Hcmp.
Qed.

(** When all documents of the corpus have the same score (as on a graph the
    fallback made uniform), ranking changes nothing: the documents returned
    are the leading documents of the corpus, in corpus order, cut at the
    slice bound [k = int(len(corpus) * ratio)]. *)
Theorem summarize_corpus_tied_scores `{Collaborators}
    (corpus : list bow) (ratio : number) (graph : Graph.t) :
  _set_graph_edge_weights (_build_graph (_build_hasheable_corpus corpus)) = Ok graph →
  (3 ≤ length (Graph.nodes (_remove_unreachable_nodes graph)))%nat →
  (∀ a b, a ∈ corpus → b ∈ corpus →
     (score_of (_pagerank (_remove_unreachable_nodes graph)) a
      == score_of (_pagerank (_remove_unreachable_nodes graph)) b)%Q) →
  ∀ k, summary_length (length corpus) ratio = Ok k →
       summarize_corpus corpus ratio = Ok (Py.slice_to corpus k).
Proof.
  intros Hgraph Hnodes Htied k Hk.
  destruct corpus as [|doc corpus].
  { unfold summarize_corpus. simpl. unfold Py.slice_to.
    destruct (0 <=? k); by rewrite take_nil. }
  rewrite (summarize_corpus_ranked _ ratio graph) by done.
  rewrite Hk. unfold mbind, result_bind, Py.bind. by rewrite sort_desc_tied.
Qed.

Lemma summarize_corpus_tied_scores_witness :
  @summarize_corpus Sample.collaborators Sample.disjoint_corpus (Exact (2 # 3))
  = Ok (take 2 Sample.disjoint_corpus).
Proof.
  etrans.
  - apply (@summarize_corpus_tied_scores Sample.collaborators
             Sample.disjoint_corpus (Exact (2 # 3)) Sample.disjoint_graph) with (k := 2).
    + vm_compute. reflexivity.
    + vm_compute. lia.
    + intros a b Ha Hb. vm_compute in Ha, Hb.
      repeat (apply elem_of_cons in Ha as [-> | Ha]);
        try (by apply not_elem_of_nil in Ha);
        repeat (apply elem_of_cons in Hb as [-> | Hb]);
        try (by apply not_elem_of_nil in Hb);
        vm_compute; reflexivity.
    + vm_compute. reflexivity.
  - vm_compute. reflexivity.
Defined.

(** ** The graph weighter: the rebuilt graph and repeated weighting *)

Lemma graph_eq (g g' : Graph.t) :
  Graph.nodes g = Graph.nodes g' →
  Graph.edge_properties g = Graph.edge_properties g' →
  g = g'.
Proof. destruct g, g'. simpl. by intros -> ->. Qed.

Lemma joined_all (nodes : list Node) (e : Node * Node) :
  NoDup nodes →
  joined nodes (λ a b, (a < length nodes)%nat ∧ (b < length nodes)%nat) e
  ↔ e.1 ≠ e.2 ∧ e.1 ∈ nodes ∧ e.2 ∈ nodes.
Proof.
  intros Hnodup. split.
  - intros (i & j & u & v & _ & Hij & Hu & Hv & He).
    assert (u ≠ v).
    { intros ->. apply Hij. by eapply NoDup_lookup. }
    apply list_elem_of_lookup_2 in Hu, Hv.
    destruct He as [-> | ->]; simpl; by repeat split.
  - destruct e as [u v]. simpl. intros (Huv & Hu & Hv).
    apply list_elem_of_lookup_1 in Hu as [i Hi].
    apply list_elem_of_lookup_1 in Hv as [j Hj].
    exists i, j, u, v. split.
    + split; by eapply lookup_lt_Some.
    + split; [congruence|]. split; [done|]. split; [done|]. by left.
Qed.

(** The rebuilt graph in closed form. *)
Lemma create_valid_graph_lookup (g : Graph.t) (e : Node * Node) :
  graph_wf g →
  Graph.edge_properties (_create_valid_graph g) !! e
  = if decide (e.1 ≠ e.2 ∧ e.1 ∈ Graph.nodes g ∧ e.2 ∈ Graph.nodes g)
    then Some 1%Q else None.
Proof.
  intros Hwf.
  destruct (create_valid_graph_completing g) as [Hn Hone Hother].
  pose proof (joined_all (Graph.nodes g) e (wf_nodup g Hwf)) as Hjoined.
  destruct (decide (e.1 ≠ e.2 ∧ e.1 ∈ Graph.nodes g ∧ e.2 ∈ Graph.nodes g))
    as [Hyes|Hno].
  - apply Hone. by apply Hjoined.
  - destruct (Graph.edge_properties (_create_valid_graph g) !! e) as [w|] eqn:Hew;
      [|done].
    exfalso. apply Hno.
    destruct (Hother e w Hew) as [Hold|[_ Hj]]; [|by apply Hjoined].
    destruct e as [u v]. simpl.
    destruct (wf_closed g Hwf u v) as [Hu Hv]; [by rewrite Hold|].
    split; [|done]. intros ->. by rewrite (wf_irrefl g Hwf) in Hold.
Qed.

Lemma create_valid_graph_nodes (g : Graph.t) :
  Graph.nodes (_create_valid_graph g) = Graph.nodes g.
Proof. apply (cpl_nodes _ _ _ (create_valid_graph_completing g)). Qed.

Lemma create_valid_graph_wf (g : Graph.t) :
  graph_wf g → graph_wf (_create_valid_graph g).
Proof.
  intros Hwf. split.
  - rewrite create_valid_graph_nodes. apply (wf_nodup g Hwf).
  - intros u v. rewrite !create_valid_graph_lookup by done. simpl.
    destruct (decide (u ≠ v ∧ u ∈ Graph.nodes g ∧ v ∈ Graph.nodes g)) as [Huv|Huv];
      destruct (decide (v ≠ u ∧ v ∈ Graph.nodes g ∧ u ∈ Graph.nodes g)) as [Hvu|Hvu];
      [done | exfalso; apply Hvu; naive_solver | exfalso; apply Huv; naive_solver | done].
  - intros u. rewrite create_valid_graph_lookup by done. simpl.
    destruct (decide (u ≠ u ∧ u ∈ Graph.nodes g ∧ u ∈ Graph.nodes g)) as [[Hne _]|_];
      done.
  - intros u v. rewrite create_valid_graph_lookup, create_valid_graph_nodes by done.
    simpl.
    destruct (decide (u ≠ v ∧ u ∈ Graph.nodes g ∧ v ∈ Graph.nodes g)) as [Huv|_].
    + naive_solver.
    + by intros [? ?].
  - intros e w. rewrite create_valid_graph_lookup by done.
    destruct (decide _); [|done]. by intros [= <-].
Qed.

(** [_create_valid_graph] forgets the edges it is given: graphs on the same
    nodes are rebuilt into the same graph, and rebuilding a rebuilt graph
    changes nothing. *)
Theorem create_valid_graph_depends_on_nodes_only (g g' : Graph.t) :
  graph_wf g → graph_wf g' →
  Graph.nodes g = Graph.nodes g' →
  _create_valid_graph g = _create_valid_graph g'
  ∧ _create_valid_graph (_create_valid_graph g) = _create_valid_graph g.
Proof.
  intros Hwf Hwf' Hnodes.
  assert (Hsame : ∀ g1 g2, graph_wf g1 → graph_wf g2 →
            Graph.nodes g1 = Graph.nodes g2 →
            _create_valid_graph g1 = _create_valid_graph g2).
  { intros g1 g2 Hwf1 Hwf2 Hn. apply graph_eq.
    - by rewrite !create_valid_graph_nodes.
    - apply map_eq. intros e. rewrite !create_valid_graph_lookup by done.
      by rewrite Hn. }
  split; [by apply Hsame|].
  apply Hsame; [by apply create_valid_graph_wf | done |].
  apply create_valid_graph_nodes.
Qed.

Lemma create_valid_graph_depends_on_nodes_only_witness :
  _create_valid_graph Sample.weighted3
  = _create_valid_graph (_build_graph (_build_hasheable_corpus Sample.corpus3)).
Proof.
  apply (create_valid_graph_depends_on_nodes_only Sample.weighted3
           (_build_graph (_build_hasheable_corpus Sample.corpus3))).
  - apply (weighting_pass_weighted (H := Sample.collaborators)
             (_build_graph (_build_hasheable_corpus Sample.corpus3))).
    + apply build_graph_wf.
    + vm_compute. reflexivity.
  - apply build_graph_wf.
  - vm_compute. reflexivity.
Defined.

Lemma threshold_pos w : (WEIGHT_THRESHOLD <= w)%Q → (0 < w)%Q.
Proof. intros Hw. eapply Qlt_le_trans; [|exact Hw]. reflexivity. Qed.

Lemma all_weights_zero_false (g : Graph.t) :
  all_weights_zero g = false →
  ∃ e w, Graph.edge_properties g !! e = Some w ∧ ¬ (w == 0)%Q.
Proof.
  unfold all_weights_zero, Graph.iter_edges.
  induction (map_to_list (Graph.edge_properties g)) as [|[e w] l IH]; simpl;
    [done|].
  destruct (Qeq_bool (Graph.edge_weight g e) 0) eqn:Hzero; simpl; [exact IH|].
  intros _. unfold Graph.edge_weight in Hzero.
  destruct (Graph.edge_properties g !! e) as [w'|] eqn:He; [|done].
  exists e, w'. split; [done|]. simpl in Hzero.
  intros Heq. apply Qeq_bool_iff in Heq. congruence.
Qed.

(** Whatever the scores, the graph [_set_graph_edge_weights] makes of a
    freshly built graph has its nodes unchanged, only positive weights, and
    at least one edge as soon as it has two nodes: ranking never receives a
    graph of several nodes without edges. *)
Theorem set_graph_edge_weights_fresh `{Collaborators}
    (sequence : list Node) (graph : Graph.t) :
  _set_graph_edge_weights (_build_graph sequence) = Ok graph →
  graph_wf graph
  ∧ Graph.nodes graph = Graph.nodes (_build_graph sequence)
  ∧ (∀ e w, Graph.edge_properties graph !! e = Some w → (0 < w)%Q)
  ∧ ((2 ≤ length (Graph.nodes graph))%nat →
     ∃ e, is_Some (Graph.edge_properties graph !! e)).
Proof.
  destruct (build_graph_wf sequence) as [Hwf0 Hempty].
  unfold _set_graph_edge_weights, mbind, result_bind, Py.bind.
  destruct (weighting_pass (_build_graph sequence)) as [g1|e] eqn:Hpass; [|done].
  destruct (weighting_pass_weighted _ _ Hwf0 Hpass) as [Hwf1 Hnodes1 _ Hthr].
  destruct (all_weights_zero g1) eqn:Hzero; intros [= <-].
  - split; [by apply create_valid_graph_wf|].
    split; [by rewrite create_valid_graph_nodes|].
    split.
    + intros e w. rewrite create_valid_graph_lookup by done.
      destruct (decide _); [|done]. by intros [= <-].
    + rewrite create_valid_graph_nodes. intros Htwo.
      destruct (Graph.nodes g1) as [|u [|v nodes]] eqn:Hn; simpl in Htwo; [lia..|].
      exists (u, v). rewrite create_valid_graph_lookup by done. simpl.
      pose proof (wf_nodup g1 Hwf1) as Hnodup. rewrite Hn in *.
      apply NoDup_cons in Hnodup as [Hu _].
      destruct (decide (u ≠ v ∧ u ∈ u :: v :: nodes ∧ v ∈ u :: v :: nodes))
        as [_|Hno]; [done|].
      exfalso. apply Hno. split; [|split; [left | right; left]].
      intros ->. apply Hu. by left.
  - split; [done|]. split; [done|]. split.
    + intros e w Hew. destruct (Hthr e w Hew) as [Hold|Hnew].
      * by rewrite Hempty, lookup_empty in Hold.
      * by apply threshold_pos.
    + intros _. destruct (all_weights_zero_false g1 Hzero) as (e & w & Hew & _).
      exists e. by rewrite Hew.
Qed.

Lemma set_graph_edge_weights_fresh_witness :
  graph_wf Sample.disjoint_graph
  ∧ ∃ e, is_Some (Graph.edge_properties Sample.disjoint_graph !! e).
Proof.
  destruct (@set_graph_edge_weights_fresh Sample.collaborators
              (_build_hasheable_corpus Sample.disjoint_corpus) Sample.disjoint_graph)
    as (Hwf & _ & _ & Hedge).
  - vm_compute. reflexivity.
  - split; [exact Hwf|]. apply Hedge. vm_compute. lia.
Defined.

(** Whether the loops raise does not depend on the graph they run on. *)
Lemma weigh_entry_ok_any documents i g g' entry (g2 : Graph.t) :
  weigh_entry documents i g entry = Ok g' →
  ∃ g2', weigh_entry documents i g2 entry = Ok g2'.
Proof.
  destruct entry as [j weight]. unfold weigh_entry, item.
  destruct ((i =? j)%nat || Qlt_bool weight WEIGHT_THRESHOLD); [by eexists|].
  destruct (documents !! i) as [di|]; [|done].
  destruct (documents !! j) as [dj|]; [|done]. simpl. intros _.
  destruct (negb (Graph.has_edge g2 (di, dj))); by eexists.
Qed.

Lemma weigh_row_ok_any documents i doc_bow g g' (g2 : Graph.t) :
  weigh_row documents i doc_bow g = Ok g' →
  ∃ g2', weigh_row documents i doc_bow g2 = Ok g2'.
Proof.
  revert g g2. induction doc_bow as [|entry rest IH]; intros g g2; simpl;
    [by eexists|].
  unfold mbind, result_bind, Py.bind.
  destruct (weigh_entry documents i g entry) as [g1|] eqn:Hentry; [|done].
  destruct (weigh_entry_ok_any _ _ _ _ _ g2 Hentry) as [g3 ->].
  apply IH.
Qed.

Lemma weigh_rows_ok_any documents i weights g g' (g2 : Graph.t) :
  weigh_rows documents i weights g = Ok g' →
  ∃ g2', weigh_rows documents i weights g2 = Ok g2'.
Proof.
  revert i g g2. induction weights as [|doc_bow rest IH]; intros i g g2; simpl;
    [by eexists|].
  unfold mbind, result_bind, Py.bind.
  destruct (weigh_row documents i doc_bow g) as [g1|] eqn:Hrow; [|done].
  destruct (weigh_row_ok_any _ _ _ _ _ g2 Hrow) as [g3 ->].
  apply IH.
Qed.

(** Weighting a graph that already joins every pair the table would join
    leaves it as it is. *)
Lemma weighting_pass_saturated `{Collaborators} (g g1 c : Graph.t) :
  graph_wf g → weighting_pass g = Ok g1 →
  graph_wf c → Graph.nodes c = Graph.nodes g →
  (∀ u v, is_Some (Graph.edge_properties g1 !! (u, v)) →
          is_Some (Graph.edge_properties c !! (u, v))) →
  weighting_pass c = Ok c.
Proof.
  intros Hwf Hpass Hwfc Hnodes Hcovers.
  destruct (weighting_pass_weighted g g1 Hwf Hpass) as [_ _ Hedges1 _].
  unfold weighting_pass in *. rewrite Hnodes.
  destruct (weigh_rows_ok_any _ _ _ _ _ c Hpass) as [c2 Hpass2].
  rewrite Hpass2. f_equal.
  assert (Hc2 : weighted_from c c2
                  (candidates (Graph.nodes g) 0 (_bm25_weights (Graph.nodes g))))
    by (apply weigh_rows_weighted; done).
  destruct Hc2 as [_ Hnodes2 Hedges2 _].
  apply graph_eq; [done|].
  apply map_eq. intros [u v]. rewrite Hedges2.
  destruct (Graph.edge_properties c !! (u, v)) as [w|] eqn:Hc; [done|]. simpl.
  destruct (first_weight (candidates (Graph.nodes g) 0 (_bm25_weights (Graph.nodes g)))
              u v) as [w|] eqn:Hfirst; [|done].
  exfalso. destruct (Hcovers u v) as [w' Hw']; [|congruence].
  rewrite Hedges1, Hfirst. by destruct (Graph.edge_properties g !! (u, v)).
Qed.

(** [_set_graph_edge_weights] is idempotent: run again on the graph it
    produced, it returns that graph unchanged. *)
Theorem set_graph_edge_weights_idempotent `{Collaborators} (graph graph' : Graph.t) :
  graph_wf graph →
  _set_graph_edge_weights graph = Ok graph' →
  _set_graph_edge_weights graph' = Ok graph'.
Proof.
  intros Hwf. unfold _set_graph_edge_weights at 1.
  unfold mbind, result_bind, Py.bind.
  destruct (weighting_pass graph) as [g1|e] eqn:Hpass; [|done].
  destruct (weighting_pass_weighted graph g1 Hwf Hpass) as [Hwf1 Hnodes1 _ _].
  destruct (all_weights_zero g1) eqn:Hzero; intros [= <-].
  - assert (Hagain : weighting_pass (_create_valid_graph g1) = Ok (_create_valid_graph g1)).
    { apply (weighting_pass_saturated graph g1); [done | done | | |].
      - by apply create_valid_graph_wf.
      - by rewrite create_valid_graph_nodes.
      - intros u v Huv. rewrite create_valid_graph_lookup by done. simpl.
        destruct (wf_closed g1 Hwf1 u v Huv) as [Hu Hv].
        destruct (decide (u ≠ v ∧ u ∈ Graph.nodes g1 ∧ v ∈ Graph.nodes g1))
          as [_|Hno]; [done|].
        exfalso. apply Hno. split; [|done].
        intros ->. rewrite (wf_irrefl g1 Hwf1) in Huv. by destruct Huv. }
    unfold _set_graph_edge_weights, mbind, result_bind, Py.bind.
    rewrite Hagain.
    destruct (all_weights_zero (_create_valid_graph g1)); [|done]. f_equal.
    apply graph_eq.
    + by rewrite !create_valid_graph_nodes.
    + apply map_eq. intros e.
      rewrite !create_valid_graph_lookup by (try apply create_valid_graph_wf; done).
      by rewrite create_valid_graph_nodes.
  - assert (Hagain : weighting_pass g1 = Ok g1)
      by (apply (weighting_pass_saturated graph g1); done).
    unfold _set_graph_edge_weights, mbind, result_bind, Py.bind.
    by rewrite Hagain, Hzero.
Qed.

Lemma set_graph_edge_weights_idempotent_witness :
  @_set_graph_edge_weights Sample.collaborators Sample.graph3 = Ok Sample.graph3.
Proof.
  apply (@set_graph_edge_weights_idempotent Sample.collaborators
           (_build_graph (_build_hasheable_corpus Sample.corpus3)) Sample.graph3).
  - apply build_graph_wf.
  - vm_compute. reflexivity.
Defined.

(** ** The corpus ranker: when it returns nothing, when it cannot raise *)

Lemma build_graph_nodes (sequence : list Node) (x : Node) :
  x ∈ Graph.nodes (_build_graph sequence) ↔ x ∈ sequence.
Proof.
  unfold _build_graph.
  assert (Hgen : ∀ g,
    x ∈ Graph.nodes
          (foldl (fun graph item =>
                    if Graph.has_node graph item then graph
                    else Graph.add_node graph item) g sequence)
    ↔ x ∈ Graph.nodes g ∨ x ∈ sequence).
  { induction sequence as [|item rest IH]; intros g; simpl.
    - split; [by left|]. intros [?|Hnil]; [done|]. by apply not_elem_of_nil in Hnil.
    - rewrite IH. unfold Graph.has_node. case_bool_decide as Hin; simpl.
      + rewrite elem_of_cons. split; [naive_solver|].
        intros [?|[->|?]]; [by left | by left | by right].
      + rewrite elem_of_app, list_elem_of_singleton, elem_of_cons. naive_solver. }
  rewrite Hgen. simpl. split; [|by right].
  intros [Hnil|?]; [|done]. by apply not_elem_of_nil in Hnil.
Qed.

Lemma build_graph_node_count (sequence : list Node) :
  length (Graph.nodes (_build_graph sequence))
  = size (list_to_set sequence : gset Node).
Proof.
  destruct (build_graph_wf sequence) as [Hwf _].
  rewrite <- (size_list_to_set (C := gset Node) _ (wf_nodup _ Hwf)).
  f_equal. apply leibniz_equiv. intros x.
  rewrite !elem_of_list_to_set. apply build_graph_nodes.
Qed.

Lemma set_graph_edge_weights_nodes `{Collaborators} (g g' : Graph.t) :
  graph_wf g → _set_graph_edge_weights g = Ok g' →
  Graph.nodes g' = Graph.nodes g.
Proof.
  intros Hwf. unfold _set_graph_edge_weights, mbind, result_bind, Py.bind.
  destruct (weighting_pass g) as [g1|e] eqn:Hpass; [|done].
  destruct (weighting_pass_weighted g g1 Hwf Hpass) as [_ Hnodes _ _].
  destruct (all_weights_zero g1); intros [= <-]; [|done].
  by rewrite create_valid_graph_nodes.
Qed.

(** Without three nodes in the built graph, nothing is ranked. *)
Lemma summarize_corpus_few_nodes `{Collaborators}
    (corpus : list bow) (ratio : number) (docs : list bow) :
  (∀ g, (length (Graph.nodes (_remove_unreachable_nodes g))
         ≤ length (Graph.nodes g))%nat) →
  (length (Graph.nodes (_build_graph corpus)) < 3)%nat →
  summarize_corpus corpus ratio = Ok docs →
  docs = [].
Proof.
  intros Hprune Hfew Hrun.
  destruct (summarize_corpus_inv corpus ratio docs Hrun)
    as [-> | (graph & k & Hgraph & Hnodes & _)]; [done|].
  exfalso. rewrite build_hasheable_corpus_id in Hgraph.
  pose proof (Hprune graph) as Hle.
  rewrite (set_graph_edge_weights_nodes _ _ (proj1 (build_graph_wf corpus)) Hgraph)
    in Hle.
  lia.
Qed.

(** A corpus with fewer than three distinct documents is never ranked: as
    long as pruning only removes nodes, [summarize_corpus] returns the empty
    list for it, whatever the ratio. *)
Theorem summarize_corpus_few_documents `{Collaborators}
    (corpus : list bow) (ratio : number) (docs : list bow) :
  (∀ g, (length (Graph.nodes (_remove_unreachable_nodes g))
         ≤ length (Graph.nodes g))%nat) →
  (size (list_to_set corpus : gset Node) < 3)%nat →
  summarize_corpus corpus ratio = Ok docs →
  docs = [].
Proof.
  intros Hprune Hfew. apply summarize_corpus_few_nodes; [done|].
  by rewrite build_graph_node_count.
Qed.

Lemma summarize_corpus_few_documents_witness :
  @summarize_corpus Sample.collaborators Sample.repeated_corpus (Exact 1) = Ok []
  ∧ ([] : list bow) = [].
Proof.
  assert (Hrun : @summarize_corpus Sample.collaborators Sample.repeated_corpus (Exact 1) = Ok [])
    by (vm_compute; reflexivity).
  split; [exact Hrun|].
  apply (@summarize_corpus_few_documents Sample.collaborators
           Sample.repeated_corpus (Exact 1) []).
  - intros g. apply length_filter.
  - vm_compute. lia.
  - exact Hrun.
Defined.

(** [summarize_corpus] raises nothing when the scoring table has at most one
    row per node, every candidate index is the position of a node, and the
    product [len(corpus) * ratio] is finite (as it is for every exact
    ratio): neither an infinity nor NaN reaches [int]. *)
Theorem summarize_corpus_returns `{Collaborators} (corpus : list bow) (ratio : number) :
  let documents := Graph.nodes (_build_graph (_build_hasheable_corpus corpus)) in
  (length (_bm25_weights documents) ≤ length documents)%nat →
  Forall (Forall (λ entry : nat * Q, (entry.1 < length documents)%nat))
         (_bm25_weights documents) →
  is_Some (Py.value (Py.mul_int (Z.of_nat (length corpus)) ratio)) →
  ∃ docs : list bow, summarize_corpus corpus ratio = Ok docs.
Proof.
  intros documents Hrows Hrange [p Hp]. unfold summarize_corpus.
  destruct (length corpus =? 0)%nat; [by eexists|].
  destruct (weigh_rows_total documents 0 (_bm25_weights documents)
              (_build_graph (_build_hasheable_corpus corpus)))
    as [g1 Hpass]; [lia | done |].
  unfold _set_graph_edge_weights, weighting_pass. fold documents.
  rewrite Hpass. unfold summary_length. rewrite (int_trunc _ p Hp). simpl.
  destruct (all_weights_zero g1); simpl;
    match goal with
    | |- context [(length ?l <? 3)%nat] => destruct (length l <? 3)%nat
    end; by eexists.
Qed.

Lemma summarize_corpus_returns_witness :
  ∃ docs : list bow,
    @summarize_corpus Sample.collaborators Sample.corpus3 Sample.half = Ok docs.
Proof.
  apply (@summarize_corpus_returns Sample.collaborators Sample.corpus3 Sample.half).
  - vm_compute. lia.
  - vm_compute. repeat (constructor; try lia).
  - vm_compute. by eexists.
Defined.

(** With a float ratio that is infinite or NaN, and at least 3 nodes left
    after pruning, [summarize_corpus] raises what [int] raises on the
    product: [OverflowError] for an infinity, [ValueError] for NaN. *)
Theorem summarize_corpus_not_finite `{Collaborators}
    (corpus : list bow) (graph : Graph.t) :
  corpus ≠ [] → Z.of_nat (length corpus) < 2 ^ 53 →
  _set_graph_edge_weights (_build_graph (_build_hasheable_corpus corpus)) = Ok graph →
  (3 ≤ length (Graph.nodes (_remove_unreachable_nodes graph)))%nat →
  (∀ s, summarize_corpus corpus (Float (S754_infinity s)) = Raise OverflowError)
  ∧ summarize_corpus corpus (Float S754_nan)
    = Raise (ValueError "cannot convert float NaN to integer").
Proof.
  intros Hne Hfits Hgraph Hnodes.
  destruct (float_of_int_exact (Z.of_nat (length corpus))) as (m & e & Hm & _).
  { destruct corpus; [done|]. cbn [length] in *. lia. }
  split; [intros s|];
    rewrite (summarize_corpus_ranked _ _ graph) by done;
    unfold summary_length; cbn [Py.mul_int]; by rewrite Hm.
Qed.

Lemma summarize_corpus_not_finite_witness :
  @summarize_corpus Sample.collaborators Sample.corpus3 (Float (S754_infinity false))
  = Raise OverflowError.
Proof.
  destruct (@summarize_corpus_not_finite Sample.collaborators
              Sample.corpus3 Sample.graph3) as [Hinf _].
  - discriminate.
  - vm_compute. reflexivity.
  - vm_compute. reflexivity.
  - vm_compute. lia.
  - apply Hinf.
Defined.

(** ** The entry point: what it raises and what it returns *)

Lemma best_sentences_loop_subset nb_sentences rest count (S : gset SyntacticUnit) :
  best_sentences_loop nb_sentences rest count S ⊆ S ∪ list_to_set rest.
Proof.
  revert count S. induction rest as [|s rest IH]; intros count S; simpl.
  - apply union_subseteq_l.
  - destruct (count <=? nb_sentences); [|apply union_subseteq_l].
    destruct (decide (s ∈ S)).
    + etrans; [apply IH|]. set_solver.
    + etrans; [apply IH|]. set_solver.
Qed.

Lemma summarize_corpus_members `{Collaborators}
    (corpus : list bow) (ratio : number) (docs : list bow) :
  summarize_corpus corpus ratio = Ok docs → Forall (λ doc, doc ∈ corpus) docs.
Proof.
  intros Hrun. apply Forall_forall. intros doc Hdoc.
  destruct (summarize_corpus_inv corpus ratio docs Hrun)
    as [-> | (graph & k & _ & _ & _ & ->)].
  - by apply not_elem_of_nil in Hdoc.
  - pose proof (elem_of_sublist _ _ _ Hdoc (slice_to_sublist _ _)) as Hin.
    by rewrite sort_desc_Permutation in Hin.
Qed.

(** Ranked documents that all belong to some sentence are always turned into
    sentences of the input, whichever selection applies. *)
Lemma extract_important_sentences_ok
    (sentences : list SyntacticUnit) (corpus important_docs : list bow)
    (word_count nb_sentences : option Z) :
  important_docs ≠ [] →
  Forall (λ doc, doc ∈ take (length sentences) corpus) important_docs →
  ∃ extracted,
    _extract_important_sentences sentences corpus important_docs
      word_count nb_sentences = Ok extracted
    ∧ ∀ s, s ∈ extracted → s ∈ sentences.
Proof.
  intros Hne Hdocs. unfold _extract_important_sentences, _get_important_sentences.
  rewrite build_hasheable_corpus_id. unfold py_tuple.
  pose proof (mapM_getitem (dict_of_zip corpus sentences) important_docs) as Hmap.
  destruct (mapM (getitem (dict_of_zip corpus sentences)) important_docs)
    as [resolved|e].
  2: { destruct Hmap as [_ Hmissing]. exfalso.
       apply Exists_exists in Hmissing as (doc & Hin & Hnone).
       apply dict_of_zip_None in Hnone. apply Hnone.
       rewrite Forall_forall in Hdocs. by apply Hdocs. }
  assert (Hres : ∀ s, s ∈ resolved → s ∈ sentences).
  { intros s Hs. apply list_elem_of_lookup_1 in Hs as [i Hi].
    destruct (Forall2_lookup_r _ _ _ _ _ Hmap Hi) as (doc & _ & Hdoc).
    apply dict_of_zip_Some in Hdoc. by apply elem_of_zip_r in Hdoc. }
  cbn. destruct word_count as [wc|].
  - eexists. split; [reflexivity|]. intros s Hs. apply Hres.
    unfold _get_sentences_with_word_count in Hs.
    rewrite word_count_loop_prefix in Hs. simpl in Hs.
    by eapply elem_of_sublist; [exact Hs | apply sublist_take].
  - destruct nb_sentences as [nb|]; [|by exists resolved].
    destruct resolved as [|first rest].
    { apply Forall2_length in Hmap. by destruct important_docs. }
    eexists. split; [reflexivity|]. intros s Hs%elem_of_elements.
    apply best_sentences_loop_subset in Hs. apply Hres.
    apply elem_of_union in Hs as [->%elem_of_singleton | Hs%elem_of_list_to_set];
      [by left | by right].
Qed.

Lemma build_corpus_length `{Collaborators} (sentences : list SyntacticUnit) :
  length (_build_corpus sentences) = length sentences.
Proof. unfold _build_corpus. by rewrite !length_map. Qed.

(** After the ranking has returned at least one document, extraction cannot
    fail in [summarize]. *)
Lemma summarize_extraction_ok `{Collaborators}
    (sentences : list SyntacticUnit) (ratio : number) (docs : list bow)
    (word_count nb_sentences : option Z) :
  summarize_corpus (_build_corpus sentences) ratio = Ok docs → docs ≠ [] →
  ∃ extracted,
    _extract_important_sentences sentences (_build_corpus sentences) docs
      word_count nb_sentences = Ok extracted
    ∧ ∀ s, s ∈ extracted → s ∈ sentences.
Proof.
  intros Hrun Hne. apply extract_important_sentences_ok; [done|].
  rewrite take_ge by (rewrite build_corpus_length; lia).
  by eapply summarize_corpus_members.
Qed.

(** The only exceptions [summarize] raises are [ValueError] for a text of one
    sentence and whatever the ranking of the corpus raises: mapping ranked
    documents back to sentences and selecting among them never raise. *)
Theorem summarize_raises_only `{Collaborators}
    (text : string) (ratio : number) (word_count nb_sentences : option Z) (split : bool)
    (e : exn) :
  summarize text ratio word_count nb_sentences split = Raise e →
  (length (_clean_text_by_sentences text) = 1%nat
   ∧ e = ValueError "input must have more than one sentence")
  ∨ summarize_corpus (_build_corpus (_clean_text_by_sentences text))
      (if bool_decide (is_Some word_count ∨ is_Some nb_sentences) then Exact 1%Q else ratio)
    = Raise e.
Proof.
  unfold summarize.
  destruct (length (_clean_text_by_sentences text) =? 0)%nat; [done|].
  destruct (length (_clean_text_by_sentences text) =? 1)%nat eqn:Hone.
  { apply Nat.eqb_eq in Hone. intros [= <-]. by left. }
  unfold mbind, result_bind, Py.bind.
  destruct (summarize_corpus _ _) as [docs|e'] eqn:Hrank; [|intros [= <-]; by right].
  destruct docs as [|doc docs]; [done|].
  destruct (summarize_extraction_ok _ _ _ word_count nb_sentences Hrank)
    as (extracted & -> & _); done.
Qed.

Lemma summarize_raises_only_witness :
  length (Sample.clean_text_by_sentences "red green") = 1%nat
  ∨ @summarize_corpus Sample.collaborators
      (@_build_corpus Sample.collaborators (Sample.clean_text_by_sentences "red green"))
      Sample.fifth
    = Raise (ValueError "input must have more than one sentence").
Proof.
  destruct (@summarize_raises_only Sample.collaborators "red green" Sample.fifth
              None None false (ValueError "input must have more than one sentence"))
    as [[Hone _]|Hrank].
  - vm_compute. reflexivity.
  - by left.
  - by right.
Defined.

(** The summary is extractive: every sentence [summarize] returns is one of
    the sentences detected in the text. *)
Theorem summarize_returns_input_sentences `{Collaborators}
    (text : string) (ratio : number) (word_count nb_sentences : option Z) (split : bool)
    (extracted : list SyntacticUnit) :
  summarize text ratio word_count nb_sentences split = Ok (Sentences extracted) →
  ∀ s, s ∈ extracted → s ∈ _clean_text_by_sentences text.
Proof.
  unfold summarize.
  destruct (length (_clean_text_by_sentences text) =? 0)%nat;
    [by destruct split|].
  destruct (length (_clean_text_by_sentences text) =? 1)%nat; [done|].
  unfold mbind, result_bind, Py.bind.
  destruct (summarize_corpus _ _) as [docs|e'] eqn:Hrank; [|done].
  destruct docs as [|doc docs]; [by destruct split|].
  destruct (summarize_extraction_ok _ _ _ word_count nb_sentences Hrank)
    as (extracted' & -> & Hsub); [done|].
  by intros [= <-].
Qed.

Lemma summarize_returns_input_sentences_witness :
  ∃ extracted : list SyntacticUnit,
    @summarize Sample.collaborators Sample.text3 (Exact 1) (Some 3) None false
    = Ok (Sentences extracted)
    ∧ ∀ s, s ∈ extracted → s ∈ Sample.clean_text_by_sentences Sample.text3.
Proof.
  eexists. split; [vm_compute; reflexivity|].
  apply (@summarize_returns_input_sentences Sample.collaborators
           Sample.text3 (Exact 1) (Some 3) None false).
  vm_compute. reflexivity.
Defined.


(** ** Formatting: a sample round trip *)

Lemma format_results_roundtrip_witness :
  _format_results [Sample.first_unit; Sample.second_unit] true
  = StrList ["red green"; "green blue"]
  ∧ ∃ joined, _format_results [Sample.first_unit; Sample.second_unit] false = Str joined
              ∧ split_lines joined = ["red green"; "green blue"].
Proof.
  apply (format_results_roundtrip [Sample.first_unit; Sample.second_unit]).
  - discriminate.
  - repeat (apply Forall_cons; split; [cbn; repeat split; discriminate|]).
    apply Forall_nil_2.
Defined.

(** ** The deprecated similarity *)

(** [_get_similarity] guards both of its partial operations: the logarithm is
    only taken of positive lengths and the division only made by a non-zero
    denominator, so with a logarithm defined on the positive integers it
    always returns; the value is 0 as soon as one document has no words. *)
Theorem get_similarity_never_raises
    (_log10 : Z → result Q) (doc1 doc2 : bow) (numerator : Q) :
  (∀ n, 0 < n → ∃ q, _log10 n = Ok q) →
  ∃ q : Q,
    _get_similarity _log10 doc1 doc2 numerator = Ok q
    ∧ (_get_doc_length doc1 ≤ 0 ∨ _get_doc_length doc2 ≤ 0 → q = 0%Q).
Proof.
  intros Hlog. unfold _get_similarity.
  destruct (0 <? _get_doc_length doc1) eqn:H1; simpl.
  - destruct (0 <? _get_doc_length doc2) eqn:H2; simpl.
    + apply Z.ltb_lt in H1, H2.
      destruct (Hlog _ H1) as [a ->]. destruct (Hlog _ H2) as [b ->]. simpl.
      destruct (negb (Qeq_bool (a + b) 0)); eexists; (split; [reflexivity|]); lia.
    + exists 0%Q. by split.
  - exists 0%Q. by split.
Qed.

Lemma get_similarity_never_raises_witness :
  ∃ q : Q, _get_similarity Sample.log10 [(0, 2); (3, 1)] [] (5 # 1) = Ok q
           ∧ q = 0%Q.
Proof.
  destruct (get_similarity_never_raises Sample.log10 [(0, 2); (3, 1)] [] (5 # 1))
    as (q & Hrun & Hzero).
  - intros n Hn. unfold Sample.log10. apply Z.ltb_lt in Hn as ->. by eexists.
  - exists q. split; [exact Hrun|]. apply Hzero. right. vm_compute. discriminate.
Defined.

(** ** The corpus ranker on the store: no sharing in the result *)

(** The documents of the returned list are pairwise different objects, also
    when the corpus holds equal documents, and none of them is the returned
    list itself. *)
Theorem summarize_corpus_result_not_shared `{Collaborators}
    (h : list Store.obj) (corpus : nat) (ds : list bow) (ratio : number) (l : nat) :
  Store.corpus_at h corpus = Some ds →
  (summarize_corpus_st corpus ratio h).1 = Ok l →
  ∃ docs,
    (summarize_corpus_st corpus ratio h).2 !! l = Some (Store.RefList docs)
    ∧ NoDup docs
    ∧ (l ∉ docs)
    ∧ (corpus ∉ docs)
    ∧ l ≠ corpus.
Proof.
  intros Hc.
  assert (Hcorpus : (corpus < length h)%nat).
  { unfold Store.corpus_at in Hc.
    destruct (h !! corpus) eqn:Hl; [|done]. by eapply lookup_lt_Some. }
  rewrite (summarize_corpus_st_run h corpus ds ratio Hc). cbv zeta.
  set (hc := _build_hasheable_corpus ds).
  assert (Hempty : ∀ keys,
    (@Ok nat (S (length h)), h ++ [Store.TupleList keys] ++ [Store.RefList []]).1 = Ok l →
    ∃ docs,
      (@Ok nat (S (length h)), h ++ [Store.TupleList keys] ++ [Store.RefList []]).2 !! l
      = Some (Store.RefList docs)
      ∧ NoDup docs ∧ (l ∉ docs) ∧ (corpus ∉ docs) ∧ l ≠ corpus).
  { intros keys [= <-]. exists []. cbn [snd]. split.
    - rewrite app_assoc. apply list_lookup_middle. rewrite length_app. simpl. lia.
    - split; [constructor|]. split; [apply not_elem_of_nil|].
      split; [apply not_elem_of_nil | lia]. }
  destruct (length ds =? 0)%nat; [apply Hempty|].
  destruct (_set_graph_edge_weights (_build_graph hc)) as [graph|e]; [|done].
  cbv zeta.
  destruct (length (Graph.nodes (_remove_unreachable_nodes graph)) <? 3)%nat;
    [apply Hempty|].
  set (sorted := sort_desc (score_of (_pagerank (_remove_unreachable_nodes graph))) hc).
  destruct (summary_length (length ds) ratio) as [k|e]; [|done].
  set (out := Py.slice_to sorted k).
  cbn [fst snd]. intros [= <-].
  exists (seq (S (length h)) (length out)). split.
  - rewrite !app_assoc. apply list_lookup_middle.
    rewrite !length_app, !length_map. simpl. lia.
  - split; [apply NoDup_seq|].
    split; [rewrite elem_of_seq; lia|].
    split; [rewrite elem_of_seq; lia | lia].
Qed.

Lemma summarize_corpus_result_not_shared_witness :
  ∃ docs,
    (@summarize_corpus_st Sample.collaborators Sample.corpus3_loc (Exact 1) Sample.heap3).2 !! 8%nat
    = Some (Store.RefList docs)
    ∧ NoDup docs.
Proof.
  destruct (@summarize_corpus_result_not_shared Sample.collaborators
              Sample.heap3 Sample.corpus3_loc Sample.corpus3 (Exact 1) 8%nat)
    as (docs & Hl & Hnodup & _).
  - vm_compute. reflexivity.
  - vm_compute. reflexivity.
  - exists docs. split; [exact Hl | exact Hnodup].
Defined.

(** ** The entry point: sentences that can never be returned *)

(** A value of the selector map sits at the last position of its key. *)
Lemma foldl_insert_Some {V} (pairs : list (Node * V)) (m : gmap Node V) k v :
  foldl (fun d kv => <[kv.1 := kv.2]> d) m pairs !! k = Some v →
  (m !! k = Some v ∧ ∀ p v', pairs !! p ≠ Some (k, v'))
  ∨ ∃ idx, pairs !! idx = Some (k, v)
           ∧ ∀ p v', (idx < p)%nat → pairs !! p ≠ Some (k, v').
Proof.
  revert m. induction pairs as [|[k' v0] rest IH]; intros m Hlookup; simpl in *.
  - left. by split.
  - destruct (IH _ Hlookup) as [[Hm Hnone] | (idx & Hidx & Hlast)].
    + destruct (decide (k' = k)) as [->|Hne].
      * rewrite lookup_insert_eq in Hm. injection Hm as ->.
        right. exists 0%nat. split; [done|].
        intros [|p] v' Hp; [lia|]. apply Hnone.
      * rewrite lookup_insert_ne in Hm by done. left. split; [done|].
        intros [|p] v'; simpl; [congruence | apply Hnone].
    + right. exists (S idx). split; [done|].
      intros [|p] v' Hp; [lia|]. simpl. apply Hlast. lia.
Qed.

Lemma dict_of_zip_value_last {V} (keys : list Node) (values : list V) k v :
  dict_of_zip keys values !! k = Some v →
  ∃ idx, keys !! idx = Some k ∧ values !! idx = Some v
         ∧ ∀ p, (idx < p)%nat → (p < length values)%nat → keys !! p ≠ Some k.
Proof.
  unfold dict_of_zip. intros Hlookup.
  destruct (foldl_insert_Some _ _ _ _ Hlookup) as [[Hm _] | (idx & Hidx & Hlast)];
    [by rewrite lookup_empty in Hm|].
  rewrite lookup_zip_with in Hidx.
  destruct (keys !! idx) as [k'|] eqn:Hk; [|done].
  destruct (values !! idx) as [v'|] eqn:Hv; [|done].
  simpl in Hidx. injection Hidx as -> ->.
  exists idx. split; [done|]. split; [done|].
  intros p Hp Hlen Hkp.
  destruct (lookup_lt_is_Some_2 values p Hlen) as [vp Hvp].
  apply (Hlast p vp Hp). by rewrite lookup_zip_with, Hkp, Hvp.
Qed.

(** Whatever is extracted is a value of the selector map. *)
Lemma extract_important_sentences_values
    (sentences : list SyntacticUnit) (corpus important_docs : list bow)
    (word_count nb_sentences : option Z) (extracted : list SyntacticUnit) :
  _extract_important_sentences sentences corpus important_docs
    word_count nb_sentences = Ok extracted →
  ∀ s, s ∈ extracted → ∃ doc, dict_of_zip corpus sentences !! doc = Some s.
Proof.
  unfold _extract_important_sentences, _get_important_sentences.
  rewrite build_hasheable_corpus_id. unfold py_tuple.
  pose proof (mapM_getitem (dict_of_zip corpus sentences) important_docs) as Hmap.
  unfold mbind, result_bind, Py.bind.
  destruct (mapM (getitem (dict_of_zip corpus sentences)) important_docs)
    as [resolved|e]; [|done].
  assert (Hres : ∀ s, s ∈ resolved →
            ∃ doc, dict_of_zip corpus sentences !! doc = Some s).
  { intros s Hs. apply list_elem_of_lookup_1 in Hs as [i Hi].
    destruct (Forall2_lookup_r _ _ _ _ _ Hmap Hi) as (doc & _ & Hdoc). eauto. }
  destruct word_count as [wc|].
  - intros [= <-] s Hs. apply Hres.
    unfold _get_sentences_with_word_count in Hs.
    rewrite word_count_loop_prefix in Hs. simpl in Hs.
    by eapply elem_of_sublist; [exact Hs | apply sublist_take].
  - destruct nb_sentences as [nb|]; [|by intros [= <-]].
    unfold _get_group_of_best_sentences, group_of_best_sentences.
    destruct resolved as [|first rest]; [done|]. cbn.
    intros [= <-] s Hs%elem_of_elements.
    apply best_sentences_loop_subset in Hs. apply Hres.
    apply elem_of_union in Hs as [->%elem_of_singleton | Hs%elem_of_list_to_set];
      [by left | by right].
Qed.

(** A sentence whose tokens are those of a later sentence is never part of
    the summary: both get the same document, and the selector map keeps the
    later sentence for it. *)
Theorem summarize_drops_shadowed_sentence `{Collaborators}
    (text : string) (ratio : number) (word_count nb_sentences : option Z) (split : bool)
    (extracted : list SyntacticUnit) (i j : nat) (s s' : SyntacticUnit) :
  NoDup (_clean_text_by_sentences text) →
  _clean_text_by_sentences text !! i = Some s →
  _clean_text_by_sentences text !! j = Some s' →
  (i < j)%nat →
  Py.split (token s) = Py.split (token s') →
  summarize text ratio word_count nb_sentences split = Ok (Sentences extracted) →
  s ∉ extracted.
Proof.
  intros Hnodup Hi Hj Hij Htokens. unfold summarize.
  set (sentences := _clean_text_by_sentences text) in *.
  destruct (length sentences =? 0)%nat; [by destruct split|].
  destruct (length sentences =? 1)%nat; [done|].
  unfold mbind, result_bind, Py.bind.
  destruct (summarize_corpus _ _) as [docs|e'] eqn:Hrank; [|done].
  destruct docs as [|doc docs]; [by destruct split|].
  destruct (_extract_important_sentences _ _ _ _ _) as [extracted'|] eqn:Hextract;
    [|done].
  intros [= <-] Hs.
  destruct (extract_important_sentences_values _ _ _ _ _ _ Hextract s Hs)
    as [d Hd].
  destruct (dict_of_zip_value_last _ _ _ _ Hd) as (idx & Hkey & Hval & Hlast).
  assert (idx = i) as -> by (by eapply NoDup_lookup).
  apply (Hlast j Hij); [by eapply lookup_lt_Some|].
  unfold _build_corpus in *. rewrite list_lookup_fmap in *.
  rewrite list_lookup_fmap in *. fold sentences in Hkey |- *.
  rewrite Hi in Hkey. rewrite Hj. simpl in *. by rewrite <- Htokens.
Qed.

Lemma summarize_drops_shadowed_sentence_witness :
  ∃ extracted : list SyntacticUnit,
    @summarize Sample.collaborators Sample.repeated_text (Exact 1) None None false
    = Ok (Sentences extracted)
    ∧ (Sample.first_unit ∉ extracted).
Proof.
  eexists. split; [vm_compute; reflexivity|].
  apply (@summarize_drops_shadowed_sentence Sample.collaborators
           Sample.repeated_text (Exact 1) None None false _ 0%nat 3%nat
           Sample.first_unit (mkUnit "red green" "red green" 3)).
  - apply (bool_decide_unpack _). vm_compute. exact I.
  - vm_compute. reflexivity.
  - vm_compute. reflexivity.
  - lia.
  - reflexivity.
  - vm_compute. reflexivity.
Defined.

Lemma build_graph_node_bound (sequence : list Node) :
  (length (Graph.nodes (_build_graph sequence)) ≤ length sequence)%nat.
Proof.
  apply submseteq_length, NoDup_submseteq.
  - apply (wf_nodup _ (proj1 (build_graph_wf sequence))).
  - intros x. apply build_graph_nodes.
Qed.

(** A text of two sentences passes the input check but is never summarized:
    as long as pruning only removes nodes, what [summarize] returns for it is
    the empty result. *)
Theorem summarize_two_sentences `{Collaborators}
    (text : string) (ratio : number) (word_count nb_sentences : option Z) (split : bool)
    (v : summary) :
  (∀ g, (length (Graph.nodes (_remove_unreachable_nodes g))
         ≤ length (Graph.nodes g))%nat) →
  length (_clean_text_by_sentences text) = 2%nat →
  summarize text ratio word_count nb_sentences split = Ok v →
  v = empty_summary split.
Proof.
  intros Hprune Htwo. unfold summarize. rewrite Htwo. simpl.
  unfold mbind, result_bind, Py.bind.
  destruct (summarize_corpus _ _) as [docs|e] eqn:Hrank; [|done].
  apply summarize_corpus_few_nodes in Hrank as ->; [by intros [= <-] | done |].
  pose proof (build_graph_node_bound (_build_corpus (_clean_text_by_sentences text))).
  rewrite build_corpus_length in *. lia.
Qed.

Lemma summarize_two_sentences_witness :
  @summarize Sample.collaborators Sample.text2 (Exact 1) None (Some 2) true = Ok (StrList [])
  ∧ StrList [] = empty_summary true.
Proof.
  assert (Hrun : @summarize Sample.collaborators Sample.text2 (Exact 1) None (Some 2) true
                 = Ok (StrList [])) by (vm_compute; reflexivity).
  split; [exact Hrun|].
  apply (@summarize_two_sentences Sample.collaborators Sample.text2 (Exact 1) None (Some 2) true).
  - intros g. apply length_filter.
  - vm_compute. reflexivity.
  - exact Hrun.
Defined.
